(** * mc_world_merger: region-file codec, chunk merge and world glue

    A shallow embedding of [mc_world_merger.py].  Python objects that are
    mutated through several references ([Chunk] instances shared between the
    source and the target [chunk_map]) live in an explicit heap; dictionaries
    keep their insertion order; exceptions are values of [exc]. *)

From Stdlib Require Import ZArith Lia Ascii String.
From stdpp Require Import base list strings gmap.

(** ** Python primitives *)

Module Py.

Inductive PyError : Type :=
| IndexError
| ValueError
| TypeError
| FileNotFoundError.

Inductive exc (A : Type) : Type :=
| Ok (a : A)
| Raise (e : PyError).
Arguments Ok {A} a.
Arguments Raise {A} e.

Definition bind {A B} (m : exc A) (k : A → exc B) : exc B :=
  match m with
  | Ok a => k a
  | Raise e => Raise e
  end.

Definition is_ok {A} (m : exc A) : bool :=
  match m with Ok _ => true | Raise _ => false end.

Definition exc_map {A B} (f : A → B) (m : exc A) : exc B :=
  bind m (λ a, Ok (f a)).

(** [for x in xs: st = body st x], stopping at the first exception. *)
Fixpoint for_each {S X} (body : S → X → exc S) (xs : list X) (st : S) : exc S :=
  match xs with
  | [] => Ok st
  | x :: xs' => bind (body st x) (for_each body xs')
  end.

(** [len(l)] as a Python int. *)
Definition len {A} (l : list A) : Z := Z.of_nat (length l).

(** [arr[i]] for a non-negative index. *)
Definition getitem {A} (arr : list A) (i : nat) : exc A :=
  match arr !! i with
  | Some x => Ok x
  | None => Raise IndexError
  end.

(** [arr[i] = v] for a non-negative index. *)
Definition setitem {A} (arr : list A) (i : nat) (v : A) : exc (list A) :=
  if decide (i < length arr)%nat then Ok (<[i := v]> arr) else Raise IndexError.

(** [bytearray(n)]: [n] zero bytes. *)
Definition bytearray (n : Z) : exc (list Z) :=
  if (n <? 0)%Z then Raise ValueError else Ok (replicate (Z.to_nat n) 0%Z).

(** How a slice bound is clamped into [0, len]: a negative bound counts
    from the end. *)
Definition clamp (n i : Z) : Z :=
  if (i <? 0)%Z then Z.max 0 (i + n) else Z.min i n.

(** [l[start:stop]] *)
Definition slice {A} (l : list A) (start stop : Z) : list A :=
  let lo := clamp (len l) start in
  let hi := clamp (len l) stop in
  take (Z.to_nat (hi - lo)) (drop (Z.to_nat lo) l).

(** [l[start:]] *)
Definition slice_from {A} (l : list A) (start : Z) : list A :=
  slice l start (len l).

(** [l[start:stop] = data] on a bytearray (the array may change length). *)
Definition slice_assign {A} (l : list A) (start stop : Z) (data : list A) : list A :=
  let lo := clamp (len l) start in
  let hi := Z.max lo (clamp (len l) stop) in
  take (Z.to_nat lo) l ++ data ++ drop (Z.to_nat hi) l.

(** [range(0, stop, step)] *)
Definition range_step (stop step : nat) : list nat :=
  (λ k, k * step)%nat <$> seq 0 ((stop + step - 1) / step).

(** Insertion-ordered dictionaries: the items in insertion order. *)
Abbreviation dict K V := (list (K * V)).

Section dict.
Context {K V : Type} `{EqDecision K}.

Fixpoint dict_get (k : K) (d : dict K V) : option V :=
  match d with
  | [] => None
  | (k', v) :: d' => if decide (k = k') then Some v else dict_get k d'
  end.

(** [d[k] = v]: an existing key keeps its place, a new key goes last. *)
Fixpoint dict_set (k : K) (v : V) (d : dict K V) : dict K V :=
  match d with
  | [] => [(k, v)]
  | (k', v') :: d' =>
      if decide (k = k') then (k, v) :: d' else (k', v') :: dict_set k v d'
  end.

Definition dict_keys (d : dict K V) : list K := d.*1.
Definition dict_values (d : dict K V) : list V := d.*2.
End dict.

(** [str.lower()] on ASCII text. *)
Definition lower_ascii (c : ascii) : ascii :=
  let n := nat_of_ascii c in
  if decide (65 ≤ n ∧ n ≤ 90)%nat then ascii_of_nat (n + 32) else c.

Fixpoint lower (s : string) : string :=
  match s with
  | EmptyString => EmptyString
  | String c s' => String (lower_ascii c) (lower s')
  end.

Fixpoint startswith (p s : string) : bool :=
  match p, s with
  | EmptyString, _ => true
  | String a p', String b s' => if decide (a = b) then startswith p' s' else false
  | String _ _, EmptyString => false
  end.

Definition endswith (suffix s : string) : bool :=
  startswith (String.rev suffix) (String.rev s).

(** [os.path.join] on POSIX. *)
Definition path_join2 (path b : string) : string :=
  if startswith "/" b then b
  else if decide (path = EmptyString) then b
  else if endswith "/" path then path +:+ b
  else path +:+ "/" +:+ b.

Definition path_join (a : string) (ps : list string) : string :=
  foldl path_join2 a ps.

(** The two kinds of object that meet in [name in f1]: a [str] and a
    3-tuple of [str]. Objects of different kinds are never equal. *)
Inductive pyobj : Type :=
| PyStr (s : string)
| PyTuple3 (a b c : string).

Definition py_eqb (x y : pyobj) : bool :=
  match x, y with
  | PyStr s, PyStr t => bool_decide (s = t)
  | PyTuple3 a b c, PyTuple3 a' b' c' =>
      bool_decide (a = a') && bool_decide (b = b') && bool_decide (c = c')
  | _, _ => false
  end.

(** [x in l] for a list [l] *)
Definition list_contains (x : pyobj) (l : list pyobj) : bool :=
  existsb (py_eqb x) l.

End Py.
Import Py.

Notation "'let*' x := e 'in' k" := (bind e (λ x, k))
  (at level 10, x pattern, e at level 100, k at level 200).

(** ** Chunks and the heap they live in *)

Record Chunk : Type := mkChunk {
  timestamp : Z;
  location : Z;
  size : Z;
  chunk_data : list Z
}.

Global Instance Chunk_inhabited : Inhabited Chunk := populate (mkChunk 0 0 0 []).

(** A reference to a [Chunk] object. *)
Abbreviation ref := nat.

(** The object store: cell [r] holds the chunk that reference [r] names. *)
Abbreviation heap := (list Chunk).

(** Reading through a reference.  Every reference the code holds was
    allocated; one that was not reads as the default chunk. *)
Definition deref (h : heap) (r : ref) : Chunk := h !!! r.

(** [Chunk(timestamp, location, size, chunk_data)] *)
Definition alloc (c : Chunk) (h : heap) : ref * heap := (length h, h ++ [c]).

(** [chunk.location = v] *)
Definition set_chunk_location (r : ref) (v : Z) (h : heap) : heap :=
  let c := deref h r in
  <[r := mkChunk (timestamp c) v (size c) (chunk_data c)]> h.

(** ** Merge rules *)

Inductive MergeRule : Type :=
| MergeRuleAlways
| MergeRuleNever
| MergeRuleNewestChunks.

Definition is_allowed_to_merge (rule : MergeRule) (current_chunk new_chunk : Chunk) : bool :=
  match rule with
  | MergeRuleAlways => true
  | MergeRuleNever => false
  | MergeRuleNewestChunks => (timestamp new_chunk >? timestamp current_chunk)%Z
  end.

(** ** McaFile *)

Module McaFile.

Definition sector_size : Z := 4096.

(** [chunk_map]: table byte position (4 * slot index) to chunk object. *)
Abbreviation chunk_map := (dict nat ref).

Definition merge_step (h : heap) (rule : MergeRule) (self : chunk_map)
    (item : nat * ref) : chunk_map :=
  let '(pos, new_chunk) := item in
  match dict_get pos self with
  | Some current_chunk =>
      if is_allowed_to_merge rule (deref h current_chunk) (deref h new_chunk)
      then dict_set pos new_chunk self
      else self
  | None => dict_set pos new_chunk self
  end.

(** [self.merge(other, rule)]; the result is the new [self.chunk_map]. *)
Definition merge (h : heap) (self other : chunk_map) (rule : MergeRule) : chunk_map :=
  foldl (merge_step h rule) self other.

Definition update_step (st : Z * heap) (r : ref) : Z * heap :=
  let '(current_address, h) := st in
  let h' := set_chunk_location r current_address h in
  (current_address + size (deref h' r), h')%Z.

Definition update_chunk_locations (m : chunk_map) (h : heap) : heap :=
  (foldl update_step (2%Z, h) (dict_values m)).2.

Definition set_timestamp (timestamps : list Z) (pos : nat) (chunk : Chunk)
    : exc (list Z) :=
  let* t := setitem timestamps pos (Z.land (Z.shiftr (timestamp chunk) 24) 255) in
  let* t := setitem t (pos + 1) (Z.land (Z.shiftr (timestamp chunk) 16) 255) in
  let* t := setitem t (pos + 2) (Z.land (Z.shiftr (timestamp chunk) 8) 255) in
  setitem t (pos + 3) (Z.land (timestamp chunk) 255).

Definition set_location (locations : list Z) (pos : nat) (chunk : Chunk)
    : exc (list Z) :=
  let* l := setitem locations pos (Z.land (Z.shiftr (location chunk) 16) 255) in
  let* l := setitem l (pos + 1) (Z.land (Z.shiftr (location chunk) 8) 255) in
  let* l := setitem l (pos + 2) (Z.land (location chunk) 255) in
  setitem l (pos + 3) (Z.land (size chunk) 255).

Definition join_step (res : list Z) (item : Z * list Z) : list Z :=
  let '(i, data) := item in
  let pos := (i * sector_size)%Z in
  slice_assign res pos (pos + len data) data.

Definition join (locations timestamps : list Z) (data_list : dict Z (list Z))
    (max_pos : Z) : exc (list Z) :=
  let total_bytes := (len locations + len timestamps + max_pos)%Z in
  let* res := bytearray total_bytes in
  let res := slice_assign res 0 (len locations) locations in
  let res := slice_assign res sector_size (sector_size * 2) timestamps in
  Ok (foldl join_step res data_list).

(** The loop state of [write]. *)
Record write_state : Type := mkWS {
  ws_locations : list Z;
  ws_timestamps : list Z;
  ws_chunk_data_list : dict Z (list Z);
  ws_max_pos : Z
}.

(** One turn of the loop of [write], for the item [(pos, chunk)]. *)
Definition write_chunk (st : write_state) (pos : nat) (chunk : Chunk)
    : exc write_state :=
  let* locations := set_location (ws_locations st) pos chunk in
  let* timestamps := set_timestamp (ws_timestamps st) pos chunk in
  let chunk_data_list :=
    dict_set (location chunk) (chunk_data chunk) (ws_chunk_data_list st) in
  let byte_position := ((size chunk + location chunk - 2) * sector_size)%Z in
  let max_pos :=
    if (byte_position >? ws_max_pos st)%Z then byte_position else ws_max_pos st in
  Ok (mkWS locations timestamps chunk_data_list max_pos).

Definition write_step (h : heap) (st : write_state) (item : nat * ref)
    : exc write_state :=
  write_chunk st item.1 (deref h item.2).

Definition write_init : write_state :=
  mkWS (replicate (Z.to_nat sector_size) 0%Z)
       (replicate (Z.to_nat sector_size) 0%Z) [] 0.

(** [write] up to the bytes handed to the file: the heap after
    [update_chunk_locations] and the buffer [to_write]. *)
Definition encode (m : chunk_map) (h : heap) : exc (heap * list Z) :=
  let h' := update_chunk_locations m h in
  let* st := for_each (write_step h') m write_init in
  let* to_write :=
    join (ws_locations st) (ws_timestamps st) (ws_chunk_data_list st)
         (ws_max_pos st) in
  Ok (h', to_write).

Fixpoint bytes_to_int_loop (n : nat) (arr : list Z) (start end_ : nat) (res : Z)
    : exc Z :=
  match n with
  | O => Ok res
  | S n' =>
      let* b := getitem arr start in
      bytes_to_int_loop n' arr (S start) end_
        (Z.lor res (Z.shiftl (Z.land b 255) (Z.of_nat (end_ - start) * 8)))
  end.

(** The [while start <= end] loop runs [end + 1 - start] times. *)
Definition bytes_to_int (arr : list Z) (start end_ : nat) : exc Z :=
  bytes_to_int_loop (S end_ - start) arr start end_ 0.

Definition read_step (locations timestamps chunk_data_array : list Z)
    (st : chunk_map * heap) (i : nat) : exc (chunk_map * heap) :=
  let '(m, h) := st in
  let* timestamp := bytes_to_int timestamps i (i + 3) in
  let* location := bytes_to_int locations i (i + 2) in
  let* b := getitem locations (i + 3) in
  let size := Z.land b 255 in
  if (size =? 0)%Z then Ok (m, h)
  else
    let chunk_data_start := ((location - 2) * sector_size)%Z in
    let chunk_data_end := ((location + size - 2) * sector_size)%Z in
    let chunk_data := slice chunk_data_array chunk_data_start chunk_data_end in
    let '(r, h') := alloc (mkChunk timestamp location size chunk_data) h in
    Ok (dict_set i r m, h').

(** [read_file] after the bytes have been read from the file. *)
Definition decode (bytes_data : list Z) (h : heap) : exc (chunk_map * heap) :=
  let locations := slice bytes_data 0 sector_size in
  let timestamps := slice bytes_data sector_size (sector_size * 2) in
  let chunk_data_array := slice_from bytes_data (sector_size * 2) in
  for_each (read_step locations timestamps chunk_data_array)
           (range_step (length locations) 4) ([], h).

End McaFile.
Import McaFile.

(** ** RegionFinder *)

Record FilePair : Type := mkFilePair {
  from_file : string;
  to_file : string
}.

Module RegionFinder.

Definition region_path : string := "region".

(** File contents by path. *)
Abbreviation filesystem := (gmap string (list Z)).

(** What [os.walk(top)] yields: for each directory, its path and the
    names of its files. *)
Definition walker : Type := string → list (string * list string).

(** A listing entry: [(file, path, path under world1)]. *)
Definition entry : Type := string * string * string.

Definition getsize (fs : filesystem) (path : string) : exc Z :=
  match fs !! path with
  | Some data => Ok (len data)
  | None => Raise FileNotFoundError
  end.

Definition list_file (world1 dim_path : string) (fs : filesystem) (root : string)
    (map_files : dict string (list entry)) (file : string)
    : exc (dict string (list entry)) :=
  if endswith ".mca" file then
    let* sz := getsize fs (path_join root [file]) in
    if (sz >? 0)%Z then
      let item := (file, path_join root [file], path_join world1 [dim_path; file]) in
      Ok (dict_set file (default [] (dict_get file map_files) ++ [item]) map_files)
    else Ok map_files
  else Ok map_files.

Definition list_dir (world1 dim_path : string) (fs : filesystem)
    (map_files : dict string (list entry)) (d : string * list string)
    : exc (dict string (list entry)) :=
  for_each (list_file world1 dim_path fs d.1) d.2 map_files.

Definition list_mca_files (world1 : string) (walk : walker) (fs : filesystem)
    (dim_path : string) : exc (list entry) :=
  let* map_files := for_each (list_dir world1 dim_path fs) (walk dim_path) [] in
  Ok (concat (dict_values map_files)).

(** [f1[name]] where [f1] is a list and [name] a [str]. *)
Definition list_getitem_str (f1 : list entry) (name : string) : exc string :=
  Raise TypeError.

Definition pair_step (world1_dim_path : string) (f1 : list entry)
    (st : list FilePair * list FilePair) (e : entry)
    : exc (list FilePair * list FilePair) :=
  let '(files_to_copy, files_to_merge) := st in
  let '(name, from_file, _) := e in
  if list_contains (PyStr name) ((λ t : entry, PyTuple3 t.1.1 t.1.2 t.2) <$> f1) then
    let* target := list_getitem_str f1 name in
    Ok (files_to_copy, files_to_merge ++ [mkFilePair from_file target])
  else
    Ok (files_to_copy ++ [mkFilePair from_file (path_join world1_dim_path [name])],
        files_to_merge).

(** The classification loop of [merge_dimension]:
    [(files_to_copy, files_to_merge)]. *)
Definition pair_files (world1_dim_path : string) (f1 f2 : list entry)
    : exc (list FilePair * list FilePair) :=
  for_each (pair_step world1_dim_path f1) f2 ([], []).

Definition copy_one (fs : filesystem) (pair : FilePair) : filesystem :=
  match fs !! from_file pair with
  | None => fs
  | Some _ =>
      let fs1 := <[to_file pair := []]> fs in
      <[to_file pair := default [] (fs1 !! from_file pair)]> fs1
  end.

Definition copy (files : list FilePair) (fs : filesystem) : filesystem :=
  foldl copy_one fs files.

(** [McaFile(path)]: [read_file] opens the file, reads it and decodes. *)
Definition read_file (fs : filesystem) (path : string) (h : heap)
    : exc (chunk_map * heap) :=
  match fs !! path with
  | Some bytes_data => decode bytes_data h
  | None => Raise FileNotFoundError
  end.

Definition merge_pair (rule : MergeRule) (fs : filesystem) (pair : FilePair)
    : exc filesystem :=
  let* t := read_file fs (to_file pair) [] in
  let* s := read_file fs (from_file pair) t.2 in
  let target := McaFile.merge s.2 t.1 s.1 rule in
  let* w := encode target s.2 in
  Ok (<[to_file pair := w.2]> fs).

(** [try: ... except Exception: print(...)] *)
Definition merge_one (rule : MergeRule) (fs : filesystem) (pair : FilePair)
    : filesystem :=
  match merge_pair rule fs pair with
  | Ok fs' => fs'
  | Raise _ => fs
  end.

Definition merge (files : list FilePair) (rule : MergeRule) (fs : filesystem)
    : filesystem :=
  foldl (merge_one rule) fs files.

(** The test [user_input.lower() == "y"]. *)
Definition confirmed (user_input : string) : bool :=
  bool_decide (lower user_input = "y").

(** What [merge_dimension] does once the two lists are known;
    [user_input] is what [input] returns if it is called. *)
Definition confirm_and_run (files_to_copy files_to_merge : list FilePair)
    (rule : MergeRule) (user_input : string) (fs : filesystem) : filesystem :=
  match files_to_copy, files_to_merge with
  | [], [] => fs
  | _, _ =>
      if confirmed user_input
      then merge files_to_merge rule (copy files_to_copy fs)
      else fs
  end.

(** [merge_dimension]; the [print] calls are left out.  [walk] is what
    [os.walk] finds and [user_input] what [input] returns. *)
Definition merge_dimension (world1 world2 : string) (walk : walker)
    (dimension : string) (rule : MergeRule) (user_input : string)
    (fs : filesystem) : exc filesystem :=
  let world1_dim_path := path_join world1 [dimension; region_path] in
  let world2_dim_path := path_join world2 [dimension; region_path] in
  let* f1 := list_mca_files world1 walk fs world1_dim_path in
  let* f2 := list_mca_files world1 walk fs world2_dim_path in
  let* lists := pair_files world1_dim_path f1 f2 in
  Ok (confirm_and_run lists.1 lists.2 rule user_input fs).

End RegionFinder.

(** * Vocabulary of the properties *)

(** What an entry of [base] becomes in the words of the specification:
    the incoming reference when its key is in [incoming] and the rule
    permits it, the old one otherwise. *)
Definition resolved (h : heap) (rule : MergeRule) (incoming : chunk_map)
    (e : nat * ref) : nat * ref :=
  (e.1,
   match dict_get e.1 incoming with
   | Some new_chunk =>
       if is_allowed_to_merge rule (deref h e.2) (deref h new_chunk)
       then new_chunk else e.2
   | None => e.2
   end).

(** The merged container in the words of the specification: the entries
    of [base] in place, followed by the entries of [incoming] under keys new
    to [base], in the order of [incoming]. *)
Definition apply_incoming (h : heap) (rule : MergeRule) (base incoming : chunk_map)
    : chunk_map :=
  (resolved h rule incoming <$> base)
  ++ filter (λ e, dict_get e.1 base = None) incoming.

(** Two chunk values that differ at most in [location]. *)
Definition same_content (c c' : Chunk) : Prop :=
  timestamp c = timestamp c' ∧ size c = size c' ∧ chunk_data c = chunk_data c'.

(** Sectors taken by the chunks [rs], in order. *)
Definition sectors (h : heap) (rs : list ref) : Z :=
  foldr (λ r acc, size (deref h r) + acc)%Z 0%Z rs.

(** The walk of [update_chunk_locations], from any start address. *)
Definition walk (a : Z) (h : heap) (rs : list ref) : Z * heap :=
  foldl update_step (a, h) rs.

(** A payload of [n] sectors filled with byte [b]. *)
Definition payload (n b : Z) : list Z := replicate (Z.to_nat (n * sector_size)) b.

(** Slot 5 and slot 9 sit at table positions 20 and 36.  Chunk 0 belongs to
    the target file, chunks 1 and 2 to the source file. *)
Definition scenario_heap : heap :=
  [mkChunk 100 2 1 (payload 1 1); mkChunk 200 2 2 (payload 2 2); mkChunk 50 4 1 (payload 1 3)].
Definition scenario_base : chunk_map := [(20, 0)].
Definition scenario_incoming : chunk_map := [(20, 1); (36, 2)].

(** A target with slot 5 and a source with slot 9 only, both stored at
    sector 2 of their own file. *)
Definition disjoint_heap : heap :=
  [mkChunk 100 2 1 (payload 1 1); mkChunk 50 2 1 (payload 1 3)].
Definition disjoint_base : chunk_map := [(20, 0)].
Definition disjoint_incoming : chunk_map := [(36, 1)].

(** The copy list [pair_files] builds from the source listing. *)
Definition copies_of (world1_dim_path : string) (f2 : list RegionFinder.entry)
    : list FilePair :=
  (λ e : RegionFinder.entry, mkFilePair e.1.2 (path_join world1_dim_path [e.1.1])) <$> f2.

(** A region file with one chunk in slot 0: one sector at offset 2,
    timestamp [ts] (below 256) and a payload filled with byte [b]. *)
Definition region_with_slot0 (ts b : Z) : list Z :=
  ([0; 0; 2; 1] ++ replicate 4092 0)%Z
  ++ ([0; 0; 0; ts] ++ replicate 4092 0)%Z
  ++ payload 1 b.

(** A target world w1 and a source world w2 that both hold r.0.0.mca in
    their main region directory; the target's chunk is the newer one. *)
Definition two_worlds_walk : RegionFinder.walker :=
  λ top,
    if decide (top = "w1/region") then [("w1/region", ["r.0.0.mca"])]
    else if decide (top = "w2/region") then [("w2/region", ["r.0.0.mca"])]
    else [].

Definition two_worlds_fs : gmap string (list Z) :=
  <["w1/region/r.0.0.mca" := region_with_slot0 100 7]>
    (<["w2/region/r.0.0.mca" := region_with_slot0 50 9]> ∅).

Definition be24 (b0 b1 b2 : Z) : Z :=
  Z.lor (Z.lor (Z.lor 0 (Z.shiftl (Z.land b0 255) 16)) (Z.shiftl (Z.land b1 255) 8))
        (Z.shiftl (Z.land b2 255) 0).

Definition be32 (b0 b1 b2 b3 : Z) : Z :=
  Z.lor (Z.lor (Z.lor (Z.lor 0 (Z.shiftl (Z.land b0 255) 24)) (Z.shiftl (Z.land b1 255) 16))
               (Z.shiftl (Z.land b2 255) 8))
        (Z.shiftl (Z.land b3 255) 0).

(** The chunk that table position [i] describes. *)
Definition entry_chunk (locations timestamps chunk_data_array : list Z) (i : nat) : Chunk :=
  let location := be24 (locations !!! i) (locations !!! (i + 1)) (locations !!! (i + 2)) in
  let size := Z.land (locations !!! (i + 3)) 255 in
  mkChunk
    (be32 (timestamps !!! i) (timestamps !!! (i + 1)) (timestamps !!! (i + 2))
          (timestamps !!! (i + 3)))
    location size
    (slice chunk_data_array ((location - 2) * sector_size) ((location + size - 2) * sector_size)).

(** The same, read off a whole buffer. *)
Definition table_entry (bytes_data : list Z) (i : nat) : Chunk :=
  entry_chunk (slice bytes_data 0 sector_size)
              (slice bytes_data sector_size (sector_size * 2))
              (slice_from bytes_data (sector_size * 2)) i.

(** [payload.length == sectorCount * 4096] *)
Definition whole_payload (c : Chunk) : Prop :=
  len (chunk_data c) = (size c * sector_size)%Z.

(** A header whose slot 0 claims one sector at offset 2, and no payload
    region at all. *)
Definition truncated_region : list Z :=
  ([0; 0; 2; 1] ++ replicate 4092 0)%Z ++ replicate (Z.to_nat 4096) 0%Z.

(** The container as the loop of [write] sees it: positions and chunk
    values. *)
Definition view (h : heap) (m : chunk_map) : list (nat * Chunk) :=
  (λ e, (e.1, deref h e.2)) <$> m.

Definition put4 (arr : list Z) (pos : nat) (b0 b1 b2 b3 : Z) : list Z :=
  <[pos + 3 := b3]> (<[pos + 2 := b2]> (<[pos + 1 := b1]> (<[pos := b0]> arr))).

Definition put_location (arr : list Z) (e : nat * Chunk) : list Z :=
  put4 arr e.1 (Z.land (Z.shiftr (location e.2) 16) 255)
       (Z.land (Z.shiftr (location e.2) 8) 255)
       (Z.land (location e.2) 255) (Z.land (size e.2) 255).

Definition put_timestamp (arr : list Z) (e : nat * Chunk) : list Z :=
  put4 arr e.1 (Z.land (Z.shiftr (timestamp e.2) 24) 255)
       (Z.land (Z.shiftr (timestamp e.2) 16) 255)
       (Z.land (Z.shiftr (timestamp e.2) 8) 255) (Z.land (timestamp e.2) 255).

Definition put_data (d : dict Z (list Z)) (e : nat * Chunk) : dict Z (list Z) :=
  dict_set (location e.2) (chunk_data e.2) d.

Definition raise_max_pos (max_pos : Z) (e : nat * Chunk) : Z :=
  let byte_position := ((size e.2 + location e.2 - 2) * sector_size)%Z in
  if (byte_position >? max_pos)%Z then byte_position else max_pos.

(** Writing the four bytes [f0 c] to [f3 c] of a chunk into its cell. *)
Definition put_cell (f0 f1 f2 f3 : Chunk → Z) (arr : list Z) (e : nat * Chunk) : list Z :=
  put4 arr e.1 (f0 e.2) (f1 e.2) (f2 e.2) (f3 e.2).

(** Chunks laid out back to back from sector [a]. *)
Fixpoint packed (a : Z) (cs : list (nat * Chunk)) : Prop :=
  match cs with
  | [] => True
  | e :: cs' => location e.2 = a ∧ packed (a + size e.2) cs'
  end.

(** Sectors taken by the chunks [cs]. *)
Definition total (cs : list (nat * Chunk)) : Z :=
  foldr (λ e acc, size e.2 + acc)%Z 0%Z cs.

(** The payloads of [cs], one after the other. *)
Definition payloads (cs : list (nat * Chunk)) : list Z :=
  concat ((λ e, chunk_data e.2) <$> cs).

(** [maxExtent]: the largest [(sectorOffset + sectorCount - 2) * 4096], or 0. *)
Definition max_extent (cs : list (nat * Chunk)) : Z :=
  foldr (λ e acc, Z.max ((location e.2 + size e.2 - 2) * sector_size) acc)%Z 0%Z cs.

(** A container with valid slots: keys are the table positions [4 * k] of
    slot indices [k < 1024], each key once; the chunks are distinct live
    objects with a sector count in [1, 255], a payload of exactly that many
    sectors and a 32-bit timestamp. *)
Record valid_container (m : chunk_map) (h : heap) : Prop := mkValid {
  vc_keys : NoDup (dict_keys m);
  vc_slots : ∀ pos, pos ∈ dict_keys m → ∃ k, k < 1024 ∧ pos = k * 4;
  vc_refs : NoDup (dict_values m);
  vc_live : ∀ r, r ∈ dict_values m → r < length h;
  vc_count : ∀ r, r ∈ dict_values m → (1 ≤ size (deref h r) ≤ 255)%Z;
  vc_payload : ∀ r, r ∈ dict_values m → whole_payload (deref h r);
  vc_time : ∀ r, r ∈ dict_values m → (0 ≤ timestamp (deref h r) < 2 ^ 32)%Z
}.

(** The same on the view that [write] loops over, after compaction. *)
Record laid_out (cs : list (nat * Chunk)) : Prop := mkLaidOut {
  lo_keys : NoDup cs.*1;
  lo_slots : ∀ e, e ∈ cs → ∃ k, k < 1024 ∧ e.1 = k * 4;
  lo_count : ∀ e, e ∈ cs → (1 ≤ size e.2 ≤ 255)%Z;
  lo_payload : ∀ e, e ∈ cs → whole_payload e.2;
  lo_time : ∀ e, e ∈ cs → (0 ≤ timestamp e.2 < 2 ^ 32)%Z;
  lo_packed : packed 2 cs
}.

Definition zero_table : list Z := replicate (Z.to_nat sector_size) 0%Z.
Definition location_table (cs : list (nat * Chunk)) : list Z := foldl put_location zero_table cs.
Definition timestamp_table (cs : list (nat * Chunk)) : list Z := foldl put_timestamp zero_table cs.

(** What a container holds at a table position: timestamp and payload. *)
Definition slot_content (h : heap) (m : chunk_map) (pos : nat) : option (Z * list Z) :=
  (λ r, (timestamp (deref h r), chunk_data (deref h r))) <$> dict_get pos m.

(** The container holds the triple [(k, ts, data)], [k] a slot index. *)
Definition holds_slot (h : heap) (m : chunk_map) (k : nat) (ts : Z) (data : list Z) : Prop :=
  slot_content h m (k * 4) = Some (ts, data).

(** A region file with a whole header whose live entries point at sectors
    inside the file, past the header. *)
Definition well_formed_region (bytes_data : list Z) : Prop :=
  (8192 ≤ len bytes_data)%Z
  ∧ ∀ k, k < 1024 →
      let c := table_entry bytes_data (k * 4) in
      size c ≠ 0%Z →
      (2 ≤ location c)%Z ∧ ((location c + size c) * 4096 ≤ len bytes_data)%Z.

(** What a region file stores under a table position: the timestamp and
    the payload of its entry, or nothing when the count byte is zero. *)
Definition file_slot (bytes_data : list Z) (pos : nat) : option (Z * list Z) :=
  let c := table_entry bytes_data pos in
  if (size c =? 0)%Z then None else Some (timestamp c, chunk_data c).

(** What merging the file [source] into the file [target] should leave
    under a table position. *)
Definition merged_slot (rule : MergeRule) (target source : list Z) (pos : nat)
    : option (Z * list Z) :=
  match file_slot target pos, file_slot source pos with
  | Some t, Some s =>
      Some (if is_allowed_to_merge rule (table_entry target pos) (table_entry source pos)
            then s else t)
  | Some t, None => Some t
  | None, o => o
  end.

(** A file whose slot 0 claims one sector at offset 0, followed by two
    sectors of data filled with 5 and with 6. *)
Definition region_offset0 : list Z :=
  ([0; 0; 0; 1] ++ replicate 4092 0)%Z ++ replicate (Z.to_nat 4096) 0%Z
  ++ payload 1 5 ++ payload 1 6.

(** What [list_mca_files] is to list: for every file that [os.walk] finds
    under [dim_path], whose name ends in .mca and whose size is not 0, the
    triple of its name, its path and the path built from [world1]. *)
Definition listed (world1 : string) (walk : RegionFinder.walker)
    (fs : RegionFinder.filesystem) (dim_path : string) (e : RegionFinder.entry) : Prop :=
  ∃ root files file,
    (root, files) ∈ walk dim_path ∧ file ∈ files
    ∧ endswith ".mca" file = true
    ∧ (∃ d, fs !! path_join root [file] = Some d ∧ d ≠ [])
    ∧ e = (file, path_join root [file], path_join world1 [dim_path; file]).

(** The unsigned big-endian value of a run of bytes, each taken modulo 256. *)
Definition big_endian (bs : list Z) : Z :=
  foldl (λ acc b, acc * 256 + b mod 256)%Z 0%Z bs.

(** * Properties *)

(** ** Dictionaries *)

Section dict_facts.
Context {K V : Type} `{EqDecision K}.
Implicit Types (d : dict K V) (k : K) (v : V).

Lemma dict_get_None k d : dict_get k d = None ↔ k ∉ dict_keys d.
Proof.
  unfold dict_keys. induction d as [|[k' v'] d IH]; simpl.
  - split; [intros _; apply not_elem_of_nil | done].
  - rewrite not_elem_of_cons. destruct (decide (k = k')); split; try done.
    + intros [? _]. done.
    + intros ?. split; [done | by apply IH].
    + intros [_ ?]. by apply IH.
Qed.

Lemma dict_get_Some_elem k v d : dict_get k d = Some v → (k, v) ∈ d.
Proof.
  induction d as [|[k' v'] d IH]; simpl; [done|].
  destruct (decide (k = k')) as [->|]; intros Hg.
  - injection Hg as ->. apply elem_of_cons; by left.
  - apply elem_of_cons; right; auto.
Qed.

Lemma elem_dict_get k v d : NoDup (dict_keys d) → (k, v) ∈ d → dict_get k d = Some v.
Proof.
  unfold dict_keys. induction d as [|[k' v'] d IH]; simpl; intros Hnd Hin.
  - by apply elem_of_nil in Hin.
  - apply NoDup_cons in Hnd as [Hk Hnd]. apply elem_of_cons in Hin as [Heq|Hin].
    + injection Heq as -> ->. by rewrite decide_True.
    + destruct (decide (k = k')) as [->|]; [|auto].
      exfalso. apply Hk. apply list_elem_of_fmap. by exists (k', v).
Qed.

Lemma dict_set_keys_present k v d :
  k ∈ dict_keys d → dict_keys (dict_set k v d) = dict_keys d.
Proof.
  unfold dict_keys. induction d as [|[k' v'] d IH]; simpl; intros Hin.
  - by apply elem_of_nil in Hin.
  - destruct (decide (k = k')) as [->|Hne]; simpl; [done|].
    f_equal. apply IH. apply elem_of_cons in Hin as [?|?]; done.
Qed.

Lemma dict_set_absent k v d : k ∉ dict_keys d → dict_set k v d = d ++ [(k, v)].
Proof.
  unfold dict_keys. induction d as [|[k' v'] d IH]; simpl; intros Hin; [done|].
  apply not_elem_of_cons in Hin as [Hne Hin].
  rewrite decide_False by done. f_equal. auto.
Qed.

(** Overwriting a present key is a pointwise change of that entry. *)
Lemma dict_set_present k v d :
  NoDup (dict_keys d) → k ∈ dict_keys d →
  dict_set k v d = (λ e, if decide (e.1 = k) then (k, v) else e) <$> d.
Proof.
  unfold dict_keys. induction d as [|[k' v'] d IH]; simpl; intros Hnd Hin.
  - by apply elem_of_nil in Hin.
  - apply NoDup_cons in Hnd as [Hk Hnd].
    destruct (decide (k = k')) as [->|Hne].
    + rewrite decide_True by done. f_equal.
      symmetry. rewrite <- (list_fmap_id d) at 2. apply list_fmap_ext.
      intros i [k2 v2] Hl. simpl. rewrite decide_False; [done|].
      intros ->. apply Hk. apply list_elem_of_fmap. exists (k', v2).
      split; [done|]. by eapply list_elem_of_lookup_2.
    + rewrite (decide_False (P := k' = k)) by done. f_equal. apply IH; [done|].
      apply elem_of_cons in Hin as [?|?]; done.
Qed.

Lemma dict_get_set_eq k v d : dict_get k (dict_set k v d) = Some v.
Proof.
  induction d as [|[k' v'] d IH]; simpl.
  - by rewrite decide_True.
  - destruct (decide (k = k')) as [->|Hne]; simpl.
    + by rewrite decide_True.
    + by rewrite decide_False.
Qed.

Lemma dict_get_set_ne k k' v d : k ≠ k' → dict_get k' (dict_set k v d) = dict_get k' d.
Proof.
  intros Hne. induction d as [|[k2 v2] d IH]; simpl.
  - by rewrite decide_False.
  - destruct (decide (k = k2)) as [->|Hne2]; simpl.
    + by rewrite !decide_False.
    + destruct (decide (k' = k2)); [done | apply IH].
Qed.

Lemma dict_set_NoDup k v d : NoDup (dict_keys d) → NoDup (dict_keys (dict_set k v d)).
Proof.
  intros Hnd. destruct (decide (k ∈ dict_keys d)) as [Hin|Hin].
  - by rewrite dict_set_keys_present.
  - rewrite dict_set_absent by done. unfold dict_keys in *.
    rewrite fmap_app. simpl. apply NoDup_app. split; [done|]. split.
    + intros x Hx Hx'. apply list_elem_of_singleton in Hx'. by subst.
    + apply NoDup_singleton.
Qed.
End dict_facts.

(** ** Merge *)

Section merge_facts.
Variables (h : heap) (rule : MergeRule).
Implicit Types (self other base incoming : chunk_map).

Lemma merge_cons self item other :
  merge h self (item :: other) rule = merge h (merge_step h rule self item) other rule.
Proof. reflexivity. Qed.

Lemma merge_step_present self pos new_chunk current_chunk :
  NoDup (dict_keys self) → dict_get pos self = Some current_chunk →
  merge_step h rule self (pos, new_chunk)
  = resolved h rule [(pos, new_chunk)] <$> self.
Proof.
  intros Hnd Hget. unfold merge_step. rewrite Hget.
  assert (Hin : pos ∈ dict_keys self).
  { destruct (decide (pos ∈ dict_keys self)) as [|Hn]; [done|].
    apply dict_get_None in Hn. congruence. }
  assert (Hcur : ∀ i e, self !! i = Some e → e.1 = pos → e.2 = current_chunk).
  { intros i [k v] Hl Hk. simpl in *. subst k.
    apply list_elem_of_lookup_2, (elem_dict_get _ _ _ Hnd) in Hl. congruence. }
  destruct (is_allowed_to_merge _ _ _) eqn:Hrule.
  - rewrite dict_set_present by done. apply list_fmap_ext.
    intros i [k v] Hl. unfold resolved. simpl.
    destruct (decide (k = pos)) as [->|Hne].
    + pose proof (Hcur _ _ Hl eq_refl) as Hv. simpl in Hv. subst v. by rewrite Hrule.
    + done.
  - rewrite <- (list_fmap_id self) at 1. apply list_fmap_ext.
    intros i [k v] Hl. unfold resolved. simpl.
    destruct (decide (k = pos)) as [->|Hne]; [|done].
    pose proof (Hcur _ _ Hl eq_refl) as Hv. simpl in Hv. subst v. by rewrite Hrule.
Qed.

Lemma resolved_keys incoming self : dict_keys (resolved h rule incoming <$> self) = dict_keys self.
Proof.
  unfold dict_keys. rewrite <- list_fmap_compose. apply list_fmap_ext. by intros i [k v] _.
Qed.

Lemma resolved_absent incoming self :
  (∀ k, k ∈ dict_keys self → dict_get k incoming = None) →
  resolved h rule incoming <$> self = self.
Proof.
  intros Habs. rewrite <- (list_fmap_id self) at 2. apply list_fmap_ext.
  intros i [k v] Hl. unfold resolved. simpl. rewrite Habs; [done|].
  apply list_elem_of_fmap. exists (k, v). split; [done|]. by eapply list_elem_of_lookup_2.
Qed.

(** Two passes of [resolved] over disjoint key sets compose into one. *)
Lemma resolved_cons pos new_chunk other self :
  pos ∉ dict_keys other →
  resolved h rule other <$> (resolved h rule [(pos, new_chunk)] <$> self)
  = resolved h rule ((pos, new_chunk) :: other) <$> self.
Proof.
  intros Hfresh. rewrite <- list_fmap_compose. apply list_fmap_ext.
  intros i [k v] _. unfold resolved. simpl.
  destruct (decide (k = pos)) as [->|Hne]; [|done].
  apply dict_get_None in Hfresh. rewrite Hfresh. done.
Qed.

Lemma new_keys_ext (self self' other : chunk_map) :
  (∀ k, k ∈ dict_keys other → dict_get k self' = None ↔ dict_get k self = None) →
  filter (λ e, dict_get e.1 self' = None) other
  = filter (λ e, dict_get e.1 self = None) other.
Proof.
  intros Hext. induction other as [|[k v] other IH]; [done|].
  assert (dict_get k self' = None ↔ dict_get k self = None) as Hk.
  { apply Hext. unfold dict_keys. simpl. apply elem_of_cons. by left. }
  assert (Hrest : filter (λ e, dict_get e.1 self' = None) other
                  = filter (λ e, dict_get e.1 self = None) other).
  { apply IH. intros k' Hk'. apply Hext. unfold dict_keys in *. simpl.
    apply elem_of_cons. by right. }
  rewrite !filter_cons, Hrest. simpl.
  destruct (decide (dict_get k self' = None)), (decide (dict_get k self = None));
    tauto.
Qed.

(** [merge] computes [apply_incoming h rule]. *)
Lemma merge_apply_incoming self other :
  NoDup (dict_keys self) → NoDup (dict_keys other) →
  merge h self other rule = apply_incoming h rule self other.
Proof.
  revert self. induction other as [|[pos new_chunk] other IH]; intros self Hs Ho.
  - unfold apply_incoming. simpl. rewrite filter_nil, app_nil_r.
    symmetry. by apply resolved_absent.
  - unfold dict_keys in Ho. simpl in Ho. apply NoDup_cons in Ho as [Hfresh Ho].
    rewrite merge_cons.
    destruct (dict_get pos self) as [current_chunk|] eqn:Hget.
    + rewrite (merge_step_present _ _ _ _ Hs Hget).
      rewrite IH; [|by rewrite resolved_keys|done].
      unfold apply_incoming. rewrite resolved_cons by done. f_equal.
      rewrite filter_cons_False by (simpl; congruence).
      apply new_keys_ext. intros k _.
      rewrite !dict_get_None, resolved_keys. done.
    + unfold merge_step. rewrite Hget.
      assert (Hn : pos ∉ dict_keys self) by by apply dict_get_None.
      rewrite dict_set_absent by done.
      rewrite IH; [| |done].
      2:{ unfold dict_keys. rewrite fmap_app. apply NoDup_app. split; [done|].
          split; [|apply NoDup_singleton].
          intros x Hx Hx'. apply list_elem_of_singleton in Hx'. by subst. }
      unfold apply_incoming. rewrite fmap_app. simpl.
      rewrite filter_cons_True by done.
      rewrite <- app_assoc. simpl. f_equal.
      * apply list_fmap_ext. intros i [k v] Hl. unfold resolved. simpl.
        rewrite decide_False; [done|]. intros ->. apply Hn.
        apply list_elem_of_fmap. exists (pos, v). split; [done|].
        by eapply list_elem_of_lookup_2.
      * unfold resolved at 1. simpl.
        apply dict_get_None in Hfresh. rewrite Hfresh. f_equal.
        apply new_keys_ext. intros k Hk.
        rewrite !dict_get_None. unfold dict_keys. rewrite fmap_app. simpl.
        rewrite not_elem_of_app, list_elem_of_singleton.
        split; [tauto|]. intros ?. split; [done|]. intros ->.
        apply dict_get_None in Hfresh. done.
Qed.
End merge_facts.

Section merge_lookup.
Variables (h : heap) (rule : MergeRule).
Implicit Types (self other base incoming : chunk_map).

Lemma dict_get_app {V} (k : nat) (d1 d2 : dict nat V) :
  dict_get k (d1 ++ d2)
  = match dict_get k d1 with Some v => Some v | None => dict_get k d2 end.
Proof.
  induction d1 as [|[k' v'] d1 IH]; simpl; [done|].
  destruct (decide (k = k')); done.
Qed.

Lemma dict_get_resolved pos base incoming :
  dict_get pos (resolved h rule incoming <$> base)
  = (λ cur, (resolved h rule incoming (pos, cur)).2) <$> dict_get pos base.
Proof.
  induction base as [|[k v] base IH]; simpl; [done|].
  destruct (decide (pos = k)) as [->|]; done.
Qed.

Lemma dict_get_new_keys pos base incoming :
  dict_get pos base = None →
  dict_get pos (filter (λ e, dict_get e.1 base = None) incoming)
  = dict_get pos incoming.
Proof.
  intros Hb. induction incoming as [|[k v] incoming IH]; [done|].
  rewrite filter_cons. simpl. destruct (decide (pos = k)) as [->|Hne].
  - rewrite decide_True by done. simpl. by rewrite decide_True.
  - destruct (decide (dict_get k base = None)); simpl; [|done].
    by rewrite decide_False.
Qed.

Lemma merge_lookup base incoming pos :
  NoDup (dict_keys base) → NoDup (dict_keys incoming) →
  dict_get pos (merge h base incoming rule)
  = match dict_get pos base, dict_get pos incoming with
    | Some cur, Some new =>
        Some (if is_allowed_to_merge rule (deref h cur) (deref h new)
              then new else cur)
    | Some cur, None => Some cur
    | None, o => o
    end.
Proof.
  intros Hb Hi. rewrite merge_apply_incoming by done. unfold apply_incoming.
  rewrite dict_get_app, dict_get_resolved.
  destruct (dict_get pos base) as [cur|] eqn:Hg; simpl.
  - unfold resolved. simpl. by destruct (dict_get pos incoming).
  - by apply dict_get_new_keys.
Qed.

Lemma merge_keeps_places base incoming i pos cur :
  NoDup (dict_keys base) → NoDup (dict_keys incoming) →
  base !! i = Some (pos, cur) →
  merge h base incoming rule !! i = Some (resolved h rule incoming (pos, cur)).
Proof.
  intros Hb Hi Hl. rewrite merge_apply_incoming by done. unfold apply_incoming.
  rewrite lookup_app_l.
  - by rewrite list_lookup_fmap, Hl.
  - rewrite length_fmap. by eapply lookup_lt_Some.
Qed.
End merge_lookup.

(** C4: [merge] applies [incoming] on top of [base].  The merged container
    is [base]'s entries, each in its old place and holding incoming's chunk
    exactly when the key is also in [incoming] and the rule permits the
    replacement, followed by incoming's entries under keys new to [base], in
    incoming's order.  Read per key: a key only in [incoming] gets incoming's
    chunk, a key in both gets the chunk the rule picks, and a key only in
    [base] keeps its chunk. *)
Theorem merge_applies_incoming (h : heap) (rule : MergeRule) (base incoming : chunk_map) :
  NoDup (dict_keys base) → NoDup (dict_keys incoming) →
  let merged := merge h base incoming rule in
  merged = (resolved h rule incoming <$> base)
           ++ filter (λ e, dict_get e.1 base = None) incoming
  ∧ (∀ pos new, dict_get pos incoming = Some new → dict_get pos base = None →
       dict_get pos merged = Some new)
  ∧ (∀ pos cur new, dict_get pos base = Some cur → dict_get pos incoming = Some new →
       dict_get pos merged
       = Some (if is_allowed_to_merge rule (deref h cur) (deref h new) then new else cur))
  ∧ (∀ i pos cur, base !! i = Some (pos, cur) → ∃ r, merged !! i = Some (pos, r))
  ∧ (∀ pos cur, dict_get pos base = Some cur → dict_get pos incoming = None →
       dict_get pos merged = Some cur).
Proof.
  intros Hb Hi merged. subst merged. split; [by apply merge_apply_incoming|].
  split; [|split; [|split]].
  - intros pos new Hn Hc. rewrite merge_lookup by done. by rewrite Hc, Hn.
  - intros pos cur new Hc Hn. rewrite merge_lookup by done. by rewrite Hc, Hn.
  - intros i pos cur Hl. eexists. by apply merge_keeps_places.
  - intros pos cur Hc Hn. rewrite merge_lookup by done. by rewrite Hc, Hn.
Qed.

(** C7: under the newest-chunks rule a key present in both containers ends
    up holding incoming's chunk when incoming's timestamp is strictly
    greater, and base's chunk otherwise (so also on equal timestamps); the
    merged timestamp and payload are those of the chunk chosen. *)
Theorem newest_chunks_wins (h : heap) (base incoming : chunk_map) (pos : nat)
    (cur new : ref) :
  NoDup (dict_keys base) → NoDup (dict_keys incoming) →
  dict_get pos base = Some cur → dict_get pos incoming = Some new →
  ∃ r, dict_get pos (merge h base incoming MergeRuleNewestChunks) = Some r
     ∧ ((timestamp (deref h new) > timestamp (deref h cur))%Z →
          r = new ∧ timestamp (deref h r) = timestamp (deref h new)
                  ∧ chunk_data (deref h r) = chunk_data (deref h new))
     ∧ ((timestamp (deref h new) ≤ timestamp (deref h cur))%Z →
          r = cur ∧ timestamp (deref h r) = timestamp (deref h cur)
                  ∧ chunk_data (deref h r) = chunk_data (deref h cur))
     ∧ (cur ≠ new → (r = new ↔ (timestamp (deref h new) > timestamp (deref h cur))%Z)).
Proof.
  intros Hb Hi Hc Hn. rewrite merge_lookup by done. rewrite Hc, Hn. simpl.
  destruct (Z.gtb_spec (timestamp (deref h new)) (timestamp (deref h cur))) as [Hgt|Hle].
  - exists new. split; [done|]. split; [done|]. split; [lia|]. intros _. split; [lia|done].
  - exists cur. split; [done|]. split; [lia|]. split; [done|]. intros Hne.
    split; [congruence|lia].
Qed.

(** ** Compaction *)

Section compaction.
Implicit Types (h : heap) (rs : list ref) (r : ref) (a : Z).
Local Open Scope Z_scope.

Lemma same_content_refl c : same_content c c.
Proof. by repeat split. Qed.

Lemma same_content_trans c1 c2 c3 :
  same_content c1 c2 → same_content c2 c3 → same_content c1 c3.
Proof. unfold same_content. intros (-> & -> & ->) (-> & -> & ->). done. Qed.

Lemma set_chunk_location_other r r' v h :
  r ≠ r' → deref (set_chunk_location r v h) r' = deref h r'.
Proof. intros Hne. unfold set_chunk_location, deref. by apply list_lookup_total_insert_ne. Qed.

Lemma set_chunk_location_same r v h :
  (r < length h)%nat →
  deref (set_chunk_location r v h) r
  = mkChunk (timestamp (deref h r)) v (size (deref h r)) (chunk_data (deref h r)).
Proof. intros Hlt. unfold set_chunk_location, deref. by apply list_lookup_total_insert_eq. Qed.

Lemma set_chunk_location_content r r' v h :
  same_content (deref (set_chunk_location r v h) r') (deref h r').
Proof.
  destruct (decide (r = r')) as [<-|Hne].
  - destruct (decide (r < length h)%nat) as [Hlt|Hge].
    + rewrite set_chunk_location_same by done. by repeat split.
    + unfold set_chunk_location. rewrite list_insert_ge by lia. apply same_content_refl.
  - rewrite set_chunk_location_other by done. apply same_content_refl.
Qed.

Lemma set_chunk_location_length r v h : length (set_chunk_location r v h) = length h.
Proof. apply length_insert. Qed.

Lemma sectors_app h rs1 rs2 : sectors h (rs1 ++ rs2) = sectors h rs1 + sectors h rs2.
Proof. induction rs1 as [|r rs1 IH]; simpl; [done|]. rewrite IH. lia. Qed.

Lemma sectors_ext h h' rs :
  (∀ r, r ∈ rs → size (deref h' r) = size (deref h r)) → sectors h' rs = sectors h rs.
Proof.
  induction rs as [|r rs IH]; simpl; intros Hext; [done|].
  rewrite Hext by (apply elem_of_cons; by left).
  rewrite IH; [done|]. intros r' Hr'. apply Hext. apply elem_of_cons. by right.
Qed.

Lemma sectors_nonneg h rs :
  (∀ r, r ∈ rs → 0 ≤ size (deref h r)) → 0 ≤ sectors h rs.
Proof.
  induction rs as [|r rs IH]; simpl; intros Hs; [done|].
  assert (0 ≤ size (deref h r)) by (apply Hs, elem_of_cons; by left).
  assert (0 ≤ sectors h rs); [|lia].
  apply IH. intros r' Hr'. apply Hs, elem_of_cons. by right.
Qed.

Lemma sectors_take_S h rs i r :
  rs !! i = Some r → sectors h (take (S i) rs) = sectors h (take i rs) + size (deref h r).
Proof.
  intros Hl. erewrite take_S_r by done. rewrite sectors_app. simpl. lia.
Qed.

Lemma sectors_take_le h rs i j :
  (∀ r, r ∈ rs → 0 ≤ size (deref h r)) → (i ≤ j)%nat →
  sectors h (take i rs) ≤ sectors h (take j rs).
Proof.
  intros Hs Hij. replace j with (i + (j - i))%nat by lia.
  rewrite <- take_take_drop, sectors_app.
  assert (0 ≤ sectors h (take (j - i) (drop i rs))); [|lia].
  apply sectors_nonneg. intros r Hr. apply Hs.
  by apply (subseteq_drop i rs), (subseteq_take (j - i)).
Qed.

Lemma walk_cons a h r rs :
  walk a h (r :: rs)
  = walk (a + size (deref (set_chunk_location r a h) r))
         (set_chunk_location r a h) rs.
Proof. reflexivity. Qed.

Lemma walk_content rs : ∀ a h r, same_content (deref (walk a h rs).2 r) (deref h r).
Proof.
  induction rs as [|r0 rs IH]; intros a h r.
  - apply same_content_refl.
  - rewrite walk_cons. eapply same_content_trans; [apply IH|].
    apply set_chunk_location_content.
Qed.

Lemma walk_length rs : ∀ a h, length (walk a h rs).2 = length h.
Proof.
  induction rs as [|r0 rs IH]; intros a h; [done|].
  rewrite walk_cons, IH. apply set_chunk_location_length.
Qed.

Lemma walk_other rs : ∀ a h r, r ∉ rs → deref (walk a h rs).2 r = deref h r.
Proof.
  induction rs as [|r0 rs IH]; intros a h r Hr; [done|].
  apply not_elem_of_cons in Hr as [Hne Hr].
  rewrite walk_cons, IH by done. by apply set_chunk_location_other.
Qed.

Lemma walk_location rs : ∀ a h i r,
  NoDup rs → (∀ r, r ∈ rs → (r < length h)%nat) → rs !! i = Some r →
  location (deref (walk a h rs).2 r) = a + sectors h (take i rs).
Proof.
  induction rs as [|r0 rs IH]; intros a h i r Hnd Hlt Hl; [done|].
  apply NoDup_cons in Hnd as [Hr0 Hnd]. rewrite walk_cons.
  assert (Hsz : ∀ r', size (deref (set_chunk_location r0 a h) r') = size (deref h r')).
  { intros r'. apply set_chunk_location_content. }
  destruct i as [|i]; simpl in Hl.
  - injection Hl as ->. rewrite walk_other by done.
    rewrite set_chunk_location_same; [simpl; lia|].
    apply Hlt, elem_of_cons. by left.
  - rewrite (IH _ _ i r); [|done| |done].
    + simpl. rewrite Hsz. rewrite (sectors_ext h); [lia|]. intros; apply Hsz.
    + intros r' Hr'. rewrite set_chunk_location_length. apply Hlt, elem_of_cons. by right.
Qed.
End compaction.

Lemma encode_heap (m : chunk_map) (h h' : heap) (out : list Z) :
  encode m h = Ok (h', out) → h' = update_chunk_locations m h.
Proof.
  unfold encode. destruct (for_each _ _ _) as [st|]; simpl; [|done].
  destruct (join _ _ _ _); simpl; [|done]. by intros [= <- _].
Qed.

(** ** What encode does to the chunks *)

(** Closes [lhs = rhs] by evaluating both sides. *)
Ltac by_evaluation :=
  match goal with
  | |- _ = ?rhs => vm_cast_no_check (@eq_refl _ rhs)
  end.

(** C5: [encode] always renumbers: its heap is the one
    [update_chunk_locations] leaves, whatever the offsets were.  For a
    container of distinct live chunks with at least one sector each, the
    chunk at place [i] of the iteration order gets offset 2 plus the sector
    counts of the chunks before it and is otherwise unchanged; so every
    offset is at least 2, each chunk starts where the previous one ends, and
    a later chunk never starts before an earlier one has ended. *)
Theorem compaction_packs (m : chunk_map) (h : heap) :
  NoDup (dict_values m) →
  (∀ r, r ∈ dict_values m → r < length h) →
  (∀ r, r ∈ dict_values m → (1 ≤ size (deref h r))%Z) →
  let h' := update_chunk_locations m h in
  (∀ h'' out, encode m h = Ok (h'', out) → h'' = h')
  ∧ (∀ i pos r, m !! i = Some (pos, r) →
       location (deref h' r) = (2 + sectors h (take i (dict_values m)))%Z
       ∧ same_content (deref h' r) (deref h r)
       ∧ (2 ≤ location (deref h' r))%Z)
  ∧ (∀ i pos r pos' r', m !! i = Some (pos, r) → m !! S i = Some (pos', r') →
       location (deref h' r') = (location (deref h' r) + size (deref h' r))%Z)
  ∧ (∀ i j pos r pos' r', i < j → m !! i = Some (pos, r) → m !! j = Some (pos', r') →
       (location (deref h' r) + size (deref h' r) ≤ location (deref h' r'))%Z).
Proof.
  intros Hnd Hlive Hsize h'.
  assert (Hnn : ∀ r, r ∈ dict_values m → (0 ≤ size (deref h r))%Z).
  { intros r Hr. specialize (Hsize r Hr). lia. }
  assert (Hval : ∀ i pos r, m !! i = Some (pos, r) → dict_values m !! i = Some r).
  { intros i pos r Hl. unfold dict_values. by rewrite list_lookup_fmap, Hl. }
  assert (Hloc : ∀ i pos r, m !! i = Some (pos, r) →
            location (deref h' r) = (2 + sectors h (take i (dict_values m)))%Z).
  { intros i pos r Hl. subst h'. unfold update_chunk_locations.
    apply (walk_location (dict_values m) 2 h i r); eauto. }
  assert (Hsame : ∀ r, same_content (deref h' r) (deref h r)).
  { intros r. apply (walk_content (dict_values m) 2 h r). }
  split; [intros h'' out; apply encode_heap|].
  split; [|split].
  - intros i pos r Hl. split; [eauto|]. split; [done|].
    rewrite (Hloc _ _ _ Hl).
    pose proof (sectors_nonneg h (take i (dict_values m))) as Hs.
    assert (0 ≤ sectors h (take i (dict_values m)))%Z; [|lia].
    apply Hs. intros r' Hr'. apply Hnn. by apply (subseteq_take i).
  - intros i pos r pos' r' Hl Hl'.
    rewrite (Hloc _ _ _ Hl), (Hloc _ _ _ Hl').
    rewrite (sectors_take_S h _ i r) by eauto.
    destruct (Hsame r) as (_ & -> & _). lia.
  - intros i j pos r pos' r' Hij Hl Hl'.
    rewrite (Hloc _ _ _ Hl), (Hloc _ _ _ Hl').
    destruct (Hsame r) as (_ & -> & _).
    pose proof (sectors_take_le h (dict_values m) (S i) j Hnn ltac:(lia)) as Hle.
    rewrite (sectors_take_S h _ i r) in Hle by eauto. lia.
Qed.

Lemma compaction_packs_witness :
  let h' := update_chunk_locations (merge scenario_heap scenario_base scenario_incoming
                                          MergeRuleNewestChunks) scenario_heap in
  location (deref h' 1) = 2%Z ∧ location (deref h' 2) = 4%Z.
Proof.
  pose proof (compaction_packs
    (merge scenario_heap scenario_base scenario_incoming MergeRuleNewestChunks)
    scenario_heap) as H.
  assert (Hm : merge scenario_heap scenario_base scenario_incoming MergeRuleNewestChunks
               = [(20, 1); (36, 2)]) by reflexivity.
  rewrite Hm in *.
  destruct H as (_ & Hloc & _).
  - unfold dict_values. simpl. apply NoDup_cons. split; [|apply NoDup_singleton].
    intros Hin%list_elem_of_singleton. discriminate.
  - unfold dict_values. simpl. intros r Hr.
    apply elem_of_cons in Hr as [->|Hr]; [simpl; lia|].
    apply list_elem_of_singleton in Hr as ->. simpl; lia.
  - unfold dict_values. simpl. intros r Hr.
    apply elem_of_cons in Hr as [->|Hr]; [vm_compute; discriminate|].
    apply list_elem_of_singleton in Hr as ->. vm_compute; discriminate.
  - split.
    + destruct (Hloc 0 20 1 eq_refl) as (-> & _). reflexivity.
    + destruct (Hloc 1 36 2 eq_refl) as (-> & _). reflexivity.
Defined.

(** C8, as stated, fails: a chunk that [merge] moved into the target is the
    very object the source container holds, and the encode that follows
    writes its new offset into it. *)
Lemma incoming_offset_changes :
  let merged := merge disjoint_heap disjoint_base disjoint_incoming MergeRuleNewestChunks in
  let h' := update_chunk_locations merged disjoint_heap in
  dict_get 36 disjoint_incoming = Some 1
  ∧ is_ok (encode merged disjoint_heap) = true
  ∧ location (deref disjoint_heap 1) = 2%Z
  ∧ location (deref h' 1) = 3%Z.
Proof. split; [by_evaluation|]. split; [by_evaluation|]. split; by_evaluation. Qed.

(** C8, amended: [merge] itself writes to no chunk and not to incoming's
    map (it only reads the heap), and the following encode leaves the heap
    [update_chunk_locations] produces; there every chunk of [incoming] has
    its timestamp, sector count and payload as before, and also its offset
    unless the merged container holds that chunk. *)
Theorem incoming_content_survives (h : heap) (base incoming : chunk_map) (rule : MergeRule) :
  let merged := merge h base incoming rule in
  let h' := update_chunk_locations merged h in
  (∀ h'' out, encode merged h = Ok (h'', out) → h'' = h')
  ∧ (∀ pos r, dict_get pos incoming = Some r →
       same_content (deref h' r) (deref h r)
       ∧ (r ∉ dict_values merged → deref h' r = deref h r)).
Proof.
  intros merged h'. split; [intros h'' out; apply encode_heap|].
  intros pos r _. split.
  - apply (walk_content (dict_values merged) 2 h r).
  - apply (walk_other (dict_values merged) 2 h r).
Qed.

Lemma incoming_content_survives_witness :
  let merged := merge disjoint_heap disjoint_base disjoint_incoming MergeRuleNewestChunks in
  same_content (deref (update_chunk_locations merged disjoint_heap) 1)
               (deref disjoint_heap 1).
Proof.
  exact (proj1 (proj2 (incoming_content_survives disjoint_heap disjoint_base
                         disjoint_incoming MergeRuleNewestChunks) 36 1 eq_refl)).
Defined.

Lemma scenario_keys :
  NoDup (dict_keys scenario_base) ∧ NoDup (dict_keys scenario_incoming).
Proof.
  split.
  - apply NoDup_singleton.
  - unfold dict_keys. simpl. apply NoDup_cons. split; [|apply NoDup_singleton].
    intros Hin%list_elem_of_singleton. discriminate.
Qed.

Lemma merge_applies_incoming_witness :
  dict_get 36 (merge scenario_heap scenario_base scenario_incoming MergeRuleNever) = Some 2
  ∧ dict_get 20 (merge scenario_heap scenario_base scenario_incoming MergeRuleNever) = Some 0.
Proof.
  destruct (merge_applies_incoming scenario_heap MergeRuleNever scenario_base
              scenario_incoming (proj1 scenario_keys) (proj2 scenario_keys))
    as (_ & Hnew & Hboth & _).
  split.
  - apply (Hnew 36 2); reflexivity.
  - apply (Hboth 20 0 1); reflexivity.
Defined.

Lemma newest_chunks_wins_witness :
  ∃ r, dict_get 20 (merge scenario_heap scenario_base scenario_incoming
                      MergeRuleNewestChunks) = Some r
     ∧ (r = 1 ↔ (timestamp (deref scenario_heap 1) > timestamp (deref scenario_heap 0))%Z).
Proof.
  destruct (newest_chunks_wins scenario_heap scenario_base scenario_incoming 20 0 1
              (proj1 scenario_keys) (proj2 scenario_keys) eq_refl eq_refl)
    as (r & Hget & _ & _ & Hiff).
  exists r. split; [exact Hget|]. apply Hiff. discriminate.
Defined.

(** ** The glue: pairing files and asking for confirmation *)

Section glue.
Import RegionFinder.

Lemma py_str_not_in_tuples (name : string) (f1 : list entry) :
  list_contains (PyStr name) ((λ t : entry, PyTuple3 t.1.1 t.1.2 t.2) <$> f1) = false.
Proof. induction f1 as [|t f1 IH]; [done|]. simpl. exact IH. Qed.

Lemma pair_files_from world1_dim_path f1 f2 : ∀ to_copy to_merge,
  for_each (pair_step world1_dim_path f1) f2 (to_copy, to_merge)
  = Ok (to_copy ++ copies_of world1_dim_path f2, to_merge).
Proof.
  induction f2 as [|[[name from] third] f2 IH]; intros to_copy to_merge; simpl.
  - by rewrite app_nil_r.
  - rewrite py_str_not_in_tuples. simpl. rewrite IH. by rewrite <- app_assoc.
Qed.

Lemma pair_files_all_copies world1_dim_path f1 f2 :
  pair_files world1_dim_path f1 f2 = Ok (copies_of world1_dim_path f2, []).
Proof. unfold pair_files. by rewrite pair_files_from. Qed.

Lemma lower_ascii_y (c : ascii) :
  lower_ascii c = "y"%char ↔ c = "y"%char ∨ c = "Y"%char.
Proof.
  destruct c as [[] [] [] [] [] [] [] []]; vm_compute;
    (split; [intros [=]|intros [[=]|[=]]]); auto.
Qed.

Lemma lower_y (s : string) : lower s = "y" ↔ s = "y" ∨ s = "Y".
Proof.
  destruct s as [|c s]; simpl.
  - split; [intros [=]|intros [[=]|[=]]].
  - split.
    + intros [= Hc Hs]. destruct s; [|discriminate].
      apply lower_ascii_y in Hc as [->| ->]; auto.
    + intros [[= -> ->]|[= -> ->]]; reflexivity.
Qed.
End glue.

(** C10: once a dimension has something to copy or merge, [merge_dimension]
    runs [copy] and [merge] exactly when the lowercased answer is "y", that
    is for "y" and "Y" only; on any other answer, the empty one included,
    the files are left as they were. *)
Theorem only_y_confirms (world1 world2 : string) (walk : RegionFinder.walker)
    (dimension : string) (rule : MergeRule) (user_input : string)
    (fs : gmap string (list Z)) (f1 f2 : list RegionFinder.entry)
    (to_copy to_merge : list FilePair) :
  let world1_dim_path := path_join world1 [dimension; RegionFinder.region_path] in
  let world2_dim_path := path_join world2 [dimension; RegionFinder.region_path] in
  RegionFinder.list_mca_files world1 walk fs world1_dim_path = Ok f1 →
  RegionFinder.list_mca_files world1 walk fs world2_dim_path = Ok f2 →
  RegionFinder.pair_files world1_dim_path f1 f2 = Ok (to_copy, to_merge) →
  to_copy ≠ [] ∨ to_merge ≠ [] →
  RegionFinder.merge_dimension world1 world2 walk dimension rule user_input fs
  = Ok (if bool_decide (lower user_input = "y")
        then RegionFinder.merge to_merge rule (RegionFinder.copy to_copy fs)
        else fs)
  ∧ (lower user_input = "y" ↔ user_input = "y" ∨ user_input = "Y")
  ∧ (user_input = "" →
       RegionFinder.merge_dimension world1 world2 walk dimension rule user_input fs
       = Ok fs).
Proof.
  intros d1 d2 H1 H2 Hp Hne.
  assert (Hrun : RegionFinder.merge_dimension world1 world2 walk dimension rule user_input fs
                 = Ok (if bool_decide (lower user_input = "y")
                       then RegionFinder.merge to_merge rule (RegionFinder.copy to_copy fs)
                       else fs)).
  { unfold RegionFinder.merge_dimension. fold d1 d2. rewrite H1, H2. simpl.
    rewrite Hp. simpl. f_equal. unfold RegionFinder.confirm_and_run.
    destruct to_copy, to_merge; try done. by destruct Hne. }
  split; [done|]. split; [apply lower_y|].
  intros ->. rewrite Hrun. reflexivity.
Qed.

Lemma only_y_confirms_witness :
  RegionFinder.merge_dimension "w1" "w2" two_worlds_walk "" MergeRuleNewestChunks "" two_worlds_fs
  = Ok two_worlds_fs.
Proof.
  refine (proj2 (proj2 (only_y_confirms "w1" "w2" two_worlds_walk "" MergeRuleNewestChunks ""
            two_worlds_fs
            [("r.0.0.mca", "w1/region/r.0.0.mca", "w1/w1/region/r.0.0.mca")]
            [("r.0.0.mca", "w2/region/r.0.0.mca", "w1/w2/region/r.0.0.mca")]
            [mkFilePair "w2/region/r.0.0.mca" "w1/region/r.0.0.mca"] [] _ _ _ _)) eq_refl).
  - by_evaluation.
  - by_evaluation.
  - by_evaluation.
  - left. discriminate.
Defined.

(** C1 fails on the code: the target listing is a list of tuples, so the
    test [name in f1] compares a name with tuples and is never true.  Every
    source file becomes a copy candidate and nothing is ever merged; with
    r.0.0.mca in both worlds and the answer "y", the target file ends up
    being the source file, byte for byte, although the target's chunk was
    the newer one and a merge would have kept it. *)
Theorem same_name_file_is_copied :
  (∀ world1_dim_path f1 f2,
     RegionFinder.pair_files world1_dim_path f1 f2
     = Ok (copies_of world1_dim_path f2, []))
  ∧ RegionFinder.list_mca_files "w1" two_worlds_walk two_worlds_fs "w1/region"
    = Ok [("r.0.0.mca", "w1/region/r.0.0.mca", "w1/w1/region/r.0.0.mca")]
  ∧ RegionFinder.list_mca_files "w1" two_worlds_walk two_worlds_fs "w2/region"
    = Ok [("r.0.0.mca", "w2/region/r.0.0.mca", "w1/w2/region/r.0.0.mca")]
  ∧ exc_map (λ fs' : gmap string (list Z), fs' !! "w1/region/r.0.0.mca")
       (RegionFinder.merge_dimension "w1" "w2" two_worlds_walk "" MergeRuleNewestChunks "y"
          two_worlds_fs)
    = Ok (Some (region_with_slot0 50 9))
  ∧ exc_map (λ fs' : gmap string (list Z), fs' !! "w1/region/r.0.0.mca")
       (RegionFinder.merge_pair MergeRuleNewestChunks two_worlds_fs
          (mkFilePair "w2/region/r.0.0.mca" "w1/region/r.0.0.mca"))
    = Ok (Some (region_with_slot0 100 7)).
Proof.
  split; [apply pair_files_all_copies|].
  split; [by_evaluation|]. split; [by_evaluation|]. split; by_evaluation.
Qed.

(** ** Loops and slices *)

Section loops.
Context {S X : Type}.
Implicit Types (body : S → X → exc S) (xs : list X).

Lemma for_each_app body xs ys st :
  for_each body (xs ++ ys) st = bind (for_each body xs st) (for_each body ys).
Proof.
  revert st. induction xs as [|x xs IH]; intros st; simpl; [done|].
  destruct (body st x); simpl; [apply IH | done].
Qed.

(** A loop whose every iteration succeeds runs to the end. *)
Lemma for_each_ok body xs st :
  (∀ x st, x ∈ xs → ∃ st', body st x = Ok st') →
  ∃ st', for_each body xs st = Ok st'.
Proof.
  revert st. induction xs as [|x xs IH]; intros st Hok; simpl; [by eexists|].
  destruct (Hok x st) as [st' ->]; [apply elem_of_cons; by left|]. simpl.
  apply IH. intros x' st'' Hx'. apply Hok, elem_of_cons. by right.
Qed.

(** A loop that can only raise [e], and has an iteration that always
    does, raises [e]. *)
Lemma for_each_raise body xs st e x :
  x ∈ xs → (∀ st, body st x = Raise e) →
  (∀ x st, x ∈ xs → body st x = Raise e ∨ ∃ st', body st x = Ok st') →
  for_each body xs st = Raise e.
Proof.
  intros Hx Hbad. revert st. induction xs as [|y xs IH]; intros st Hall.
  - by apply elem_of_nil in Hx.
  - simpl. destruct (Hall y st) as [->|[st' Hst']]; [apply elem_of_cons; by left|done|].
    apply elem_of_cons in Hx as [->|Hx]; [by rewrite Hbad in Hst'|].
    rewrite Hst'. simpl. apply IH; [done|].
    intros x' st'' Hx'. apply Hall, elem_of_cons. by right.
Qed.

(** An invariant kept by every iteration holds at the end. *)
Lemma for_each_invariant (P : S → Prop) body xs st st' :
  (∀ x st st', x ∈ xs → P st → body st x = Ok st' → P st') →
  P st → for_each body xs st = Ok st' → P st'.
Proof.
  revert st. induction xs as [|x xs IH]; intros st Hstep HP; simpl.
  - by intros [= <-].
  - destruct (body st x) as [st1|] eqn:Hb; simpl; [|done].
    apply IH.
    + intros x' s1 s2 Hx'. apply Hstep, elem_of_cons. by right.
    + eapply Hstep; [|done|done]. apply elem_of_cons. by left.
Qed.
End loops.

Section slices.
Context {A : Type}.
Implicit Types (l data : list A).
Local Open Scope Z_scope.

Lemma len_nonneg l : 0 ≤ len l.
Proof. unfold len. lia. Qed.

Lemma len_app l1 l2 : len (l1 ++ l2) = len l1 + len l2.
Proof. unfold len. rewrite length_app. lia. Qed.

Lemma len_slice l a b :
  0 ≤ a → a ≤ b → len (slice l a b) = Z.min b (len l) - Z.min a (len l).
Proof.
  intros Ha Hab. unfold slice, clamp.
  destruct (Z.ltb_spec a 0), (Z.ltb_spec b 0); try lia.
  unfold len at 1. rewrite length_take, length_drop. unfold len. lia.
Qed.

Lemma slice_prefix l a b :
  0 ≤ a → a ≤ b → b ≤ len l →
  slice l a b = take (Z.to_nat (b - a)) (drop (Z.to_nat a) l).
Proof.
  intros Ha Hab Hb. unfold slice, clamp.
  destruct (Z.ltb_spec a 0), (Z.ltb_spec b 0); try lia.
  by rewrite !Z.min_l by lia.
Qed.

(** Overwriting a range that lies inside the array with as many items. *)
Lemma slice_assign_inside l a data :
  0 ≤ a → a + len data ≤ len l →
  slice_assign l a (a + len data) data
  = take (Z.to_nat a) l ++ data ++ drop (Z.to_nat (a + len data)) l.
Proof.
  intros Ha Hb. pose proof (len_nonneg data). unfold slice_assign, clamp.
  destruct (Z.ltb_spec a 0), (Z.ltb_spec (a + len data) 0); try lia.
  rewrite !Z.min_l by lia. by rewrite Z.max_r by lia.
Qed.
End slices.

Lemma elem_of_range_step4 (i stop : nat) :
  i ∈ range_step stop 4 ↔ i < stop ∧ ∃ k, i = k * 4.
Proof.
  unfold range_step. rewrite list_elem_of_fmap. split.
  - intros (k & -> & Hk). apply elem_of_seq in Hk. split; [|by exists k].
    assert (k < (stop + 4 - 1) / 4) as Hlt by lia.
    pose proof (Nat.div_mod_eq (stop + 4 - 1) 4) as Hdm.
    pose proof (Nat.mod_upper_bound (stop + 4 - 1) 4 ltac:(lia)). lia.
  - intros (Hlt & k & ->). exists k. split; [done|]. apply elem_of_seq.
    split; [lia|].
    pose proof (Nat.div_mod_eq (stop + 4 - 1) 4) as Hdm.
    pose proof (Nat.mod_upper_bound (stop + 4 - 1) 4 ltac:(lia)). lia.
Qed.

(** ** Decoding: which buffers are accepted *)

Section decode_errors.
Implicit Types (arr locations timestamps chunk_data_array : list Z).

Lemma bytes_to_int_loop_ok n : ∀ arr start end_ res,
  start + n ≤ length arr → ∃ v, bytes_to_int_loop n arr start end_ res = Ok v.
Proof.
  induction n as [|n IH]; intros arr start end_ res Hlen; simpl; [by eexists|].
  unfold getitem. destruct (lookup_lt_is_Some_2 arr start ltac:(lia)) as [b ->].
  simpl. apply IH. lia.
Qed.

Lemma bytes_to_int_loop_raise n : ∀ arr start end_ res,
  0 < n → length arr < start + n →
  bytes_to_int_loop n arr start end_ res = Raise IndexError.
Proof.
  induction n as [|n IH]; intros arr start end_ res Hn Hlen; simpl; [lia|].
  unfold getitem. destruct (arr !! start) as [b|] eqn:Hl; simpl; [|done].
  apply lookup_lt_Some in Hl. apply IH; lia.
Qed.

Lemma bytes_to_int_ok arr start k :
  start + k < length arr → ∃ v, bytes_to_int arr start (start + k) = Ok v.
Proof. intros Hlen. apply bytes_to_int_loop_ok. lia. Qed.

Lemma bytes_to_int_raise arr start k :
  length arr ≤ start + k → bytes_to_int arr start (start + k) = Raise IndexError.
Proof. intros Hlen. apply bytes_to_int_loop_raise; lia. Qed.

Lemma read_step_ok locations timestamps chunk_data_array st i :
  i + 3 < length locations → i + 3 < length timestamps →
  ∃ st', read_step locations timestamps chunk_data_array st i = Ok st'.
Proof.
  intros Hl Ht. destruct st as [m h]. unfold read_step.
  destruct (bytes_to_int_ok timestamps i 3 Ht) as [ts ->].
  destruct (bytes_to_int_ok locations i 2 ltac:(lia)) as [loc ->]. simpl.
  unfold getitem. destruct (lookup_lt_is_Some_2 locations (i + 3) Hl) as [b ->].
  simpl. destruct (Z.land b 255 =? 0)%Z; by eexists.
Qed.

Lemma read_step_raise locations timestamps chunk_data_array st i :
  length timestamps ≤ i + 3 →
  read_step locations timestamps chunk_data_array st i = Raise IndexError.
Proof.
  intros Ht. destruct st as [m h]. unfold read_step.
  by rewrite (bytes_to_int_raise timestamps i 3 Ht).
Qed.

Lemma read_step_cases locations timestamps chunk_data_array st i :
  read_step locations timestamps chunk_data_array st i = Raise IndexError
  ∨ ∃ st', read_step locations timestamps chunk_data_array st i = Ok st'.
Proof.
  destruct (decide (i + 3 < length timestamps)) as [Ht|Ht];
    [|left; apply read_step_raise; lia].
  destruct (decide (i + 3 < length locations)) as [Hl|Hl];
    [right; by apply read_step_ok|].
  left. destruct st as [m h]. unfold read_step.
  destruct (bytes_to_int_ok timestamps i 3 Ht) as [ts ->]. simpl.
  destruct (decide (i + 2 < length locations)) as [Hl2|Hl2].
  - destruct (bytes_to_int_ok locations i 2 Hl2) as [loc ->]. simpl.
    unfold getitem. rewrite lookup_ge_None_2 by lia. done.
  - rewrite (bytes_to_int_raise locations i 2) by lia. done.
Qed.
End decode_errors.

Lemma decode_short (bytes_data : list Z) (h : heap) :
  (0 < len bytes_data < 8192)%Z → decode bytes_data h = Raise IndexError.
Proof.
  pose proof (len_slice bytes_data 0 sector_size ltac:(lia) ltac:(unfold sector_size; lia)) as HL.
  pose proof (len_slice bytes_data sector_size (sector_size * 2)
                ltac:(unfold sector_size; lia) ltac:(unfold sector_size; lia)) as HT.
  unfold sector_size in HL, HT. unfold len in HL, HT.
  intros Hlen. unfold decode, sector_size. unfold len in Hlen.
  set (locations := slice bytes_data 0 4096) in *.
  set (timestamps := slice bytes_data 4096 (4096 * 2)) in *.
  assert (length timestamps < length locations) as Hlt by lia.
  pose proof (Nat.div_mod_eq (length timestamps) 4) as Hdm.
  pose proof (Nat.mod_upper_bound (length timestamps) 4 ltac:(lia)) as Hmod.
  apply (for_each_raise _ _ _ _ (length timestamps / 4 * 4)).
  - apply elem_of_range_step4. split; [lia|by eexists].
  - intros st. apply read_step_raise. lia.
  - intros x st _. apply read_step_cases.
Qed.

Lemma decode_nil (h : heap) : decode [] h = Ok ([], h).
Proof. reflexivity. Qed.

Lemma decode_long (bytes_data : list Z) (h : heap) :
  (8192 ≤ len bytes_data)%Z → ∃ m h', decode bytes_data h = Ok (m, h').
Proof.
  pose proof (len_slice bytes_data 0 sector_size ltac:(lia) ltac:(unfold sector_size; lia)) as HL.
  pose proof (len_slice bytes_data sector_size (sector_size * 2)
                ltac:(unfold sector_size; lia) ltac:(unfold sector_size; lia)) as HT.
  unfold sector_size in HL, HT. unfold len in HL, HT.
  intros Hlen. unfold decode, sector_size. unfold len in Hlen.
  set (locations := slice bytes_data 0 4096) in *.
  set (timestamps := slice bytes_data 4096 (4096 * 2)) in *.
  destruct (for_each_ok (read_step locations timestamps
              (slice_from bytes_data (4096 * 2))) (range_step (length locations) 4) ([], h))
    as [[m h'] Hok]; [|by exists m, h'].
  intros i st Hi. apply elem_of_range_step4 in Hi as (Hi & k & ->).
  apply read_step_ok; lia.
Qed.

(** C2, as stated, fails on the empty buffer: the loop over the location
    table has nothing to visit and [decode] returns an empty container. *)
Lemma empty_buffer_decodes :
  (len (@nil Z) < 8192)%Z ∧ decode [] [] = Ok ([], []).
Proof. split; reflexivity. Qed.

(** C2, amended: a buffer of 1 to 8191 bytes is rejected with [IndexError];
    the empty buffer decodes to the empty container; every buffer of at least
    8192 bytes decodes, whatever its table entries say. *)
Theorem decode_accepts (bytes_data : list Z) (h : heap) :
  ((0 < len bytes_data < 8192)%Z → decode bytes_data h = Raise IndexError)
  ∧ (bytes_data = [] → decode bytes_data h = Ok ([], h))
  ∧ ((8192 ≤ len bytes_data)%Z → ∃ m h', decode bytes_data h = Ok (m, h')).
Proof.
  split; [apply decode_short|]. split; [|apply decode_long].
  intros ->. apply decode_nil.
Qed.

Lemma decode_accepts_witness :
  decode (replicate 5 0%Z) [] = Raise IndexError.
Proof.
  refine (proj1 (decode_accepts (replicate 5 0%Z) []) _). vm_compute. split; reflexivity.
Defined.

(** ** Decoding: what the container holds *)

Lemma for_each_cons {S X} (body : S → X → exc S) x xs st :
  for_each body (x :: xs) st = bind (body st x) (for_each body xs).
Proof. reflexivity. Qed.

Section decode_content.
Implicit Types (arr locations timestamps chunk_data_array : list Z).

Lemma lookup_total_Some arr i : i < length arr → arr !! i = Some (arr !!! i).
Proof. intros Hlt. by apply list_lookup_lookup_total_lt. Qed.

Lemma bytes_to_int_3 arr i :
  i + 2 < length arr →
  bytes_to_int arr i (i + 2)
  = Ok (be24 (arr !!! i) (arr !!! (i + 1)) (arr !!! (i + 2))).
Proof.
  intros Hlen. unfold bytes_to_int. replace (S (i + 2) - i) with 3 by lia.
  simpl. unfold getitem.
  rewrite (lookup_total_Some arr i) by lia. simpl.
  replace (S i) with (i + 1) by lia.
  rewrite (lookup_total_Some arr (i + 1)) by lia. simpl.
  replace (S (i + 1)) with (i + 2) by lia.
  rewrite (lookup_total_Some arr (i + 2)) by lia. simpl.
  unfold be24. repeat f_equal; lia.
Qed.

Lemma bytes_to_int_4 arr i :
  i + 3 < length arr →
  bytes_to_int arr i (i + 3)
  = Ok (be32 (arr !!! i) (arr !!! (i + 1)) (arr !!! (i + 2)) (arr !!! (i + 3))).
Proof.
  intros Hlen. unfold bytes_to_int. replace (S (i + 3) - i) with 4 by lia.
  simpl. unfold getitem.
  rewrite (lookup_total_Some arr i) by lia. simpl.
  replace (S i) with (i + 1) by lia.
  rewrite (lookup_total_Some arr (i + 1)) by lia. simpl.
  replace (S (i + 1)) with (i + 2) by lia.
  rewrite (lookup_total_Some arr (i + 2)) by lia. simpl.
  replace (S (i + 2)) with (i + 3) by lia.
  rewrite (lookup_total_Some arr (i + 3)) by lia. simpl.
  unfold be32. repeat f_equal; lia.
Qed.

Lemma read_step_eq locations timestamps chunk_data_array m h i :
  i + 3 < length locations → i + 3 < length timestamps →
  read_step locations timestamps chunk_data_array (m, h) i
  = Ok (if (size (entry_chunk locations timestamps chunk_data_array i) =? 0)%Z
        then (m, h)
        else (dict_set i (length h) m,
              h ++ [entry_chunk locations timestamps chunk_data_array i])).
Proof.
  intros Hl Ht. unfold read_step.
  rewrite bytes_to_int_4 by done. rewrite bytes_to_int_3 by lia. simpl.
  unfold getitem. rewrite (lookup_total_Some locations (i + 3)) by done. simpl.
  by destruct (Z.eqb (Z.land (locations !!! (i + 3)) 255) 0).
Qed.

(** The loop of [decode] over any set of table positions. *)
Lemma read_loop locations timestamps chunk_data_array xs : ∀ m h,
  NoDup xs →
  (∀ i, i ∈ xs → i + 3 < length locations ∧ i + 3 < length timestamps) →
  ∃ m' h',
    for_each (read_step locations timestamps chunk_data_array) xs (m, h) = Ok (m', h')
    ∧ (∀ r c, h !! r = Some c → h' !! r = Some c)
    ∧ (∀ pos,
         pos ∉ xs ∨ size (entry_chunk locations timestamps chunk_data_array pos) = 0%Z →
         dict_get pos m' = dict_get pos m)
    ∧ (∀ pos,
         pos ∈ xs → size (entry_chunk locations timestamps chunk_data_array pos) ≠ 0%Z →
         ∃ r, dict_get pos m' = Some r
            ∧ h' !! r = Some (entry_chunk locations timestamps chunk_data_array pos)).
Proof.
  induction xs as [|i xs IH]; intros m h Hnd Hin.
  - exists m, h. split; [done|]. split; [done|]. split; [done|].
    intros pos Hp. by apply elem_of_nil in Hp.
  - apply NoDup_cons in Hnd as [Hi Hnd].
    destruct (Hin i) as [Hl Ht]; [apply elem_of_cons; by left|].
    assert (Hin' : ∀ j, j ∈ xs → j + 3 < length locations ∧ j + 3 < length timestamps).
    { intros j Hj. apply Hin, elem_of_cons. by right. }
    rewrite for_each_cons, read_step_eq by done. unfold bind.
    set (c := entry_chunk locations timestamps chunk_data_array i).
    destruct (Z.eqb_spec (size c) 0) as [Hz|Hnz].
    + destruct (IH m h Hnd Hin') as (m' & h' & Hrun & Hpre & Hout & Hlive).
      exists m', h'. split; [done|]. split; [done|]. split.
      * intros pos [Hp|Hp]; apply Hout; [|by right].
        left. intros ?. apply Hp, elem_of_cons. by right.
      * intros pos Hp Hs. apply elem_of_cons in Hp as [->|Hp]; [done|]. by apply Hlive.
    + destruct (IH (dict_set i (length h) m) (h ++ [c]) Hnd Hin')
        as (m' & h' & Hrun & Hpre & Hout & Hlive).
      exists m', h'. split; [done|]. split; [|split].
      * intros r c' Hr. by apply Hpre, lookup_app_l_Some.
      * intros pos Hp. assert (pos ≠ i) as Hne.
        { destruct Hp as [Hp|Hp]; [|intros ->; by apply Hnz].
          intros ->. apply Hp, elem_of_cons. by left. }
        rewrite Hout; [by apply dict_get_set_ne|].
        destruct Hp as [Hp|Hp]; [|by right].
        left. intros ?. apply Hp, elem_of_cons. by right.
      * intros pos Hp Hs. apply elem_of_cons in Hp as [->|Hp]; [|by apply Hlive].
        exists (length h). split.
        -- rewrite Hout by (by left). apply dict_get_set_eq.
        -- apply Hpre. by apply list_lookup_middle.
Qed.

Lemma range_step4_NoDup stop : NoDup (range_step stop 4).
Proof.
  unfold range_step. apply NoDup_fmap_2; [|apply NoDup_seq].
  intros a b Hab. lia.
Qed.

(** What [decode] holds for a buffer with a whole header: exactly the
    table positions whose count byte is not zero, each with the chunk its
    entry describes. *)
Lemma decode_content bytes_data h :
  (8192 ≤ len bytes_data)%Z →
  ∃ m h',
    decode bytes_data h = Ok (m, h')
    ∧ (∀ r c, h !! r = Some c → h' !! r = Some c)
    ∧ (∀ pos r, dict_get pos m = Some r →
         (pos < 4096 ∧ ∃ k, pos = k * 4)
         ∧ size (table_entry bytes_data pos) ≠ 0%Z
         ∧ h' !! r = Some (table_entry bytes_data pos))
    ∧ (∀ pos, pos < 4096 → (∃ k, pos = k * 4) →
         size (table_entry bytes_data pos) ≠ 0%Z →
         ∃ r, dict_get pos m = Some r ∧ h' !! r = Some (table_entry bytes_data pos)).
Proof.
  intros Hlen.
  pose proof (len_slice bytes_data 0 sector_size ltac:(lia) ltac:(unfold sector_size; lia)) as HL.
  pose proof (len_slice bytes_data sector_size (sector_size * 2)
                ltac:(unfold sector_size; lia) ltac:(unfold sector_size; lia)) as HT.
  unfold sector_size in HL, HT. unfold len in HL, HT, Hlen.
  unfold decode, table_entry, sector_size.
  set (locations := slice bytes_data 0 4096) in *.
  set (timestamps := slice bytes_data 4096 (4096 * 2)) in *.
  set (data := slice_from bytes_data (4096 * 2)).
  assert (length locations = 4096) as HL' by lia.
  assert (length timestamps = 4096) as HT' by lia.
  destruct (read_loop locations timestamps data (range_step (length locations) 4) [] h)
    as (m & h' & Hrun & Hpre & Hout & Hlive).
  { apply range_step4_NoDup. }
  { intros i Hi. apply elem_of_range_step4 in Hi as (Hi & k & ->). lia. }
  exists m, h'. split; [done|]. split; [done|]. split.
  - intros pos r Hget.
    destruct (decide (pos ∈ range_step (length locations) 4)) as [Hp|Hp].
    + destruct (decide (size (entry_chunk locations timestamps data pos) = 0%Z)) as [Hz|Hnz].
      * rewrite Hout in Hget by (by right). done.
      * apply elem_of_range_step4 in Hp as Hp'. rewrite HL' in Hp'.
        split; [done|]. split; [done|].
        destruct (Hlive pos Hp Hnz) as (r' & Hr' & Hc). congruence.
    + rewrite Hout in Hget by (by left). done.
  - intros pos Hlt Hk Hnz. apply Hlive; [|done].
    apply elem_of_range_step4. by rewrite HL'.
Qed.

Lemma land_255_bounds (b : Z) : (0 ≤ Z.land b 255 ≤ 255)%Z.
Proof.
  assert (Z.land b 255 = b mod 256)%Z as ->.
  { change 255%Z with (Z.ones 8). by rewrite Z.land_ones by lia. }
  pose proof (Z.mod_pos_bound b 256 ltac:(lia)). lia.
Qed.

Lemma len_slice_from arr a :
  (0 ≤ a ≤ len arr)%Z → len (slice_from arr a) = (len arr - a)%Z.
Proof. intros Ha. unfold slice_from. rewrite len_slice; lia. Qed.

(** An entry whose sectors lie inside the buffer gets a whole payload. *)
Lemma table_entry_payload bytes_data i :
  (8192 ≤ len bytes_data)%Z →
  let c := table_entry bytes_data i in
  (2 ≤ location c)%Z → ((location c + size c) * 4096 ≤ len bytes_data)%Z →
  len (chunk_data c) = (size c * 4096)%Z.
Proof.
  intros Hlen c Hloc Hend. subst c. unfold table_entry, entry_chunk in *. simpl in *.
  set (loc := be24 _ _ _) in *. set (sz := Z.land _ 255) in *.
  pose proof (land_255_bounds (slice bytes_data 0 sector_size !!! (i + 3))) as Hsz.
  fold sz in Hsz.
  pose proof (len_slice_from bytes_data (sector_size * 2)) as Hd.
  unfold sector_size in *. rewrite len_slice by lia. lia.
Qed.
End decode_content.

(** ** The payload invariant *)

Lemma elem_of_dict_set {V} (k : nat) (v : V) (d : dict nat V) (x : nat * V) :
  x ∈ dict_set k v d → x ∈ d ∨ x = (k, v).
Proof.
  induction d as [|[k' v'] d IH]; simpl.
  - intros Hx%list_elem_of_singleton. by right.
  - destruct (decide (k = k')) as [->|Hne]; intros Hx%elem_of_cons.
    + destruct Hx as [->|Hx]; [by right|]. left. apply elem_of_cons. by right.
    + destruct Hx as [->|Hx]; [left; apply elem_of_cons; by left|].
      destruct (IH Hx) as [?|?]; [|by right]. left. apply elem_of_cons. by right.
Qed.

(** Every entry of the merged container is an entry of one of the two
    containers merged. *)
Lemma merge_entries (h : heap) (rule : MergeRule) (incoming : chunk_map) :
  ∀ (base : chunk_map) (x : nat * ref),
    x ∈ merge h base incoming rule → x ∈ base ∨ x ∈ incoming.
Proof.
  induction incoming as [|[pos new] incoming IH]; intros base x Hx; [by left|].
  rewrite merge_cons in Hx. apply IH in Hx as [Hx|Hx]; [|right; apply elem_of_cons; by right].
  unfold merge_step in Hx.
  assert (x ∈ dict_set pos new base → x ∈ base ∨ x ∈ (pos, new) :: incoming) as Hset.
  { intros [?| ->]%elem_of_dict_set; [by left|]. right. apply elem_of_cons. by left. }
  destruct (dict_get pos base); [|by apply Hset].
  destruct (is_allowed_to_merge _ _ _); [by apply Hset|by left].
Qed.

(** C9, as stated, fails: [decode] slices what the buffer has, so a slot
    whose sectors lie past the end of the buffer is materialised with a
    shorter payload (here: one sector claimed, no byte present). *)
Lemma truncated_payload_is_short :
  exc_map (λ s : chunk_map * heap,
             (dict_get 0 s.1, (λ c, (size c, len (chunk_data c))) <$> s.2))
          (decode truncated_region [])
  = Ok (Some 0, [(1%Z, 0%Z)]).
Proof. by_evaluation. Qed.

(** C9, amended: every slot [decode] materialises has a sector count in
    [1, 255], and a payload of exactly that many sectors when its sector
    range lies inside the buffer (offset at least 2, end not past the
    buffer); [merge] only moves slots between containers and [encode] only
    rewrites offsets, so both keep the payload length equal to
    [sectorCount * 4096] wherever it held. *)
Theorem payload_fills_sectors :
  (∀ (bytes_data : list Z) (h : heap) (m : chunk_map) (h' : heap) (pos : nat) (r : ref),
     decode bytes_data h = Ok (m, h') → dict_get pos m = Some r →
     let c := deref h' r in
     (1 ≤ size c ≤ 255)%Z
     ∧ ((2 ≤ location c)%Z → ((location c + size c) * 4096 ≤ len bytes_data)%Z →
        whole_payload c))
  ∧ (∀ (h : heap) (base incoming : chunk_map) (rule : MergeRule),
       (∀ pos r, (pos, r) ∈ base → whole_payload (deref h r)) →
       (∀ pos r, (pos, r) ∈ incoming → whole_payload (deref h r)) →
       ∀ pos r, (pos, r) ∈ merge h base incoming rule → whole_payload (deref h r))
  ∧ (∀ (m : chunk_map) (h : heap) (r : ref),
       whole_payload (deref h r) → whole_payload (deref (update_chunk_locations m h) r)).
Proof.
  split; [|split].
  - intros bytes_data h m h' pos r Hdec Hget c.
    destruct (Z.le_gt_cases 8192 (len bytes_data)) as [Hlen|Hlen].
    + destruct (decode_content bytes_data h Hlen) as (m0 & h0 & Hdec' & _ & Hin & _).
      rewrite Hdec in Hdec'. injection Hdec' as <- <-.
      destruct (Hin pos r Hget) as (_ & Hnz & Hc).
      apply list_lookup_total_correct in Hc. subst c. unfold deref. rewrite Hc.
      split.
      * pose proof (land_255_bounds (slice bytes_data 0 sector_size !!! (pos + 3))) as Hb.
        assert (size (table_entry bytes_data pos)
                = Z.land (slice bytes_data 0 sector_size !!! (pos + 3)) 255) as Hsz
          by reflexivity.
        rewrite Hsz in *. lia.
      * intros Hloc Hend. by apply table_entry_payload.
    + exfalso. destruct bytes_data as [|b bytes_data].
      * rewrite decode_nil in Hdec. injection Hdec as <- <-. done.
      * rewrite decode_short in Hdec; [done|]. unfold len in *. simpl length in *. lia.
  - intros h base incoming rule Hb Hi pos r Hin.
    apply merge_entries in Hin as [Hin|Hin]; eauto.
  - intros m h r. unfold whole_payload.
    destruct (walk_content (dict_values m) 2 h r) as (_ & Hs & Hd).
    unfold update_chunk_locations. unfold walk in *. by rewrite Hs, Hd.
Qed.

Lemma payload_fills_sectors_witness :
  whole_payload (deref [mkChunk 100 2 1 (payload 1 7)] 0).
Proof.
  refine (proj2 (proj1 payload_fills_sectors (region_with_slot0 100 7) []
                   [(0, 0)] [mkChunk 100 2 1 (payload 1 7)] 0 0 _ _) _ _).
  - by_evaluation.
  - reflexivity.
  - simpl. lia.
  - vm_compute. discriminate.
Defined.

(** ** Encoding: the header tables *)

Section tables.
Implicit Types (arr : list Z) (cs : list (nat * Chunk)) (e : nat * Chunk).

Lemma length_put4 arr pos b0 b1 b2 b3 : length (put4 arr pos b0 b1 b2 b3) = length arr.
Proof. unfold put4. by rewrite !length_insert. Qed.

Lemma put4_other arr pos b0 b1 b2 b3 j :
  j < pos ∨ pos + 3 < j → put4 arr pos b0 b1 b2 b3 !! j = arr !! j.
Proof. intros Hj. unfold put4. rewrite !list_lookup_insert_ne by lia. done. Qed.

Lemma put4_cell arr pos b0 b1 b2 b3 :
  pos + 3 < length arr →
  let arr' := put4 arr pos b0 b1 b2 b3 in
  arr' !! pos = Some b0 ∧ arr' !! (pos + 1) = Some b1
  ∧ arr' !! (pos + 2) = Some b2 ∧ arr' !! (pos + 3) = Some b3.
Proof.
  intros Hlen arr'. subst arr'. unfold put4. repeat split.
  - rewrite !list_lookup_insert_ne by lia. apply list_lookup_insert_eq. lia.
  - rewrite !list_lookup_insert_ne by lia. apply list_lookup_insert_eq.
    rewrite length_insert. lia.
  - rewrite !list_lookup_insert_ne by lia. apply list_lookup_insert_eq.
    rewrite !length_insert. lia.
  - apply list_lookup_insert_eq. rewrite !length_insert. lia.
Qed.

Lemma setitem_ok arr i v : i < length arr → setitem arr i v = Ok (<[i := v]> arr).
Proof. intros Hlt. unfold setitem. by rewrite decide_True. Qed.

Lemma set_location_eq arr pos c :
  pos + 3 < length arr → set_location arr pos c = Ok (put_location arr (pos, c)).
Proof.
  intros Hlen. unfold set_location.
  rewrite setitem_ok by lia. simpl.
  rewrite setitem_ok by (rewrite length_insert; lia). simpl.
  rewrite setitem_ok by (rewrite !length_insert; lia). simpl.
  rewrite setitem_ok by (rewrite !length_insert; lia). done.
Qed.

Lemma set_timestamp_eq arr pos c :
  pos + 3 < length arr → set_timestamp arr pos c = Ok (put_timestamp arr (pos, c)).
Proof.
  intros Hlen. unfold set_timestamp.
  rewrite setitem_ok by lia. simpl.
  rewrite setitem_ok by (rewrite length_insert; lia). simpl.
  rewrite setitem_ok by (rewrite !length_insert; lia). simpl.
  rewrite setitem_ok by (rewrite !length_insert; lia). done.
Qed.

Lemma write_chunk_eq st pos c :
  pos + 3 < length (ws_locations st) → pos + 3 < length (ws_timestamps st) →
  write_chunk st pos c
  = Ok (mkWS (put_location (ws_locations st) (pos, c))
             (put_timestamp (ws_timestamps st) (pos, c))
             (put_data (ws_chunk_data_list st) (pos, c))
             (raise_max_pos (ws_max_pos st) (pos, c))).
Proof.
  intros Hl Ht. unfold write_chunk.
  rewrite set_location_eq by done. simpl. rewrite set_timestamp_eq by done. done.
Qed.

Lemma write_loop_view h m st :
  for_each (write_step h) m st
  = for_each (λ st e, write_chunk st e.1 e.2) (view h m) st.
Proof.
  revert st. induction m as [|[pos r] m IH]; intros st; [done|].
  unfold view. rewrite fmap_cons, !for_each_cons. unfold write_step at 1. simpl.
  destruct (write_chunk st pos (deref h r)); simpl; [apply IH|done].
Qed.

Lemma length_fold_put_location cs : ∀ arr, length (foldl put_location arr cs) = length arr.
Proof.
  induction cs as [|e cs IH]; intros arr; simpl; [done|].
  rewrite IH. apply length_put4.
Qed.

Lemma length_fold_put_timestamp cs : ∀ arr, length (foldl put_timestamp arr cs) = length arr.
Proof.
  induction cs as [|e cs IH]; intros arr; simpl; [done|].
  rewrite IH. apply length_put4.
Qed.

(** The loop of [write] on positions that fit the tables. *)
Lemma write_loop cs : ∀ st,
  (∀ e, e ∈ cs → e.1 + 3 < length (ws_locations st)
                 ∧ e.1 + 3 < length (ws_timestamps st)) →
  for_each (λ st e, write_chunk st e.1 e.2) cs st
  = Ok (mkWS (foldl put_location (ws_locations st) cs)
             (foldl put_timestamp (ws_timestamps st) cs)
             (foldl put_data (ws_chunk_data_list st) cs)
             (foldl raise_max_pos (ws_max_pos st) cs)).
Proof.
  induction cs as [|[pos c] cs IH]; intros st Hfit.
  - by destruct st.
  - destruct (Hfit (pos, c)) as [Hl Ht]; [apply elem_of_cons; by left|].
    rewrite for_each_cons. simpl. rewrite write_chunk_eq by done. simpl.
    rewrite IH; [done|]. simpl. intros e He.
    unfold put_location, put_timestamp. rewrite !length_put4.
    apply Hfit, elem_of_cons. by right.
Qed.
End tables.

(** Cells written into a table: [f0 c] to [f3 c] are the four bytes. *)
Section cells.
Variables f0 f1 f2 f3 : Chunk → Z.
Implicit Types (arr : list Z) (cs : list (nat * Chunk)).

Lemma length_fold_put_cell cs : ∀ arr, length (foldl (put_cell f0 f1 f2 f3) arr cs) = length arr.
Proof.
  induction cs as [|e cs IH]; intros arr; simpl; [done|].
  rewrite IH. apply length_put4.
Qed.

(** A byte outside every written cell keeps its value. *)
Lemma cells_other cs : ∀ arr j,
  (∀ e, e ∈ cs → j < e.1 ∨ e.1 + 3 < j) →
  foldl (put_cell f0 f1 f2 f3) arr cs !! j = arr !! j.
Proof.
  induction cs as [|e cs IH]; intros arr j Hj; simpl; [done|].
  rewrite IH by (intros e' He'; apply Hj, elem_of_cons; by right).
  apply put4_other, Hj, elem_of_cons. by left.
Qed.

(** The cell of a key holds the bytes written for it. *)
Lemma cells_key cs : ∀ arr pos c,
  NoDup cs.*1 →
  (∀ e, e ∈ cs → (∃ k, e.1 = k * 4) ∧ e.1 + 3 < length arr) →
  (pos, c) ∈ cs →
  foldl (put_cell f0 f1 f2 f3) arr cs !! pos = Some (f0 c)
  ∧ foldl (put_cell f0 f1 f2 f3) arr cs !! (pos + 1) = Some (f1 c)
  ∧ foldl (put_cell f0 f1 f2 f3) arr cs !! (pos + 2) = Some (f2 c)
  ∧ foldl (put_cell f0 f1 f2 f3) arr cs !! (pos + 3) = Some (f3 c).
Proof.
  induction cs as [|e cs IH]; intros arr pos c Hnd Hfit Hin.
  - by apply elem_of_nil in Hin.
  - rewrite fmap_cons in Hnd. apply NoDup_cons in Hnd as [He Hnd].
    change (foldl (put_cell f0 f1 f2 f3) arr (e :: cs))
      with (foldl (put_cell f0 f1 f2 f3) (put_cell f0 f1 f2 f3 arr e) cs).
    apply elem_of_cons in Hin as [<-|Hin].
    + destruct (Hfit (pos, c)) as [[k Hk] Hlen]; [apply elem_of_cons; by left|].
      simpl in He, Hk, Hlen.
      assert (Hfar : ∀ j, pos ≤ j ≤ pos + 3 →
                ∀ e', e' ∈ cs → j < e'.1 ∨ e'.1 + 3 < j).
      { intros j Hj e' He'. destruct (Hfit e') as [[k' Hk'] _]; [apply elem_of_cons; by right|].
        assert (e'.1 ≠ pos); [|lia]. intros Heq. apply He.
        apply list_elem_of_fmap. exists e'. by split. }
      rewrite !cells_other by (apply Hfar; lia).
      by apply (put4_cell arr pos (f0 c) (f1 c) (f2 c) (f3 c)).
    + apply (IH (put_cell f0 f1 f2 f3 arr e) pos c); [done| |done].
      intros e' He'. unfold put_cell at 1. rewrite length_put4.
      apply Hfit, elem_of_cons. by right.
Qed.
End cells.

(** ** Encoding: the payload region *)

Section payload_region.
Implicit Types (cs : list (nat * Chunk)) (e : nat * Chunk) (a : Z).
Local Open Scope Z_scope.

Lemma total_app cs1 cs2 : total (cs1 ++ cs2) = total cs1 + total cs2.
Proof. induction cs1 as [|e cs1 IH]; simpl; [done|]. rewrite IH. lia. Qed.

Lemma total_nonneg cs : (∀ e, e ∈ cs → 0 ≤ size e.2) → 0 ≤ total cs.
Proof.
  induction cs as [|e cs IH]; simpl; intros Hs; [done|].
  assert (0 ≤ size e.2) by (apply Hs, elem_of_cons; by left).
  assert (0 ≤ total cs); [|lia].
  apply IH. intros e' He'. apply Hs, elem_of_cons. by right.
Qed.

Lemma packed_app a cs1 cs2 :
  packed a (cs1 ++ cs2) ↔ packed a cs1 ∧ packed (a + total cs1) cs2.
Proof.
  revert a. induction cs1 as [|e cs1 IH]; intros a; simpl.
  - rewrite Z.add_0_r. tauto.
  - rewrite IH. rewrite Z.add_assoc. tauto.
Qed.

Lemma len_payloads cs :
  (∀ e, e ∈ cs → whole_payload e.2) → len (payloads cs) = total cs * sector_size.
Proof.
  induction cs as [|e cs IH]; intros Hw; [done|].
  change (payloads (e :: cs)) with (chunk_data e.2 ++ payloads cs).
  change (total (e :: cs)) with (size e.2 + total cs).
  rewrite len_app, IH by (intros e' He'; apply Hw, elem_of_cons; by right).
  rewrite (Hw e) by (apply elem_of_cons; by left). lia.
Qed.

Lemma payloads_app cs1 cs2 : payloads (cs1 ++ cs2) = payloads cs1 ++ payloads cs2.
Proof. unfold payloads. by rewrite fmap_app, concat_app. Qed.

(** With distinct offsets, [chunk_data_list] lists the payloads in
    iteration order. *)
Lemma data_list_packed cs : ∀ a (d : dict Z (list Z)),
  packed a cs → (∀ e, e ∈ cs → 1 ≤ size e.2) →
  (∀ k, k ∈ dict_keys d → k < a) →
  foldl put_data d cs = d ++ ((λ e, (location e.2, chunk_data e.2)) <$> cs).
Proof.
  induction cs as [|e cs IH]; intros a d Hp Hs Hd; simpl.
  - by rewrite app_nil_r.
  - destruct Hp as [Hloc Hp].
    assert (1 ≤ size e.2) by (apply Hs, elem_of_cons; by left).
    unfold put_data at 2. rewrite dict_set_absent.
    2:{ intros Hin. apply Hd in Hin. lia. }
    rewrite (IH (a + size e.2)); [by rewrite <- app_assoc|done| |].
    + intros e' He'. apply Hs, elem_of_cons. by right.
    + intros k. unfold dict_keys. rewrite fmap_app. simpl.
      intros [Hk|Hk]%elem_of_app; [apply Hd in Hk; lia|].
      apply list_elem_of_singleton in Hk. lia.
Qed.

Lemma max_pos_packed cs : ∀ a,
  packed a cs → (∀ e, e ∈ cs → 0 ≤ size e.2) →
  foldl raise_max_pos ((a - 2) * sector_size) cs = (a + total cs - 2) * sector_size.
Proof.
  induction cs as [|e cs IH]; intros a Hp Hs; simpl.
  - f_equal. lia.
  - destruct Hp as [Hloc Hp].
    assert (0 ≤ size e.2) by (apply Hs, elem_of_cons; by left).
    assert (raise_max_pos ((a - 2) * sector_size) e = (a + size e.2 - 2) * sector_size)
      as ->.
    { unfold raise_max_pos. rewrite Hloc. unfold sector_size.
      destruct (Z.gtb_spec ((size e.2 + a - 2) * 4096) ((a - 2) * 4096)); lia. }
    rewrite IH; [f_equal; lia|done|].
    intros e' He'. apply Hs, elem_of_cons. by right.
Qed.

Lemma max_extent_packed cs : ∀ a,
  packed a cs → (∀ e, e ∈ cs → 0 ≤ size e.2) → 2 ≤ a →
  max_extent cs = if decide (cs = []) then 0 else (a + total cs - 2) * sector_size.
Proof.
  induction cs as [|e cs IH]; intros a Hp Hs Ha; [done|].
  destruct Hp as [Hloc Hp].
  assert (0 ≤ size e.2) by (apply Hs, elem_of_cons; by left).
  assert (Hs' : ∀ e', e' ∈ cs → 0 ≤ size e'.2).
  { intros e' He'. apply Hs, elem_of_cons. by right. }
  pose proof (total_nonneg cs Hs').
  rewrite decide_False by done. simpl. rewrite (IH (a + size e.2)) by (done || lia).
  rewrite Hloc. unfold sector_size. destruct (decide (cs = [])) as [->|]; simpl; lia.
Qed.

Lemma len_replicate {A} (n : Z) (x : A) : 0 ≤ n → len (replicate (Z.to_nat n) x) = n.
Proof. intros Hn. unfold len. rewrite length_replicate. lia. Qed.

(** The payload loop of [join]: a packed list fills the zeroed tail. *)
Lemma join_fold cs : ∀ a (pre : list Z),
  packed a cs → (∀ e, e ∈ cs → whole_payload e.2 ∧ 0 ≤ size e.2) →
  len pre = a * sector_size → 0 ≤ a →
  foldl join_step (pre ++ replicate (Z.to_nat (total cs * sector_size)) 0)
        ((λ e, (location e.2, chunk_data e.2)) <$> cs)
  = pre ++ payloads cs.
Proof.
  induction cs as [|e cs IH]; intros a pre Hp Hw Hpre Ha.
  - simpl. unfold payloads. simpl. done.
  - destruct Hp as [Hloc Hp].
    destruct (Hw e) as [Hwe Hse]; [apply elem_of_cons; by left|].
    assert (Hw' : ∀ e', e' ∈ cs → whole_payload e'.2 ∧ 0 ≤ size e'.2).
    { intros e' He'. apply Hw, elem_of_cons. by right. }
    pose proof (total_nonneg cs (λ e' He', proj2 (Hw' e' He'))) as Ht.
    unfold whole_payload in Hwe.
    assert (Hstep : join_step (pre ++ replicate (Z.to_nat (total (e :: cs) * sector_size)) 0)
                      (location e.2, chunk_data e.2)
              = (pre ++ chunk_data e.2)
                ++ replicate (Z.to_nat (total cs * sector_size)) 0).
    { assert (Hsplit : replicate (Z.to_nat (total (e :: cs) * sector_size)) 0
                = replicate (Z.to_nat (size e.2 * sector_size)) 0
                  ++ replicate (Z.to_nat (total cs * sector_size)) 0).
      { rewrite <- replicate_add. f_equal. simpl. unfold sector_size. lia. }
      rewrite Hsplit. unfold join_step. rewrite Hloc.
      rewrite slice_assign_inside.
      2:{ unfold sector_size in *. lia. }
      2:{ rewrite !len_app, !len_replicate by (unfold sector_size; lia).
          unfold sector_size in *. lia. }
      assert (Z.to_nat (a * sector_size) = length pre) as -> by (unfold len in Hpre; lia).
      rewrite take_app_length.
      assert (Z.to_nat (a * sector_size + len (chunk_data e.2))
              = length (pre ++ replicate (Z.to_nat (size e.2 * sector_size)) 0)) as ->.
      { rewrite length_app, length_replicate. unfold len in *. unfold sector_size in *. lia. }
      rewrite (app_assoc pre (replicate _ 0) (replicate _ 0)), drop_app_length.
      by rewrite app_assoc. }
    rewrite fmap_cons. cbn [foldl]. rewrite Hstep.
    rewrite (IH (a + size e.2)); [|done|done| |lia].
    + change (payloads (e :: cs)) with (chunk_data e.2 ++ payloads cs).
      by rewrite <- app_assoc.
    + rewrite len_app, Hpre, Hwe. unfold sector_size. lia.
Qed.

(** [join] on full tables and a packed list of whole payloads. *)
Lemma join_packed (locations timestamps : list Z) cs :
  len locations = sector_size → len timestamps = sector_size →
  packed 2 cs → (∀ e, e ∈ cs → whole_payload e.2 ∧ 0 ≤ size e.2) →
  join locations timestamps ((λ e, (location e.2, chunk_data e.2)) <$> cs)
       (total cs * sector_size)
  = Ok (locations ++ timestamps ++ payloads cs).
Proof.
  intros Hl Ht Hp Hw.
  pose proof (total_nonneg cs (λ e' He', proj2 (Hw e' He'))) as Htot.
  unfold join, bytearray. rewrite Hl, Ht.
  destruct (Z.ltb_spec (sector_size + sector_size + total cs * sector_size) 0) as [Hneg|_];
    [unfold sector_size in Hneg; lia|].
  simpl. f_equal.
  assert (Hzeros : replicate (Z.to_nat (sector_size + sector_size + total cs * sector_size)) 0
            = replicate (Z.to_nat sector_size) 0
              ++ replicate (Z.to_nat sector_size) 0
              ++ replicate (Z.to_nat (total cs * sector_size)) 0).
  { rewrite <- !replicate_add. f_equal. unfold sector_size. lia. }
  rewrite Hzeros.
  set (tail := replicate (Z.to_nat (total cs * sector_size)) 0).
  set (zeros := replicate (Z.to_nat sector_size) 0).
  assert (Hz : length zeros = Z.to_nat sector_size) by apply length_replicate.
  assert (Hz' : len zeros = sector_size) by (unfold len; rewrite Hz; unfold sector_size; lia).
  assert (Hll : length locations = Z.to_nat sector_size) by (unfold len in Hl; lia).
  assert (Htl : length timestamps = Z.to_nat sector_size) by (unfold len in Ht; lia).
  (* res[:len(locations)] = locations *)
  assert (slice_assign (zeros ++ zeros ++ tail) 0 sector_size locations
          = locations ++ zeros ++ tail) as ->.
  { rewrite <- Hl at 1. rewrite (slice_assign_inside _ 0 locations).
    - rewrite Z.add_0_l, Hl. change (Z.to_nat 0) with 0%nat.
      rewrite take_0, <- Hz. by rewrite drop_app_length.
    - lia.
    - rewrite !len_app, Hz', Hl. pose proof (len_nonneg tail).
      unfold sector_size. lia. }
  (* res[sector_size : sector_size * 2] = timestamps *)
  assert (slice_assign (locations ++ zeros ++ tail) sector_size (sector_size * 2) timestamps
          = locations ++ timestamps ++ tail) as ->.
  { replace (sector_size * 2) with (sector_size + len timestamps) by lia.
    rewrite slice_assign_inside.
    - rewrite <- Hll at 1. rewrite take_app_length.
      replace (Z.to_nat (sector_size + len timestamps))
        with (length (locations ++ zeros)).
      + by rewrite (app_assoc locations zeros tail), drop_app_length.
      + rewrite length_app, Hll, Hz. unfold len. rewrite Htl. unfold sector_size. lia.
    - unfold sector_size. lia.
    - rewrite !len_app, Hz', Hl, Ht. pose proof (len_nonneg tail).
      unfold sector_size. lia. }
  rewrite (app_assoc locations timestamps tail). subst tail.
  rewrite (join_fold cs 2); [by rewrite <- app_assoc|done|done| |lia].
  rewrite len_app, Hl, Ht. unfold sector_size. lia.
Qed.
End payload_region.

(** ** Encoding: the whole buffer *)

Section whole_buffer.
Implicit Types (cs : list (nat * Chunk)) (m : chunk_map) (h : heap).

Lemma total_view h h' m :
  (∀ r, size (deref h' r) = size (deref h r)) →
  total (view h' m) = sectors h (dict_values m).
Proof.
  intros Hs. induction m as [|[pos r] m IH]; [done|].
  unfold view, dict_values. rewrite !fmap_cons. simpl. rewrite Hs. f_equal. exact IH.
Qed.

Lemma packed_of_index cs : ∀ a,
  (∀ i e, cs !! i = Some e → location e.2 = (a + total (take i cs))%Z) → packed a cs.
Proof.
  induction cs as [|e cs IH]; intros a Hidx; [done|]. simpl. split.
  - rewrite (Hidx 0 e eq_refl). simpl. lia.
  - apply IH. intros i e' Hl. rewrite (Hidx (S i) e' Hl). simpl. lia.
Qed.

Lemma elem_of_view h m e :
  e ∈ view h m ↔ ∃ r, (e.1, r) ∈ m ∧ e.2 = deref h r.
Proof.
  unfold view. rewrite list_elem_of_fmap. split.
  - intros ([pos r] & -> & Hin). by exists r.
  - intros (r & Hin & Heq). exists (e.1, r). split; [|done].
    destruct e. simpl in *. by subst.
Qed.

Lemma elem_of_values m pos r : (pos, r) ∈ m → r ∈ dict_values m.
Proof. intros Hin. unfold dict_values. apply list_elem_of_fmap. by exists (pos, r). Qed.

Lemma elem_of_keys m pos r : (pos, r) ∈ m → pos ∈ dict_keys m.
Proof. intros Hin. unfold dict_keys. apply list_elem_of_fmap. by exists (pos, r). Qed.

Lemma view_keys h m : (view h m).*1 = dict_keys m.
Proof.
  unfold view, dict_keys. rewrite <- list_fmap_compose. by apply list_fmap_ext.
Qed.

Lemma view_take h m i : take i (view h m) = view h (take i m).
Proof. unfold view. by rewrite fmap_take. Qed.

Lemma valid_laid_out m h :
  valid_container m h → laid_out (view (update_chunk_locations m h) m).
Proof.
  intros [Hk Hsl Hr Hlive Hc Hp Ht].
  set (h' := update_chunk_locations m h).
  assert (Hsame : ∀ r, same_content (deref h' r) (deref h r)).
  { intros r. apply (walk_content (dict_values m) 2 h r). }
  assert (Hmem : ∀ e, e ∈ view h' m →
            ∃ r, r ∈ dict_values m ∧ e.1 ∈ dict_keys m ∧ same_content e.2 (deref h r)).
  { intros e (r & Hin & ->)%elem_of_view. exists r.
    split; [by eapply elem_of_values|]. split; [by eapply elem_of_keys|]. apply Hsame. }
  split.
  - by rewrite view_keys.
  - intros e (r & _ & Hkey & _)%Hmem. by apply Hsl.
  - intros e (r & Hv & _ & (_ & -> & _))%Hmem. by apply Hc.
  - intros e (r & Hv & _ & (_ & Hs & Hd))%Hmem. unfold whole_payload. rewrite Hs, Hd.
    by apply Hp.
  - intros e (r & Hv & _ & (-> & _ & _))%Hmem. by apply Ht.
  - apply packed_of_index. intros i e Hl.
    unfold view in Hl. rewrite list_lookup_fmap in Hl.
    destruct (m !! i) as [[pos r]|] eqn:Hm; [|done]. injection Hl as <-. simpl.
    assert (Hv : dict_values m !! i = Some r).
    { unfold dict_values. by rewrite list_lookup_fmap, Hm. }
    pose proof (walk_location (dict_values m) 2 h i r Hr Hlive Hv) as Hloc.
    change ((walk 2 h (dict_values m)).2) with h' in Hloc. rewrite Hloc.
    f_equal. rewrite view_take.
    rewrite (total_view h h' (take i m)) by (intros; apply Hsame).
    unfold dict_values. by rewrite fmap_take.
Qed.

Lemma length_zero_table : length zero_table = Z.to_nat sector_size.
Proof. apply length_replicate. Qed.

Lemma length_location_table cs : length (location_table cs) = Z.to_nat sector_size.
Proof. unfold location_table. by rewrite length_fold_put_location, length_zero_table. Qed.

Lemma length_timestamp_table cs : length (timestamp_table cs) = Z.to_nat sector_size.
Proof. unfold timestamp_table. by rewrite length_fold_put_timestamp, length_zero_table. Qed.

(** The bytes [encode] produces: the two tables, then the payloads in
    iteration order. *)
Lemma encode_bytes m h :
  valid_container m h →
  let h' := update_chunk_locations m h in
  encode m h
  = Ok (h', location_table (view h' m) ++ timestamp_table (view h' m)
            ++ payloads (view h' m)).
Proof.
  intros Hv h'.
  assert (Hlo : laid_out (view h' m)) by apply (valid_laid_out m h Hv).
  destruct Hlo as [Hk Hsl Hc Hp Ht Hpk].
  set (cs := view h' m) in *.
  unfold encode. fold h'. rewrite write_loop_view. fold cs.
  rewrite write_loop.
  2:{ intros e He.
      change (ws_locations write_init) with zero_table.
      change (ws_timestamps write_init) with zero_table.
      rewrite length_zero_table.
      destruct (Hsl e He) as (k & Hk4 & ->). unfold sector_size. lia. }
  change (ws_locations write_init) with zero_table.
  change (ws_timestamps write_init) with zero_table.
  change (ws_chunk_data_list write_init) with (@nil (Z * list Z)).
  change (ws_max_pos write_init) with 0%Z.
  unfold bind at 1. cbn [ws_locations ws_timestamps ws_chunk_data_list ws_max_pos].
  rewrite (data_list_packed cs 2 []); [|done| |].
  2:{ intros e He. specialize (Hc e He). lia. }
  2:{ intros k Hk0. by apply elem_of_nil in Hk0. }
  change (foldl raise_max_pos 0%Z cs)
    with (foldl raise_max_pos ((2 - 2) * sector_size)%Z cs).
  rewrite max_pos_packed; [|done|].
  2:{ intros e He. specialize (Hc e He). lia. }
  replace ((2 + total cs - 2) * sector_size)%Z with (total cs * sector_size)%Z by lia.
  fold (location_table cs) (timestamp_table cs). rewrite app_nil_l.
  rewrite join_packed; [done| | |done|].
  - unfold len. rewrite length_location_table. unfold sector_size. lia.
  - unfold len. rewrite length_timestamp_table. unfold sector_size. lia.
  - intros e He. split; [by apply Hp|]. specialize (Hc e He). lia.
Qed.

Lemma slice_middle {A} (l1 d l2 : list A) :
  slice (l1 ++ d ++ l2) (len l1) (len l1 + len d) = d.
Proof.
  pose proof (len_nonneg l1). pose proof (len_nonneg d). pose proof (len_nonneg l2).
  rewrite slice_prefix by (rewrite ?len_app; lia).
  replace (Z.to_nat (len l1)) with (length l1) by (unfold len; lia).
  rewrite drop_app_length.
  replace (Z.to_nat (len l1 + len d - len l1)) with (length d) by (unfold len; lia).
  by rewrite take_app_length.
Qed.

(** Every sector of a packed layout belongs to a chunk. *)
Lemma packed_cover cs : ∀ (a x : Z),
  packed a cs → (∀ e, e ∈ cs → (0 ≤ size e.2)%Z) →
  (a * 4096 ≤ x < (a + total cs) * 4096)%Z →
  ∃ e, e ∈ cs ∧ (location e.2 * 4096 ≤ x < (location e.2 + size e.2) * 4096)%Z.
Proof.
  induction cs as [|e cs IH]; intros a x Hp Hs Hx; simpl in *; [lia|].
  destruct Hp as [Hloc Hp].
  destruct (Z.lt_ge_cases x ((a + size e.2) * 4096)) as [Hlt|Hge].
  - exists e. split; [apply elem_of_cons; by left|]. rewrite Hloc. lia.
  - destruct (IH (a + size e.2)%Z x Hp) as (e' & He' & Hr).
    + intros e' He'. apply Hs, elem_of_cons. by right.
    + lia.
    + exists e'. split; [apply elem_of_cons; by right|done].
Qed.
End whole_buffer.

(** ** The layout of the encoded buffer *)

Section layout.
Implicit Types (cs : list (nat * Chunk)) (m : chunk_map) (h : heap).

Lemma location_table_other cs j :
  (∀ e, e ∈ cs → j < e.1 ∨ e.1 + 3 < j) →
  location_table cs !! j = zero_table !! j.
Proof.
  apply (cells_other (λ c, Z.land (Z.shiftr (location c) 16) 255)
           (λ c, Z.land (Z.shiftr (location c) 8) 255)
           (λ c, Z.land (location c) 255) (λ c, Z.land (size c) 255) cs zero_table j).
Qed.

Lemma timestamp_table_other cs j :
  (∀ e, e ∈ cs → j < e.1 ∨ e.1 + 3 < j) →
  timestamp_table cs !! j = zero_table !! j.
Proof.
  apply (cells_other (λ c, Z.land (Z.shiftr (timestamp c) 24) 255)
           (λ c, Z.land (Z.shiftr (timestamp c) 16) 255)
           (λ c, Z.land (Z.shiftr (timestamp c) 8) 255)
           (λ c, Z.land (timestamp c) 255) cs zero_table j).
Qed.

Lemma zero_table_lookup j : j < Z.to_nat sector_size → zero_table !! j = Some 0%Z.
Proof. intros Hj. by apply lookup_replicate_2. Qed.

Lemma max_extent_laid_out cs :
  laid_out cs → max_extent cs = (total cs * sector_size)%Z.
Proof.
  intros [_ _ Hc _ _ Hp].
  rewrite (max_extent_packed cs 2); [| done | | lia].
  - destruct (decide (cs = [])) as [->|]; [done|]. f_equal. lia.
  - intros e He. specialize (Hc e He). lia.
Qed.

Lemma len_encoded cs :
  laid_out cs →
  len (location_table cs ++ timestamp_table cs ++ payloads cs)
  = (8192 + max_extent cs)%Z.
Proof.
  intros Hlo. rewrite (max_extent_laid_out cs Hlo). destruct Hlo as [_ _ _ Hw _ _].
  rewrite !len_app, len_payloads by done. unfold len.
  rewrite length_location_table, length_timestamp_table. unfold sector_size. lia.
Qed.

Lemma payload_in_place cs e :
  laid_out cs → e ∈ cs →
  slice (location_table cs ++ timestamp_table cs ++ payloads cs)
        (location e.2 * sector_size)
        (location e.2 * sector_size + len (chunk_data e.2))
  = chunk_data e.2.
Proof.
  intros [_ _ Hc Hw _ Hp] He.
  apply list_elem_of_split in He as (cs1 & cs2 & ->).
  apply packed_app in Hp as [_ [Hloc _]].
  rewrite payloads_app.
  change (payloads (e :: cs2)) with (chunk_data e.2 ++ payloads cs2).
  set (T1 := location_table _). set (T2 := timestamp_table _).
  assert (Hpre : len (T1 ++ T2 ++ payloads cs1) = (location e.2 * sector_size)%Z).
  { rewrite !len_app, len_payloads.
    - unfold len. subst T1 T2.
      rewrite length_location_table, length_timestamp_table, Hloc.
      unfold sector_size. lia.
    - intros e' He'. apply Hw. apply elem_of_app. by left. }
  rewrite <- Hpre.
  replace (T1 ++ T2 ++ payloads cs1 ++ chunk_data e.2 ++ payloads cs2)
    with ((T1 ++ T2 ++ payloads cs1) ++ chunk_data e.2 ++ payloads cs2)
    by (by rewrite <- !app_assoc).
  apply slice_middle.
Qed.

Lemma unwritten_is_zero cs (j : nat) :
  laid_out cs →
  j < length (location_table cs ++ timestamp_table cs ++ payloads cs) →
  (∀ e, e ∈ cs →
     ¬ (e.1 ≤ j < e.1 + 4)
     ∧ ¬ (4096 + e.1 ≤ j < 4096 + e.1 + 4)
     ∧ ¬ (location e.2 * 4096 ≤ Z.of_nat j < (location e.2 + size e.2) * 4096)%Z) →
  (location_table cs ++ timestamp_table cs ++ payloads cs) !! j = Some 0%Z.
Proof.
  intros Hlo Hj Hfree.
  pose proof (length_location_table cs) as HL.
  pose proof (length_timestamp_table cs) as HT.
  assert (Z.to_nat sector_size = 4096) as Hss by (unfold sector_size; lia).
  destruct (Nat.lt_ge_cases j 4096) as [H1|H1].
  - rewrite lookup_app_l by lia. rewrite location_table_other.
    + apply zero_table_lookup. lia.
    + intros e He. destruct (Hfree e He) as (Hn & _ & _). lia.
  - rewrite lookup_app_r by lia. rewrite HL, Hss.
    destruct (Nat.lt_ge_cases j (4096 + 4096)) as [H2|H2].
    + rewrite lookup_app_l by lia. rewrite timestamp_table_other.
      * apply zero_table_lookup. lia.
      * intros e He. destruct (Hfree e He) as (_ & Hn & _). lia.
    + exfalso. destruct Hlo as [_ _ Hc Hw _ Hp].
      rewrite !length_app, HL, HT, Hss in Hj.
      pose proof (len_payloads cs Hw) as Hlen. unfold len, sector_size in Hlen.
      destruct (packed_cover cs 2 (Z.of_nat j) Hp) as (e & He & Hr).
      * intros e He. specialize (Hc e He). lia.
      * lia.
      * destruct (Hfree e He) as (_ & _ & Hn). by apply Hn.
Qed.
End layout.

(** C6: for a container with valid slots, [encode] returns a buffer of
    exactly 8192 + maxExtent bytes, maxExtent being the largest
    [(sectorOffset + sectorCount - 2) * 4096] after compaction (0 for the
    empty container); the payload of every slot stands at byte
    [sectorOffset * 4096]; and every byte outside the table cells of the
    present slots and outside the payloads is zero.  In the scenario the
    merged container holds incoming's chunks under slots 5 and 9, they get
    offsets 2 and 4 with counts 2 and 1, and the buffer has 20480 bytes. *)
Theorem encode_layout :
  (∀ (m : chunk_map) (h : heap),
     valid_container m h →
     ∃ h' out,
       encode m h = Ok (h', out)
       ∧ h' = update_chunk_locations m h
       ∧ len out = (8192 + max_extent (view h' m))%Z
       ∧ (∀ pos r, dict_get pos m = Some r →
            slice out (location (deref h' r) * 4096)
                  (location (deref h' r) * 4096 + len (chunk_data (deref h' r)))
            = chunk_data (deref h' r))
       ∧ (∀ j : nat, j < length out →
            (∀ pos r, dict_get pos m = Some r →
               ¬ (pos ≤ j < pos + 4)
               ∧ ¬ (4096 + pos ≤ j < 4096 + pos + 4)
               ∧ ¬ (location (deref h' r) * 4096 ≤ Z.of_nat j
                    < (location (deref h' r) + size (deref h' r)) * 4096)%Z) →
            out !! j = Some 0%Z))
  ∧ (let merged := merge scenario_heap scenario_base scenario_incoming
                         MergeRuleNewestChunks in
     merged = [(20, 1); (36, 2)]
     ∧ exc_map (λ s : heap * list Z,
                  (len s.2, (λ c, (location c, size c)) <$> [deref s.1 1; deref s.1 2]))
               (encode merged scenario_heap)
       = Ok (20480%Z, [(2%Z, 2%Z); (4%Z, 1%Z)])).
Proof.
  split; [|split; [reflexivity|by_evaluation]].
  intros m h Hv.
  pose proof (encode_bytes m h Hv) as Henc. cbv zeta in Henc.
  pose proof (valid_laid_out m h Hv) as Hlo.
  set (h' := update_chunk_locations m h) in *.
  set (cs := view h' m) in *.
  exists h', (location_table cs ++ timestamp_table cs ++ payloads cs).
  split; [exact Henc|]. split; [reflexivity|]. split; [exact (len_encoded cs Hlo)|].
  assert (Hmem : ∀ pos r, dict_get pos m = Some r → (pos, deref h' r) ∈ cs).
  { intros pos r Hget. apply elem_of_view. exists r. split; [|reflexivity].
    exact (dict_get_Some_elem _ _ _ Hget). }
  split.
  - intros pos r Hget.
    exact (payload_in_place cs (pos, deref h' r) Hlo (Hmem pos r Hget)).
  - intros j Hj Hfree. apply (unwritten_is_zero cs j Hlo Hj).
    intros e (r & Hin & He)%elem_of_view. rewrite He.
    apply (Hfree e.1 r). exact (elem_dict_get _ _ _ (vc_keys m h Hv) Hin).
Qed.

Lemma scenario_valid :
  valid_container (merge scenario_heap scenario_base scenario_incoming MergeRuleNewestChunks)
                  scenario_heap.
Proof.
  change (merge scenario_heap scenario_base scenario_incoming MergeRuleNewestChunks)
    with [(20, 1); (36, 2)].
  assert (Hvals : ∀ (P : ref → Prop), P 1 → P 2 →
            ∀ r, r ∈ dict_values [(20, 1); (36, 2)] → P r).
  { intros P H1 H2 r Hr. unfold dict_values in Hr. simpl in Hr.
    apply elem_of_cons in Hr as [->|Hr]; [done|].
    by apply list_elem_of_singleton in Hr as ->. }
  split.
  - unfold dict_keys. simpl. apply NoDup_cons. split; [|apply NoDup_singleton].
    intros Hin%list_elem_of_singleton. discriminate.
  - unfold dict_keys. simpl. intros pos Hp.
    apply elem_of_cons in Hp as [->|Hp]; [exists 5; lia|].
    apply list_elem_of_singleton in Hp as ->. exists 9. lia.
  - unfold dict_values. simpl. apply NoDup_cons. split; [|apply NoDup_singleton].
    intros Hin%list_elem_of_singleton. discriminate.
  - apply Hvals; simpl; lia.
  - apply Hvals; vm_compute; split; discriminate.
  - apply Hvals; unfold whole_payload; by_evaluation.
  - apply Hvals; vm_compute; split; (discriminate || reflexivity).
Qed.

Lemma encode_layout_witness :
  ∃ h' out,
    encode (merge scenario_heap scenario_base scenario_incoming MergeRuleNewestChunks)
           scenario_heap = Ok (h', out)
    ∧ len out = (8192 + max_extent
                   (view h' (merge scenario_heap scenario_base scenario_incoming
                               MergeRuleNewestChunks)))%Z.
Proof.
  destruct (proj1 encode_layout _ _ scenario_valid) as (h' & out & Henc & _ & Hlen & _).
  exists h', out. exact (conj Henc Hlen).
Defined.

(** ** Big-endian bytes *)

Section bytes.
Local Open Scope Z_scope.

Lemma testbit_255 (k : Z) : Z.testbit 255 k = (0 <=? k) && (k <? 8).
Proof.
  destruct (Z.leb_spec 0 k) as [Hk|Hk]; simpl.
  - change 255 with (Z.ones 8). apply Z.testbit_ones_nonneg; lia.
  - by apply Z.testbit_neg_r.
Qed.

Lemma testbit_high (x p n : Z) : 0 ≤ x < 2 ^ p → 0 ≤ p ≤ n → Z.testbit x n = false.
Proof.
  intros Hx Hn. replace x with (x mod 2 ^ p) by (by apply Z.mod_small).
  by apply Z.mod_pow2_bits_high.
Qed.

(** Bit [k] of the byte cut out of [x] at shift [s]. *)
Lemma byte_bit (x s k : Z) :
  0 ≤ s →
  Z.testbit (Z.land (Z.land (Z.shiftr x s) 255) 255) k
  = Z.testbit x (k + s) && ((0 <=? k) && (k <? 8)).
Proof.
  intros Hs. rewrite !Z.land_spec, testbit_255.
  destruct (Z.leb_spec 0 k) as [Hk|Hk]; simpl.
  - rewrite Z.shiftr_spec by done. by destruct (Z.testbit x (k + s)), (k <? 8).
  - rewrite (Z.testbit_neg_r _ k) by done. by destruct (Z.testbit x (k + s)).
Qed.

Ltac split_ranges :=
  repeat match goal with
         | |- context [(?a <=? ?b)] => destruct (Z.leb_spec a b)
         | |- context [(?a <? ?b)] => destruct (Z.ltb_spec a b)
         end;
  simpl; try reflexivity; try lia.

Lemma be24_bytes (x : Z) :
  0 ≤ x < 2 ^ 24 →
  be24 (Z.land (Z.shiftr x 16) 255) (Z.land (Z.shiftr x 8) 255) (Z.land x 255) = x.
Proof.
  intros Hx. apply Z.bits_inj'. intros n Hn. unfold be24.
  rewrite <- (Z.shiftr_0_r x) at 3.
  rewrite !Z.lor_spec, !Z.shiftl_spec, !byte_bit, Z.testbit_0_l by lia.
  replace (n - 16 + 16) with n by lia. replace (n - 8 + 8) with n by lia.
  replace (n - 0 + 0) with n by lia.
  destruct (Z.testbit x n) eqn:Hbit; simpl; [|split_ranges].
  assert (n < 24).
  { destruct (Z.lt_ge_cases n 24); [done|].
    rewrite (testbit_high x 24 n) in Hbit by lia. done. }
  split_ranges.
Qed.

Lemma be32_bytes (x : Z) :
  0 ≤ x < 2 ^ 32 →
  be32 (Z.land (Z.shiftr x 24) 255) (Z.land (Z.shiftr x 16) 255)
       (Z.land (Z.shiftr x 8) 255) (Z.land x 255) = x.
Proof.
  intros Hx. apply Z.bits_inj'. intros n Hn. unfold be32.
  rewrite <- (Z.shiftr_0_r x) at 4.
  rewrite !Z.lor_spec, !Z.shiftl_spec, !byte_bit, Z.testbit_0_l by lia.
  replace (n - 24 + 24) with n by lia.
  replace (n - 16 + 16) with n by lia. replace (n - 8 + 8) with n by lia.
  replace (n - 0 + 0) with n by lia.
  destruct (Z.testbit x n) eqn:Hbit; simpl; [|split_ranges].
  assert (n < 32).
  { destruct (Z.lt_ge_cases n 32); [done|].
    rewrite (testbit_high x 32 n) in Hbit by lia. done. }
  split_ranges.
Qed.

Lemma count_byte (s : Z) : 0 ≤ s ≤ 255 → Z.land (Z.land s 255) 255 = s.
Proof.
  intros Hs. apply Z.bits_inj'. intros n Hn.
  rewrite !Z.land_spec, testbit_255.
  destruct (Z.testbit s n) eqn:Hbit; simpl; [|done].
  assert (n < 8).
  { destruct (Z.lt_ge_cases n 8); [done|].
    rewrite (testbit_high s 8 n) in Hbit by lia. done. }
  split_ranges.
Qed.
End bytes.

(** ** Decoding what was encoded *)

Section roundtrip.
Implicit Types (cs : list (nat * Chunk)) (m : chunk_map) (h : heap).

Lemma total_le_count cs :
  (∀ e, e ∈ cs → (size e.2 ≤ 255)%Z) → (total cs ≤ 255 * Z.of_nat (length cs))%Z.
Proof.
  induction cs as [|e cs IH]; intros Hs; simpl; [lia|].
  assert (size e.2 ≤ 255)%Z by (apply Hs, elem_of_cons; by left).
  assert (total cs ≤ 255 * Z.of_nat (length cs))%Z; [|lia].
  apply IH. intros e' He'. apply Hs, elem_of_cons. by right.
Qed.

Lemma bounded_NoDup_length (l : list nat) n :
  NoDup l → (∀ x, x ∈ l → x < n) → length l ≤ n.
Proof.
  intros Hnd Hlt. assert (length l ≤ length (seq 0 n)) as Hle.
  { apply submseteq_length, NoDup_submseteq; [done|].
    intros x Hx. apply elem_of_seq. specialize (Hlt x Hx). lia. }
  by rewrite length_seq in Hle.
Qed.

Lemma laid_out_length cs : laid_out cs → length cs ≤ 4096.
Proof.
  intros [Hk Hsl _ _ _ _]. rewrite <- (length_fmap fst).
  apply bounded_NoDup_length; [done|].
  intros pos (e & -> & He)%list_elem_of_fmap.
  destruct (Hsl e He) as (k & Hk4 & ->). lia.
Qed.

(** Where a chunk of a laid-out list lies. *)
Lemma laid_out_extent cs1 e cs2 :
  laid_out (cs1 ++ e :: cs2) →
  location e.2 = (2 + total cs1)%Z
  ∧ (0 ≤ total cs1)%Z
  ∧ (location e.2 + size e.2 ≤ 2 + 255 * 4096)%Z.
Proof.
  intros Hlo. pose proof (laid_out_length _ Hlo) as Hlen.
  destruct Hlo as [_ _ Hc _ _ Hp].
  apply packed_app in Hp as [_ [Hloc _]].
  assert (Hnn : ∀ cs', (∀ e', e' ∈ cs' → e' ∈ cs1 ++ e :: cs2) → (0 ≤ total cs')%Z).
  { intros cs' Hsub. apply total_nonneg. intros e' He'. specialize (Hc e' (Hsub e' He')). lia. }
  assert (0 ≤ total cs1)%Z.
  { apply Hnn. intros e' He'. apply elem_of_app. by left. }
  assert (0 ≤ total cs2)%Z.
  { apply Hnn. intros e' He'. apply elem_of_app. right. apply elem_of_cons. by right. }
  pose proof (total_le_count (cs1 ++ e :: cs2)) as Hle.
  rewrite total_app in Hle. simpl in Hle.
  split; [done|]. split; [done|].
  assert (total cs1 + (size e.2 + total cs2) ≤ 255 * Z.of_nat (length (cs1 ++ e :: cs2)))%Z.
  { apply Hle. intros e' He'. specialize (Hc e' He'). lia. }
  lia.
Qed.

Lemma slices_of_encoded (T1 T2 P : list Z) :
  length T1 = Z.to_nat sector_size → length T2 = Z.to_nat sector_size →
  slice (T1 ++ T2 ++ P) 0 sector_size = T1
  ∧ slice (T1 ++ T2 ++ P) sector_size (sector_size * 2) = T2
  ∧ slice_from (T1 ++ T2 ++ P) (sector_size * 2) = P.
Proof.
  intros H1 H2.
  assert (len T1 = sector_size) as HL1 by (unfold len, sector_size in *; lia).
  assert (len T2 = sector_size) as HL2 by (unfold len, sector_size in *; lia).
  split; [|split].
  - pose proof (slice_middle [] T1 (T2 ++ P)) as Hs.
    rewrite HL1 in Hs. exact Hs.
  - pose proof (slice_middle T1 T2 P) as Hs.
    rewrite HL1, HL2 in Hs.
    replace (sector_size * 2)%Z with (sector_size + sector_size)%Z by lia. exact Hs.
  - unfold slice_from.
    pose proof (slice_middle (T1 ++ T2) P []) as Hs.
    rewrite app_nil_r, <- app_assoc in Hs.
    rewrite !len_app, HL1, HL2 in Hs. rewrite !len_app, HL1, HL2.
    replace (sector_size * 2)%Z with (sector_size + sector_size)%Z by lia.
    replace (sector_size + (sector_size + len P))%Z
      with (sector_size + sector_size + len P)%Z by lia.
    exact Hs.
Qed.

(** The table entry of a key decodes to the chunk written for it. *)
Lemma entry_of_key cs e :
  laid_out cs → e ∈ cs →
  entry_chunk (location_table cs) (timestamp_table cs) (payloads cs) e.1 = e.2.
Proof.
  intros Hlo He. pose proof Hlo as [Hk Hsl Hc Hw Ht Hp].
  assert (Hfit : ∀ e', e' ∈ cs → (∃ k, e'.1 = k * 4) ∧ e'.1 + 3 < length zero_table).
  { intros e' He'. destruct (Hsl e' He') as (k & Hk4 & ->).
    rewrite length_zero_table. unfold sector_size. split; [by exists k|lia]. }
  destruct e as [pos c]. simpl.
  pose proof (cells_key (λ c, Z.land (Z.shiftr (location c) 16) 255)
                (λ c, Z.land (Z.shiftr (location c) 8) 255)
                (λ c, Z.land (location c) 255) (λ c, Z.land (size c) 255)
                cs zero_table pos c Hk Hfit He) as (L0 & L1 & L2 & L3).
  pose proof (cells_key (λ c, Z.land (Z.shiftr (timestamp c) 24) 255)
                (λ c, Z.land (Z.shiftr (timestamp c) 16) 255)
                (λ c, Z.land (Z.shiftr (timestamp c) 8) 255)
                (λ c, Z.land (timestamp c) 255)
                cs zero_table pos c Hk Hfit He) as (T0 & T1 & T2 & T3).
  apply list_lookup_total_correct in L0, L1, L2, L3, T0, T1, T2, T3.
  unfold entry_chunk.
  change (foldl _ zero_table cs) with (location_table cs) in L0, L1, L2, L3.
  change (foldl _ zero_table cs) with (timestamp_table cs) in T0, T1, T2, T3.
  rewrite L0, L1, L2, L3, T0, T1, T2, T3.
  pose proof He as Hsplit.
  apply list_elem_of_split in Hsplit as (cs1 & cs2 & ->).
  destruct (laid_out_extent cs1 (pos, c) cs2 Hlo) as (Hloc & Hnn & Hend).
  simpl in Hloc, Hend.
  specialize (Hc (pos, c) He). specialize (Ht (pos, c) He). simpl in Hc, Ht.
  rewrite be24_bytes by lia. rewrite be32_bytes by done. rewrite count_byte by lia.
  assert (Hdata : slice (payloads (cs1 ++ (pos, c) :: cs2))
                    ((location c - 2) * sector_size)
                    ((location c + size c - 2) * sector_size) = chunk_data c).
  { rewrite payloads_app.
    change (payloads ((pos, c) :: cs2)) with (chunk_data c ++ payloads cs2).
    assert (len (payloads cs1) = ((location c - 2) * sector_size)%Z) as Hpre.
    { rewrite len_payloads.
      - rewrite Hloc. f_equal. lia.
      - intros e' He'. apply Hw, elem_of_app. by left. }
    pose proof (Hw (pos, c) He) as Hwc. unfold whole_payload in Hwc. simpl in Hwc.
    replace ((location c + size c - 2) * sector_size)%Z
      with (len (payloads cs1) + len (chunk_data c))%Z by (rewrite Hpre, Hwc; lia).
    rewrite <- Hpre. apply slice_middle. }
  rewrite Hdata. by destruct c.
Qed.

(** A table position that is not a key reads as an absent slot. *)
Lemma entry_of_free cs pos k :
  laid_out cs → pos = k * 4 → pos < 4096 → pos ∉ cs.*1 →
  size (entry_chunk (location_table cs) (timestamp_table cs) (payloads cs) pos) = 0%Z.
Proof.
  intros [_ Hsl _ _ _ _] Hk Hlt Hfree. unfold entry_chunk. simpl.
  assert (location_table cs !! (pos + 3) = Some 0%Z) as Hz.
  { rewrite location_table_other.
    - apply zero_table_lookup. unfold sector_size. lia.
    - intros e He. destruct (Hsl e He) as (k' & _ & Hk').
      assert (e.1 ≠ pos); [|lia]. intros Heq. apply Hfree.
      apply list_elem_of_fmap. by exists e. }
  apply list_lookup_total_correct in Hz. by rewrite Hz.
Qed.
End roundtrip.

(** C3: for a container [m] with valid slots, [encode] succeeds, [decode]
    accepts its output, and the decoded container holds at every table
    position the timestamp and payload that [m] holds there, and nothing
    where [m] holds nothing.  So both hold the same triples
    [(slot index, timestamp, payload)]; the offsets are not compared. *)
Theorem decode_encode_roundtrip (m : chunk_map) (h h0 : heap) :
  valid_container m h →
  ∃ h1 out m' h2,
    encode m h = Ok (h1, out)
    ∧ decode out h0 = Ok (m', h2)
    ∧ (∀ pos, slot_content h2 m' pos = slot_content h m pos)
    ∧ (∀ k ts data, holds_slot h2 m' k ts data ↔ holds_slot h m k ts data).
Proof.
  intros Hv.
  pose proof (encode_bytes m h Hv) as Henc. cbv zeta in Henc.
  pose proof (valid_laid_out m h Hv) as Hlo.
  set (h1 := update_chunk_locations m h) in *.
  set (cs := view h1 m) in *.
  set (out := location_table cs ++ timestamp_table cs ++ payloads cs) in *.
  assert (Hlen : (8192 ≤ len out)%Z).
  { unfold out. rewrite (len_encoded cs Hlo), (max_extent_laid_out cs Hlo).
    assert (0 ≤ total cs)%Z; [|unfold sector_size; lia].
    apply total_nonneg. intros e He. pose proof (lo_count cs Hlo e He). lia. }
  destruct (decode_content out h0 Hlen) as (m' & h2 & Hdec & _ & Hin & Hall).
  destruct (slices_of_encoded (location_table cs) (timestamp_table cs) (payloads cs)
              (length_location_table cs) (length_timestamp_table cs)) as (S1 & S2 & S3).
  assert (Hentry : ∀ pos, table_entry out pos
            = entry_chunk (location_table cs) (timestamp_table cs) (payloads cs) pos).
  { intros pos. unfold table_entry, out. by rewrite S1, S2, S3. }
  assert (Hsame : ∀ r, same_content (deref h1 r) (deref h r)).
  { intros r. apply (walk_content (dict_values m) 2 h r). }
  assert (Hcontent : ∀ pos, slot_content h2 m' pos = slot_content h m pos).
  { intros pos. unfold slot_content.
    destruct (dict_get pos m) as [r|] eqn:Hget.
    - assert (Hcs : (pos, deref h1 r) ∈ cs).
      { apply elem_of_view. exists r. split; [|reflexivity].
        exact (dict_get_Some_elem _ _ _ Hget). }
      pose proof (entry_of_key cs (pos, deref h1 r) Hlo Hcs) as Hkey. simpl in Hkey.
      destruct (lo_slots cs Hlo _ Hcs) as (k & Hk & Hpos). simpl in Hpos.
      pose proof (lo_count cs Hlo _ Hcs) as Hcount. simpl in Hcount.
      destruct (Hall pos) as (r' & Hr' & Hc').
      + lia.
      + by exists k.
      + rewrite Hentry, Hkey. lia.
      + rewrite Hr'. simpl. apply list_lookup_total_correct in Hc'.
        unfold deref at 1 2. rewrite Hc', Hentry, Hkey.
        destruct (Hsame r) as (-> & _ & ->). reflexivity.
    - destruct (dict_get pos m') as [r'|] eqn:Hget'; [|reflexivity]. exfalso.
      destruct (Hin pos r' Hget') as ((Hlt & k & Hk) & Hnz & _).
      apply Hnz. rewrite Hentry. apply (entry_of_free cs pos k Hlo Hk Hlt).
      unfold cs. rewrite view_keys. by apply dict_get_None. }
  exists h1, out, m', h2.
  split; [exact Henc|]. split; [exact Hdec|]. split; [exact Hcontent|].
  intros k ts data. unfold holds_slot. by rewrite Hcontent.
Qed.

Lemma decode_encode_roundtrip_witness :
  ∃ h1 out m' h2,
    encode (merge scenario_heap scenario_base scenario_incoming MergeRuleNewestChunks)
           scenario_heap = Ok (h1, out)
    ∧ decode out [] = Ok (m', h2)
    ∧ holds_slot h2 m' 9 50 (payload 1 3).
Proof.
  destruct (decode_encode_roundtrip _ scenario_heap [] scenario_valid)
    as (h1 & out & m' & h2 & Henc & Hdec & _ & Hslots).
  exists h1, out, m', h2. split; [exact Henc|]. split; [exact Hdec|].
  apply Hslots. reflexivity.
Defined.

(** * Further properties *)

(** ** Merge: keys, repetition, the two constant rules *)

Lemma filter_none {A} (P : A → Prop) `{∀ x, Decision (P x)} (l : list A) :
  (∀ x, x ∈ l → ¬ P x) → filter P l = [].
Proof.
  induction l as [|x l IH]; intros Hno; [done|].
  rewrite filter_cons_False by (apply Hno, elem_of_cons; by left).
  apply IH. intros y Hy. apply Hno, elem_of_cons. by right.
Qed.

Section merge_more.
Variables (h : heap) (rule : MergeRule).
Implicit Types (self other base incoming : chunk_map).

Lemma merge_step_NoDup self item :
  NoDup (dict_keys self) → NoDup (dict_keys (merge_step h rule self item)).
Proof.
  intros Hnd. destruct item as [pos new]. unfold merge_step.
  destruct (dict_get pos self); [|by apply dict_set_NoDup].
  destruct (is_allowed_to_merge _ _ _); [by apply dict_set_NoDup|done].
Qed.

Lemma merge_NoDup other : ∀ self,
  NoDup (dict_keys self) → NoDup (dict_keys (merge h self other rule)).
Proof.
  induction other as [|item other IH]; intros self Hnd; [done|].
  rewrite merge_cons. by apply IH, merge_step_NoDup.
Qed.

Lemma new_keys_keys base incoming :
  dict_keys (filter (λ e, dict_get e.1 base = None) incoming)
  = filter (λ k, dict_get k base = None) (dict_keys incoming).
Proof.
  unfold dict_keys. induction incoming as [|[k v] incoming IH]; [done|].
  rewrite fmap_cons. cbn [fst]. rewrite !filter_cons. cbn [fst].
  destruct (decide (dict_get k base = None)); [rewrite fmap_cons; cbn [fst]|];
    by rewrite IH.
Qed.

Lemma merge_keys base incoming :
  NoDup (dict_keys base) → NoDup (dict_keys incoming) →
  dict_keys (merge h base incoming rule)
  = dict_keys base ++ filter (λ k, dict_get k base = None) (dict_keys incoming).
Proof.
  intros Hb Hi. rewrite merge_apply_incoming by done. unfold apply_incoming.
  unfold dict_keys at 1. rewrite fmap_app.
  fold (dict_keys (resolved h rule incoming <$> base)).
  fold (dict_keys (filter (λ e, dict_get e.1 base = None) incoming)).
  by rewrite resolved_keys, new_keys_keys.
Qed.

Lemma merge_into_empty incoming :
  NoDup (dict_keys incoming) → merge h [] incoming rule = incoming.
Proof.
  intros Hi. rewrite merge_apply_incoming; [|apply NoDup_nil_2|done].
  unfold apply_incoming. simpl.
  induction incoming as [|e incoming IH]; [done|].
  rewrite filter_cons_True by done. f_equal. apply IH.
  unfold dict_keys in *. rewrite fmap_cons in Hi. by apply NoDup_cons in Hi as [_ ?].
Qed.

(** An entry of the merged container is left alone by a second pass. *)
Lemma resolved_again base incoming e :
  NoDup (dict_keys incoming) →
  e ∈ apply_incoming h rule base incoming → resolved h rule incoming e = e.
Proof.
  intros Hi He. unfold apply_incoming in He. apply elem_of_app in He as [He|He].
  - apply list_elem_of_fmap in He as ([pos cur] & -> & _).
    unfold resolved. simpl. destruct (dict_get pos incoming) as [new|] eqn:Hget; [|done].
    destruct (is_allowed_to_merge rule (deref h cur) (deref h new)) eqn:Hrule.
    + by destruct (is_allowed_to_merge rule (deref h new) (deref h new)).
    + by rewrite Hrule.
  - apply list_elem_of_filter in He as [_ He]. destruct e as [pos new].
    unfold resolved. simpl. rewrite (elem_dict_get _ _ _ Hi He).
    by destruct (is_allowed_to_merge rule (deref h new) (deref h new)).
Qed.

Lemma merge_twice base incoming :
  NoDup (dict_keys base) → NoDup (dict_keys incoming) →
  merge h (merge h base incoming rule) incoming rule = merge h base incoming rule.
Proof.
  intros Hb Hi.
  rewrite (merge_apply_incoming h rule (merge h base incoming rule) incoming);
    [|by apply merge_NoDup|done].
  unfold apply_incoming at 1.
  assert (filter (λ e, dict_get e.1 (merge h base incoming rule) = None) incoming = [])
    as ->.
  { apply filter_none. intros [pos new] Hin Hnone. simpl in Hnone.
    rewrite merge_lookup in Hnone by done.
    rewrite (elem_dict_get _ _ _ Hi Hin) in Hnone.
    by destruct (dict_get pos base). }
  rewrite app_nil_r. rewrite <- (list_fmap_id (merge h base incoming rule)) at 2.
  apply list_fmap_ext. intros i e He. simpl.
  apply (resolved_again base incoming e Hi).
  rewrite <- merge_apply_incoming by done. by eapply list_elem_of_lookup_2.
Qed.
End merge_more.

(** X1: merging the same incoming container a second time changes nothing,
    whatever the rule. *)
Theorem merge_idempotent (h : heap) (rule : MergeRule) (base incoming : chunk_map) :
  NoDup (dict_keys base) → NoDup (dict_keys incoming) →
  merge h (merge h base incoming rule) incoming rule = merge h base incoming rule.
Proof. apply merge_twice. Qed.

Lemma merge_idempotent_witness :
  merge scenario_heap
        (merge scenario_heap scenario_base scenario_incoming MergeRuleNewestChunks)
        scenario_incoming MergeRuleNewestChunks
  = merge scenario_heap scenario_base scenario_incoming MergeRuleNewestChunks.
Proof.
  exact (merge_idempotent scenario_heap MergeRuleNewestChunks scenario_base
           scenario_incoming (proj1 scenario_keys) (proj2 scenario_keys)).
Defined.

(** X2: the merged container has the keys of [base] in their order, then
    the keys of [incoming] that [base] lacks in incoming's order, each key
    once; no key is dropped and none invented.  Merging into an empty
    container gives [incoming]. *)
Theorem merge_key_order (h : heap) (rule : MergeRule) (base incoming : chunk_map) :
  NoDup (dict_keys base) → NoDup (dict_keys incoming) →
  dict_keys (merge h base incoming rule)
  = dict_keys base ++ filter (λ k, dict_get k base = None) (dict_keys incoming)
  ∧ NoDup (dict_keys (merge h base incoming rule))
  ∧ (∀ k, k ∈ dict_keys (merge h base incoming rule)
          ↔ k ∈ dict_keys base ∨ k ∈ dict_keys incoming)
  ∧ merge h [] incoming rule = incoming.
Proof.
  intros Hb Hi. split; [by apply merge_keys|]. split; [by apply merge_NoDup|].
  split; [|by apply merge_into_empty].
  intros k. rewrite merge_keys by done.
  rewrite elem_of_app, list_elem_of_filter, dict_get_None.
  destruct (decide (k ∈ dict_keys base)); tauto.
Qed.

Lemma merge_key_order_witness :
  dict_keys (merge scenario_heap scenario_base scenario_incoming MergeRuleNever) = [20; 36].
Proof.
  exact (proj1 (merge_key_order scenario_heap MergeRuleNever scenario_base
                  scenario_incoming (proj1 scenario_keys) (proj2 scenario_keys))).
Defined.

(** X3: with [MergeRuleAlways] every key of [incoming] ends up holding
    incoming's chunk; with [MergeRuleNever] every key of [base] keeps base's
    chunk, and the keys only [incoming] has are added all the same. *)
Theorem constant_rules (h : heap) (base incoming : chunk_map) :
  NoDup (dict_keys base) → NoDup (dict_keys incoming) →
  (∀ pos new, dict_get pos incoming = Some new →
     dict_get pos (merge h base incoming MergeRuleAlways) = Some new)
  ∧ (∀ pos cur, dict_get pos base = Some cur →
       dict_get pos (merge h base incoming MergeRuleNever) = Some cur)
  ∧ (∀ pos new, dict_get pos incoming = Some new → dict_get pos base = None →
       dict_get pos (merge h base incoming MergeRuleNever) = Some new).
Proof.
  intros Hb Hi. split; [|split].
  - intros pos new Hn. rewrite merge_lookup by done. rewrite Hn.
    by destruct (dict_get pos base).
  - intros pos cur Hc. rewrite merge_lookup by done. rewrite Hc.
    by destruct (dict_get pos incoming).
  - intros pos new Hn Hc. rewrite merge_lookup by done. by rewrite Hc, Hn.
Qed.

Lemma constant_rules_witness :
  dict_get 20 (merge scenario_heap scenario_base scenario_incoming MergeRuleAlways) = Some 1
  ∧ dict_get 20 (merge scenario_heap scenario_base scenario_incoming MergeRuleNever) = Some 0.
Proof.
  destruct (constant_rules scenario_heap scenario_base scenario_incoming
              (proj1 scenario_keys) (proj2 scenario_keys)) as (Ha & Hn & _).
  split; [apply Ha | apply Hn]; reflexivity.
Defined.

(** ** Valid containers: out of decode, through merge *)

Ltac case_ranges :=
  repeat match goal with
         | |- context [(?a <=? ?b)%Z] => destruct (Z.leb_spec a b)
         | |- context [(?a <? ?b)%Z] => destruct (Z.ltb_spec a b)
         end;
  simpl; rewrite ?Bool.andb_false_r, ?Bool.andb_true_r; simpl;
  try reflexivity; try lia.

Section valid_more.
Implicit Types (m base incoming : chunk_map) (h : heap).

Lemma values_key_unique m k1 k2 r :
  NoDup (dict_values m) → (k1, r) ∈ m → (k2, r) ∈ m → k1 = k2.
Proof.
  unfold dict_values. induction m as [|[k v] m IH]; intros Hnd H1 H2.
  - by apply elem_of_nil in H1.
  - rewrite fmap_cons in Hnd. apply NoDup_cons in Hnd as [Hv Hnd]. simpl in Hv.
    assert (Hin : ∀ k', (k', v) ∈ m → False).
    { intros k' Hk'. apply Hv. apply list_elem_of_fmap. by exists (k', v). }
    apply elem_of_cons in H1 as [E1|H1]; apply elem_of_cons in H2 as [E2|H2].
    + congruence.
    + injection E1 as -> ->. destruct (Hin _ H2).
    + injection E2 as -> ->. destruct (Hin _ H1).
    + by apply IH.
Qed.

Lemma values_NoDup_of_keys m :
  NoDup (dict_keys m) →
  (∀ k1 k2 r, (k1, r) ∈ m → (k2, r) ∈ m → k1 = k2) →
  NoDup (dict_values m).
Proof.
  unfold dict_keys, dict_values. induction m as [|[k v] m IH]; intros Hnd Huniq.
  - apply NoDup_nil_2.
  - rewrite fmap_cons in *. apply NoDup_cons in Hnd as [Hk Hnd]. simpl in Hk.
    apply NoDup_cons. split.
    + simpl. intros ([k' v'] & Hv & Hin)%list_elem_of_fmap. simpl in Hv. subst v'.
      assert (k = k') as ->.
      { apply (Huniq k k' v); [apply elem_of_cons; by left|apply elem_of_cons; by right]. }
      apply Hk. apply list_elem_of_fmap. by exists (k', v).
    + apply IH; [done|]. intros k1 k2 r H1 H2.
      apply (Huniq k1 k2 r); apply elem_of_cons; by right.
Qed.

Lemma elem_of_values_inv m r : r ∈ dict_values m → ∃ pos, (pos, r) ∈ m.
Proof.
  unfold dict_values. intros ([pos r'] & -> & Hin)%list_elem_of_fmap. by exists pos.
Qed.

Lemma elem_of_keys_inv m pos : pos ∈ dict_keys m → ∃ r, (pos, r) ∈ m.
Proof.
  unfold dict_keys. intros ([pos' r] & -> & Hin)%list_elem_of_fmap. by exists r.
Qed.

(** Merging two valid containers that share no chunk gives a valid one. *)
Lemma merge_valid h rule base incoming :
  valid_container base h → valid_container incoming h →
  (∀ r, r ∈ dict_values base → r ∉ dict_values incoming) →
  valid_container (merge h base incoming rule) h.
Proof.
  intros Vb Vi Hdisj.
  assert (Hfrom : ∀ r, r ∈ dict_values (merge h base incoming rule) →
            r ∈ dict_values base ∨ r ∈ dict_values incoming).
  { intros r (pos & Hin)%elem_of_values_inv.
    apply merge_entries in Hin as [Hin|Hin]; [left|right]; by eapply elem_of_values. }
  split.
  - apply merge_NoDup, Vb.
  - intros pos (r & Hin)%elem_of_keys_inv.
    apply merge_entries in Hin as [Hin|Hin].
    + eapply (vc_slots _ _ Vb), elem_of_keys, Hin.
    + eapply (vc_slots _ _ Vi), elem_of_keys, Hin.
  - apply values_NoDup_of_keys; [apply merge_NoDup, Vb|].
    intros k1 k2 r H1 H2.
    apply merge_entries in H1 as [H1|H1]; apply merge_entries in H2 as [H2|H2].
    + exact (values_key_unique _ _ _ _ (vc_refs _ _ Vb) H1 H2).
    + destruct (Hdisj r); by eapply elem_of_values.
    + destruct (Hdisj r); by eapply elem_of_values.
    + exact (values_key_unique _ _ _ _ (vc_refs _ _ Vi) H1 H2).
  - intros r [Hr|Hr]%Hfrom; [by apply (vc_live _ _ Vb)|by apply (vc_live _ _ Vi)].
  - intros r [Hr|Hr]%Hfrom; [by apply (vc_count _ _ Vb)|by apply (vc_count _ _ Vi)].
  - intros r [Hr|Hr]%Hfrom; [by apply (vc_payload _ _ Vb)|by apply (vc_payload _ _ Vi)].
  - intros r [Hr|Hr]%Hfrom; [by apply (vc_time _ _ Vb)|by apply (vc_time _ _ Vi)].
Qed.

(** A valid container stays valid when the heap only grows. *)
Lemma valid_prefix m h h' :
  valid_container m h → (∀ r c, h !! r = Some c → h' !! r = Some c) →
  valid_container m h'.
Proof.
  intros V Hpre.
  assert (Hsame : ∀ r, r ∈ dict_values m → r < length h' ∧ deref h' r = deref h r).
  { intros r Hr. pose proof (vc_live _ _ V r Hr) as Hlt.
    apply lookup_lt_is_Some_2 in Hlt as [c Hc]. pose proof (Hpre r c Hc) as Hc'.
    split; [by eapply lookup_lt_Some|].
    unfold deref. by rewrite (list_lookup_total_correct _ _ _ Hc),
      (list_lookup_total_correct _ _ _ Hc'). }
  split; [apply V|apply V|apply V| | | |].
  - intros r Hr. by apply Hsame.
  - intros r Hr. destruct (Hsame r Hr) as [_ ->]. by apply (vc_count _ _ V).
  - intros r Hr. destruct (Hsame r Hr) as [_ ->]. by apply (vc_payload _ _ V).
  - intros r Hr. destruct (Hsame r Hr) as [_ ->]. by apply (vc_time _ _ V).
Qed.

Lemma byte_shift_bit (b s i : Z) :
  (0 ≤ i)%Z →
  Z.testbit (Z.shiftl (Z.land b 255) s) i
  = Z.testbit b (i - s) && ((0 <=? i - s)%Z && (i - s <? 8)%Z).
Proof. intros Hi. by rewrite Z.shiftl_spec, Z.land_spec, testbit_255 by done. Qed.

Lemma be32_range (b0 b1 b2 b3 : Z) : (0 ≤ be32 b0 b1 b2 b3 < 2 ^ 32)%Z.
Proof.
  assert (be32 b0 b1 b2 b3 mod 2 ^ 32 = be32 b0 b1 b2 b3)%Z as <-.
  { apply Z.bits_inj'. intros i Hi. rewrite Z.testbit_mod_pow2 by lia. unfold be32.
    rewrite !Z.lor_spec, !byte_shift_bit, Z.testbit_0_l by done. case_ranges. }
  apply Z.mod_pos_bound. lia.
Qed.

Lemma be24_range (b0 b1 b2 : Z) : (0 ≤ be24 b0 b1 b2 < 2 ^ 24)%Z.
Proof.
  assert (be24 b0 b1 b2 mod 2 ^ 24 = be24 b0 b1 b2)%Z as <-.
  { apply Z.bits_inj'. intros i Hi. rewrite Z.testbit_mod_pow2 by lia. unfold be24.
    rewrite !Z.lor_spec, !byte_shift_bit, Z.testbit_0_l by done. case_ranges. }
  apply Z.mod_pos_bound. lia.
Qed.
End valid_more.

Section decode_more.
Implicit Types (m : chunk_map) (h : heap) (locations timestamps chunk_data_array : list Z).

(** The shape of what the loop of [decode] builds: one fresh chunk per
    key. *)
Lemma read_loop_shape locations timestamps chunk_data_array xs : ∀ m h m' h',
  NoDup xs →
  (∀ i, i ∈ xs → i + 3 < length locations ∧ i + 3 < length timestamps) →
  (∀ i, i ∈ xs → i ∉ dict_keys m) →
  NoDup (dict_keys m) → NoDup (dict_values m) →
  (∀ r, r ∈ dict_values m → r < length h) →
  for_each (read_step locations timestamps chunk_data_array) xs (m, h) = Ok (m', h') →
  NoDup (dict_keys m') ∧ NoDup (dict_values m')
  ∧ (∀ r, r ∈ dict_values m' → r < length h')
  ∧ (∀ r, r ∈ dict_values m' → r ∈ dict_values m ∨ length h ≤ r).
Proof.
  induction xs as [|i xs IH]; intros m h m' h' Hxs Hfit Hnew Hk Hv Hlive Hrun.
  - injection Hrun as <- <-. repeat split; auto.
  - apply NoDup_cons in Hxs as [Hi Hxs].
    destruct (Hfit i) as [Hl Ht]; [apply elem_of_cons; by left|].
    assert (Hfit' : ∀ j, j ∈ xs → j + 3 < length locations ∧ j + 3 < length timestamps).
    { intros j Hj. apply Hfit, elem_of_cons. by right. }
    rewrite for_each_cons, read_step_eq in Hrun by done. unfold bind in Hrun.
    set (c := entry_chunk locations timestamps chunk_data_array i) in *.
    destruct (Z.eqb_spec (size c) 0) as [Hz|Hnz].
    + apply (IH m h m' h'); try done.
      intros j Hj. apply Hnew, elem_of_cons. by right.
    + assert (Hfresh : i ∉ dict_keys m) by (apply Hnew, elem_of_cons; by left).
      rewrite dict_set_absent in Hrun by done.
      assert (Hlen : length (h ++ [c]) = S (length h)).
      { rewrite length_app. simpl. lia. }
      destruct (IH (m ++ [(i, length h)]) (h ++ [c]) m' h') as (K & V & L & F); try done.
      * intros j Hj. unfold dict_keys. rewrite fmap_app. simpl.
        intros [Hin|Hin]%elem_of_app.
        -- revert Hin. apply Hnew, elem_of_cons. by right.
        -- apply list_elem_of_singleton in Hin. by subst.
      * unfold dict_keys. rewrite fmap_app. simpl. apply NoDup_app. split; [done|].
        split; [|apply NoDup_singleton].
        intros k Hin Hk'%list_elem_of_singleton. subst. by apply Hfresh.
      * unfold dict_values. rewrite fmap_app. simpl. apply NoDup_app. split; [done|].
        split; [|apply NoDup_singleton].
        intros r Hin Hr%list_elem_of_singleton. subst. apply Hlive in Hin. lia.
      * intros r. unfold dict_values. rewrite fmap_app. simpl.
        intros [Hin|Hin]%elem_of_app; [apply Hlive in Hin; lia|].
        apply list_elem_of_singleton in Hin. lia.
      * repeat split; try done. intros r Hr. destruct (F r Hr) as [Hin|Hge]; [|lia].
        unfold dict_values in Hin. rewrite fmap_app in Hin. simpl in Hin.
        apply elem_of_app in Hin as [Hin|Hin]; [by left|].
        apply list_elem_of_singleton in Hin. right. simpl in Hin. lia.
Qed.

(** Per table position, what [decode] holds. *)
Lemma decode_lookup bytes_data h m h' pos :
  (8192 ≤ len bytes_data)%Z → decode bytes_data h = Ok (m, h') →
  pos < 4096 → (∃ k, pos = k * 4) →
  (size (table_entry bytes_data pos) = 0%Z ∧ dict_get pos m = None)
  ∨ (size (table_entry bytes_data pos) ≠ 0%Z
     ∧ ∃ r, dict_get pos m = Some r ∧ h' !! r = Some (table_entry bytes_data pos)).
Proof.
  intros Hlen Hdec Hlt Hk.
  destruct (decode_content bytes_data h Hlen) as (m0 & h0 & Hdec' & _ & Hin & Hall).
  rewrite Hdec in Hdec'. injection Hdec' as <- <-.
  destruct (decide (size (table_entry bytes_data pos) = 0%Z)) as [Hz|Hnz].
  - left. split; [done|]. destruct (dict_get pos m) as [r|] eqn:Hget; [|done].
    by destruct (Hin pos r Hget) as (_ & Hnz & _).
  - right. split; [done|]. by apply Hall.
Qed.

Lemma file_slot_decoded bytes_data h m h' pos :
  (8192 ≤ len bytes_data)%Z → decode bytes_data h = Ok (m, h') →
  pos < 4096 → (∃ k, pos = k * 4) →
  slot_content h' m pos = file_slot bytes_data pos.
Proof.
  intros Hlen Hdec Hlt Hk. unfold slot_content, file_slot. cbv zeta.
  destruct (decode_lookup bytes_data h m h' pos Hlen Hdec Hlt Hk)
    as [[Hz ->]|(Hnz & r & -> & Hc)].
  - by rewrite Hz.
  - apply Z.eqb_neq in Hnz. rewrite Hnz.
    apply list_lookup_total_correct in Hc. rewrite <- Hc. reflexivity.
Qed.

(** Decoding a well-formed region file gives a valid container of fresh
    chunks, and leaves the chunks already in the heap alone. *)
Lemma decode_valid bytes_data h :
  well_formed_region bytes_data →
  ∃ m h',
    decode bytes_data h = Ok (m, h')
    ∧ valid_container m h'
    ∧ (∀ r c, h !! r = Some c → h' !! r = Some c)
    ∧ (∀ r, r ∈ dict_values m → length h ≤ r).
Proof.
  intros [Hlen Hwf].
  destruct (decode_content bytes_data h Hlen) as (m & h' & Hdec & Hpre & Hin & _).
  exists m, h'. split; [done|].
  assert (Hshape : NoDup (dict_keys m) ∧ NoDup (dict_values m)
            ∧ (∀ r, r ∈ dict_values m → r < length h')
            ∧ (∀ r, r ∈ dict_values m → r ∈ dict_values (@nil (nat * ref)) ∨ length h ≤ r)).
  { pose proof (len_slice bytes_data 0 sector_size ltac:(lia)
                  ltac:(unfold sector_size; lia)) as HL.
    pose proof (len_slice bytes_data sector_size (sector_size * 2)
                  ltac:(unfold sector_size; lia) ltac:(unfold sector_size; lia)) as HT.
    unfold sector_size in HL, HT. unfold len in HL, HT, Hlen.
    unfold decode in Hdec.
    eapply (read_loop_shape _ _ _ _ [] h m h'); [apply range_step4_NoDup| | | | | |exact Hdec].
    - intros i (Hi & k & ->)%elem_of_range_step4. unfold sector_size in *. lia.
    - intros i _ Hi. by apply elem_of_nil in Hi.
    - apply NoDup_nil_2.
    - apply NoDup_nil_2.
    - intros r Hr. by apply elem_of_nil in Hr. }
  destruct Hshape as (K & V & L & F).
  assert (Hchunk : ∀ r, r ∈ dict_values m →
            ∃ k, k < 1024 ∧ size (table_entry bytes_data (k * 4)) ≠ 0%Z
                 ∧ deref h' r = table_entry bytes_data (k * 4)).
  { intros r (pos & Hr)%elem_of_values_inv.
    destruct (Hin pos r (elem_dict_get _ _ _ K Hr)) as ((Hlt & k & ->) & Hnz & Hc).
    exists k. split; [lia|]. split; [done|].
    unfold deref. by apply list_lookup_total_correct. }
  split; [|split; [done|]].
  - split; [done| |done|done| | |].
    + intros pos (r & Hr)%elem_of_keys_inv.
      destruct (Hin pos r (elem_dict_get _ _ _ K Hr)) as ((Hlt & k & ->) & _).
      exists k. split; [lia|done].
    + intros r (k & Hk & Hnz & ->)%Hchunk.
      pose proof (land_255_bounds (slice bytes_data 0 sector_size !!! (k * 4 + 3))) as Hb.
      change (Z.land (slice bytes_data 0 sector_size !!! (k * 4 + 3)) 255)
        with (size (table_entry bytes_data (k * 4))) in Hb. lia.
    + intros r (k & Hk & Hnz & ->)%Hchunk.
      destruct (Hwf k Hk Hnz) as [Hloc Hend].
      by apply table_entry_payload.
    + intros r (k & Hk & Hnz & ->)%Hchunk. apply be32_range.
  - intros r Hr. destruct (F r Hr) as [Hnil|Hge]; [|done]. by apply elem_of_nil in Hnil.
Qed.
End decode_more.

(** X4: a well-formed region file decodes to a container with valid slots:
    keys are slot positions, each once, every chunk is a fresh object with a
    count in [1, 255], a whole payload and a 32-bit timestamp; chunks that
    were in the heap before are not touched. *)
Theorem decode_gives_valid (bytes_data : list Z) (h : heap) :
  well_formed_region bytes_data →
  ∃ m h',
    decode bytes_data h = Ok (m, h')
    ∧ valid_container m h'
    ∧ (∀ r c, h !! r = Some c → h' !! r = Some c)
    ∧ (∀ r, r ∈ dict_values m → length h ≤ r).
Proof. apply decode_valid. Qed.

(** X5: merging two containers with valid slots that share no chunk object
    gives a container with valid slots, which [encode] therefore accepts. *)
Theorem merge_keeps_valid (h : heap) (rule : MergeRule) (base incoming : chunk_map) :
  valid_container base h → valid_container incoming h →
  (∀ r, r ∈ dict_values base → r ∉ dict_values incoming) →
  valid_container (merge h base incoming rule) h
  ∧ is_ok (encode (merge h base incoming rule) h) = true.
Proof.
  intros Vb Vi Hdisj.
  pose proof (merge_valid h rule base incoming Vb Vi Hdisj) as Vm.
  split; [done|]. pose proof (encode_bytes _ _ Vm) as Henc. cbv zeta in Henc.
  by rewrite Henc.
Qed.

Lemma region_with_slot0_shape (ts b : Z) : well_formed_region (region_with_slot0 ts b).
Proof.
  unfold region_with_slot0.
  set (T1 := ([0; 0; 2; 1] ++ replicate 4092 0)%Z).
  set (T2 := ([0; 0; 0; ts] ++ replicate 4092 0)%Z).
  assert (L1 : length T1 = Z.to_nat sector_size).
  { unfold T1, sector_size. rewrite length_app, length_replicate. simpl length. lia. }
  assert (L2 : length T2 = Z.to_nat sector_size).
  { unfold T2, sector_size. rewrite length_app, length_replicate. simpl length. lia. }
  destruct (slices_of_encoded T1 T2 (payload 1 b) L1 L2) as (S1 & S2 & S3).
  assert (Hlen : len (T1 ++ T2 ++ payload 1 b) = 12288%Z).
  { rewrite !len_app. unfold payload. rewrite len_replicate by (unfold sector_size; lia).
    unfold len. rewrite L1, L2. unfold sector_size. lia. }
  split; [lia|]. intros k Hk. cbv zeta. unfold table_entry. rewrite S1, S2, S3.
  unfold entry_chunk. cbn [size location]. rewrite Hlen.
  destruct k as [|k].
  - intros _.
    assert (Hloc : be24 (T1 !!! (0 * 4)) (T1 !!! (0 * 4 + 1)) (T1 !!! (0 * 4 + 2)) = 2%Z)
      by (unfold T1; by_evaluation).
    assert (Hsize : Z.land (T1 !!! (0 * 4 + 3)) 255 = 1%Z) by (unfold T1; by_evaluation).
    rewrite Hloc, Hsize. lia.
  - intros Hnz. exfalso. apply Hnz. unfold T1.
    rewrite lookup_total_app_r by (simpl length; lia).
    rewrite lookup_total_replicate_2 by (simpl length; lia). reflexivity.
Qed.

Lemma region_with_slot0_well_formed :
  well_formed_region (region_with_slot0 100 7) ∧ well_formed_region (region_with_slot0 50 9).
Proof. split; apply region_with_slot0_shape. Qed.

Lemma decode_gives_valid_witness :
  ∃ m h', decode (region_with_slot0 100 7) [] = Ok (m, h') ∧ valid_container m h'.
Proof.
  destruct (decode_gives_valid (region_with_slot0 100 7) []
              (proj1 region_with_slot0_well_formed)) as (m & h' & Hdec & Hv & _).
  exists m, h'. exact (conj Hdec Hv).
Defined.

Lemma disjoint_valid :
  valid_container disjoint_base disjoint_heap
  ∧ valid_container disjoint_incoming disjoint_heap.
Proof.
  assert (Hone : ∀ (P : nat → Prop) (x : nat) (l : list nat), l = [x] → P x →
            ∀ y, y ∈ l → P y).
  { intros P x l -> Hx y Hy%list_elem_of_singleton. by subst. }
  split; split.
  - apply NoDup_singleton.
  - apply (Hone _ 20 _ eq_refl). exists 5. lia.
  - apply NoDup_singleton.
  - apply (Hone _ 0 _ eq_refl). simpl. lia.
  - apply (Hone _ 0 _ eq_refl). vm_compute. split; discriminate.
  - apply (Hone _ 0 _ eq_refl). unfold whole_payload. by_evaluation.
  - apply (Hone _ 0 _ eq_refl). vm_compute. split; [discriminate|reflexivity].
  - apply NoDup_singleton.
  - apply (Hone _ 36 _ eq_refl). exists 9. lia.
  - apply NoDup_singleton.
  - apply (Hone _ 1 _ eq_refl). simpl. lia.
  - apply (Hone _ 1 _ eq_refl). vm_compute. split; discriminate.
  - apply (Hone _ 1 _ eq_refl). unfold whole_payload. by_evaluation.
  - apply (Hone _ 1 _ eq_refl). vm_compute. split; [discriminate|reflexivity].
Qed.

Lemma merge_keeps_valid_witness :
  valid_container (merge disjoint_heap disjoint_base disjoint_incoming MergeRuleAlways)
                  disjoint_heap.
Proof.
  refine (proj1 (merge_keeps_valid disjoint_heap MergeRuleAlways disjoint_base
                   disjoint_incoming (proj1 disjoint_valid) (proj2 disjoint_valid) _)).
  intros r Hr%list_elem_of_singleton Hr'%list_elem_of_singleton. simpl in Hr, Hr'. lia.
Defined.

Section files_more.

Lemma slot_content_prefix m h h' pos :
  (∀ r, r ∈ dict_values m → r < length h) →
  (∀ r c, h !! r = Some c → h' !! r = Some c) →
  slot_content h' m pos = slot_content h m pos.
Proof.
  intros Hlive Hpre. unfold slot_content.
  destruct (dict_get pos m) as [r|] eqn:Hget; [|reflexivity]. simpl.
  assert (Hr : r < length h).
  { apply Hlive. exact (elem_of_values _ _ _ (dict_get_Some_elem _ _ _ Hget)). }
  pose proof (list_lookup_lookup_total_lt h r Hr) as Hc. pose proof (Hpre _ _ Hc) as Hc'.
  apply list_lookup_total_correct in Hc'. unfold deref. by rewrite Hc'.
Qed.

(** What [encode] writes is a file [decode] reads back slot by slot. *)
Lemma encoded_file m h :
  valid_container m h →
  ∃ h1 out,
    encode m h = Ok (h1, out)
    ∧ well_formed_region out
    ∧ ∀ pos, pos < 4096 → (∃ k, pos = k * 4) →
        file_slot out pos = slot_content h m pos.
Proof.
  intros Hv.
  pose proof (encode_bytes m h Hv) as Henc. cbv zeta in Henc.
  pose proof (valid_laid_out m h Hv) as Hlo.
  set (h1 := update_chunk_locations m h) in *.
  set (cs := view h1 m) in *.
  set (out := location_table cs ++ timestamp_table cs ++ payloads cs) in *.
  assert (Hsize : ∀ e, e ∈ cs → (0 ≤ size e.2)%Z).
  { intros e He. pose proof (lo_count cs Hlo e He). lia. }
  assert (Hlen : len out = (8192 + total cs * 4096)%Z).
  { unfold out. rewrite (len_encoded cs Hlo), (max_extent_laid_out cs Hlo).
    reflexivity. }
  destruct (slices_of_encoded (location_table cs) (timestamp_table cs) (payloads cs)
              (length_location_table cs) (length_timestamp_table cs)) as (S1 & S2 & S3).
  assert (Hentry : ∀ pos, table_entry out pos
            = entry_chunk (location_table cs) (timestamp_table cs) (payloads cs) pos).
  { intros pos. unfold table_entry, out. by rewrite S1, S2, S3. }
  assert (Hsame : ∀ r, same_content (deref h1 r) (deref h r)).
  { intros r. apply (walk_content (dict_values m) 2 h r). }
  exists h1, out. split; [exact Henc|]. split.
  - split.
    { rewrite Hlen. pose proof (total_nonneg cs Hsize). lia. }
    intros k Hk. cbv zeta. intros Hnz.
    destruct (decide (k * 4 ∈ cs.*1)) as [Hin|Hout].
    + apply list_elem_of_fmap in Hin as (e & Hpos & He).
      rewrite Hentry, Hpos, (entry_of_key cs e Hlo He).
      destruct (list_elem_of_split _ _ He) as (cs1 & cs2 & Hsplit).
      pose proof Hlo as Hlo'. rewrite Hsplit in Hlo'.
      destruct (laid_out_extent cs1 e cs2 Hlo') as (Hloc & H0 & _).
      assert (total cs = total cs1 + size e.2 + total cs2)%Z as Htot.
      { rewrite Hsplit, total_app. simpl. lia. }
      assert (0 ≤ total cs2)%Z.
      { apply total_nonneg. intros e' He'. apply Hsize. rewrite Hsplit.
        apply elem_of_app. right. by apply elem_of_cons; right. }
      rewrite Hlen. lia.
    + exfalso. apply Hnz. rewrite Hentry.
      apply (entry_of_free cs (k * 4) k Hlo eq_refl); [lia|exact Hout].
  - intros pos Hlt (k & Hk). unfold file_slot, slot_content. cbv zeta.
    destruct (dict_get pos m) as [r|] eqn:Hget.
    + assert (Hcs : (pos, deref h1 r) ∈ cs).
      { apply elem_of_view. exists r. split; [|reflexivity].
        exact (dict_get_Some_elem _ _ _ Hget). }
      pose proof (entry_of_key cs (pos, deref h1 r) Hlo Hcs) as Hkey. simpl in Hkey.
      pose proof (lo_count cs Hlo _ Hcs) as Hcount. simpl in Hcount.
      rewrite Hentry, Hkey.
      destruct (Z.eqb_spec (size (deref h1 r)) 0) as [Hz|_]; [lia|].
      simpl. destruct (Hsame r) as (-> & _ & ->). reflexivity.
    + assert (Hz : size (table_entry out pos) = 0%Z).
      { rewrite Hentry. apply (entry_of_free cs pos k Hlo Hk Hlt).
        unfold cs. rewrite view_keys. by apply dict_get_None. }
      by rewrite Hz.
Qed.

(** One pair of [RegionFinder.merge], for two files [decode] accepts. *)
Lemma merge_pair_files rule (fs : RegionFinder.filesystem) pair tb sb :
  fs !! to_file pair = Some tb → fs !! from_file pair = Some sb →
  well_formed_region tb → well_formed_region sb →
  ∃ out,
    RegionFinder.merge_pair rule fs pair = Ok (<[to_file pair := out]> fs)
    ∧ well_formed_region out
    ∧ ∀ k, k < 1024 → file_slot out (k * 4) = merged_slot rule tb sb (k * 4).
Proof.
  intros Hto Hfrom Wt Ws.
  destruct (decode_valid tb [] Wt) as (m1 & h1 & Hd1 & V1 & _ & _).
  destruct (decode_valid sb h1 Ws) as (m2 & h2 & Hd2 & V2 & Hpre & Hnew).
  pose proof (valid_prefix m1 h1 h2 V1 Hpre) as V1'.
  assert (Hdisj : ∀ r, r ∈ dict_values m1 → r ∉ dict_values m2).
  { intros r Hr1 Hr2. pose proof (vc_live _ _ V1 r Hr1). pose proof (Hnew r Hr2). lia. }
  pose proof (merge_valid h2 rule m1 m2 V1' V2 Hdisj) as Vm.
  destruct (encoded_file _ _ Vm) as (h3 & out & Henc & Wout & Hslots).
  exists out. split; [|split; [exact Wout|]].
  - unfold RegionFinder.merge_pair, RegionFinder.read_file.
    rewrite Hto. rewrite Hd1. unfold bind at 1. simpl.
    rewrite Hfrom. rewrite Hd2. unfold bind at 1. simpl.
    rewrite Henc. reflexivity.
  - intros k Hk. rewrite Hslots; [|lia|by exists k].
    assert (Hpos : k * 4 < 4096) by lia.
    assert (Hex : ∃ k', k * 4 = k' * 4) by (by exists k).
    destruct Wt as [Lt _]. destruct Ws as [Ls _].
    unfold merged_slot, slot_content.
    rewrite (merge_lookup h2 rule m1 m2 (k * 4) (vc_keys _ _ V1) (vc_keys _ _ V2)).
    unfold file_slot. cbv zeta.
    destruct (decode_lookup tb [] m1 h1 (k * 4) Lt Hd1 Hpos Hex)
      as [(Hz1 & ->)|(Hnz1 & r1 & -> & Hc1)];
    destruct (decode_lookup sb h1 m2 h2 (k * 4) Ls Hd2 Hpos Hex)
      as [(Hz2 & ->)|(Hnz2 & r2 & -> & Hc2)].
    + by rewrite Hz1, Hz2.
    + rewrite Hz1. apply Z.eqb_neq in Hnz2. rewrite Hnz2. simpl.
      apply list_lookup_total_correct in Hc2. unfold deref. by rewrite Hc2.
    + rewrite Hz2. apply Z.eqb_neq in Hnz1. rewrite Hnz1. simpl.
      apply Hpre, list_lookup_total_correct in Hc1. unfold deref. by rewrite Hc1.
    + apply Z.eqb_neq in Hnz1, Hnz2. rewrite Hnz1, Hnz2. simpl.
      apply Hpre, list_lookup_total_correct in Hc1.
      apply list_lookup_total_correct in Hc2. unfold deref. rewrite Hc1, Hc2.
      destruct (is_allowed_to_merge _ _ _); simpl; by rewrite ?Hc1, ?Hc2.
Qed.

End files_more.

(** X6: merging one pair of files that [decode] accepts rewrites the target
    file and no other.  The new file is again one [decode] accepts, and each
    of its 1024 slots holds the timestamp and payload the rule selects: the
    source's where only the source has the slot or the rule permits the
    replacement, the target's otherwise, and nothing where neither file has
    the slot. *)
Theorem merge_files_slotwise (rule : MergeRule) (fs : RegionFinder.filesystem)
    (pair : FilePair) (tb sb : list Z) :
  fs !! to_file pair = Some tb → fs !! from_file pair = Some sb →
  well_formed_region tb → well_formed_region sb →
  ∃ out,
    RegionFinder.merge [pair] rule fs = <[to_file pair := out]> fs
    ∧ well_formed_region out
    ∧ ∀ k, k < 1024 → file_slot out (k * 4) = merged_slot rule tb sb (k * 4).
Proof.
  intros Hto Hfrom Wt Ws.
  destruct (merge_pair_files rule fs pair tb sb Hto Hfrom Wt Ws) as (out & Hm & Wout & Hs).
  exists out. split; [|exact (conj Wout Hs)].
  unfold RegionFinder.merge, RegionFinder.merge_one. simpl. by rewrite Hm.
Qed.

Lemma merge_files_slotwise_witness :
  ∃ out,
    RegionFinder.merge [mkFilePair "w2/region/r.0.0.mca" "w1/region/r.0.0.mca"]
                       MergeRuleNewestChunks two_worlds_fs
    = <["w1/region/r.0.0.mca" := out]> two_worlds_fs
    ∧ file_slot out 0 = Some (100%Z, payload 1 7).
Proof.
  assert (Hto : two_worlds_fs !! "w1/region/r.0.0.mca" = Some (region_with_slot0 100 7))
    by by_evaluation.
  assert (Hfrom : two_worlds_fs !! "w2/region/r.0.0.mca" = Some (region_with_slot0 50 9))
    by by_evaluation.
  destruct (merge_files_slotwise MergeRuleNewestChunks two_worlds_fs
              (mkFilePair "w2/region/r.0.0.mca" "w1/region/r.0.0.mca") _ _ Hto Hfrom
              (proj1 region_with_slot0_well_formed) (proj2 region_with_slot0_well_formed))
    as (out & Hm & _ & Hs).
  exists out. split; [exact Hm|].
  refine (eq_trans (Hs 0 _) _); [lia|by_evaluation].
Defined.

Section slices_more.
Local Open Scope Z_scope.

Lemma clamp_range (n i : Z) : 0 ≤ n → 0 ≤ clamp n i ≤ n.
Proof. intros Hn. unfold clamp. destruct (Z.ltb_spec i 0); lia. Qed.

Lemma clamp_inside (n i : Z) : 0 ≤ i ≤ n → clamp n i = i.
Proof. intros Hi. unfold clamp. destruct (Z.ltb_spec i 0); lia. Qed.

Lemma slice_from_drop {A} (l : list A) (o : Z) :
  0 ≤ o ≤ len l → slice_from l o = drop (Z.to_nat o) l.
Proof.
  intros Ho. unfold slice_from, slice.
  rewrite (clamp_inside (len l) o Ho), (clamp_inside (len l) (len l)) by lia.
  apply take_ge. rewrite length_drop. unfold len in *. lia.
Qed.

(** A slice of [l[o:]] in the positions of [l]. *)
Lemma slice_of_slice_from {A} (l : list A) (o a b : Z) :
  0 ≤ o ≤ len l →
  slice (slice_from l o) a b
  = slice l (o + clamp (len l - o) a) (o + clamp (len l - o) b).
Proof.
  intros Ho. rewrite (slice_from_drop l o Ho).
  assert (Hlen : len (drop (Z.to_nat o) l) = len l - o).
  { unfold len in *. rewrite length_drop. lia. }
  unfold slice at 1 2. rewrite Hlen.
  pose proof (clamp_range (len l - o) a ltac:(lia)) as Ha.
  pose proof (clamp_range (len l - o) b ltac:(lia)) as Hb.
  rewrite (clamp_inside (len l) (o + clamp (len l - o) a)) by lia.
  rewrite (clamp_inside (len l) (o + clamp (len l - o) b)) by lia.
  rewrite drop_drop.
  replace (Z.to_nat o + Z.to_nat (clamp (len l - o) a))%nat
    with (Z.to_nat (o + clamp (len l - o) a)) by lia.
  f_equal. lia.
Qed.

Lemma slice_clamped {A} (l : list A) (a b : Z) :
  0 ≤ a → 0 ≤ b →
  slice l (Z.min a (len l)) (Z.min b (len l)) = slice l a b.
Proof.
  intros Ha Hb. unfold slice, clamp.
  pose proof (len_nonneg l).
  destruct (Z.ltb_spec (Z.min a (len l)) 0); [lia|].
  destruct (Z.ltb_spec (Z.min b (len l)) 0); [lia|].
  destruct (Z.ltb_spec a 0); [lia|]. destruct (Z.ltb_spec b 0); [lia|].
  replace (Z.min (Z.min a (len l)) (len l)) with (Z.min a (len l)) by lia.
  replace (Z.min (Z.min b (len l)) (len l)) with (Z.min b (len l)) by lia.
  reflexivity.
Qed.

Lemma table_entry_offsets (bytes_data : list Z) (pos : nat) :
  8192 ≤ len bytes_data →
  let c := table_entry bytes_data pos in
  (2 ≤ location c →
   chunk_data c
   = slice bytes_data (location c * 4096) ((location c + size c) * 4096))
  ∧ (location c = 0 → size c = 1 → 16384 ≤ len bytes_data →
     chunk_data c = slice bytes_data (len bytes_data - 8192) (len bytes_data - 4096)).
Proof.
  intros Hlen. cbv zeta.
  set (c := table_entry bytes_data pos).
  assert (Hsz : 0 ≤ size c) by apply land_255_bounds.
  assert (Hdata : chunk_data c
    = slice (slice_from bytes_data (sector_size * 2))
            ((location c - 2) * sector_size) ((location c + size c - 2) * sector_size))
    by reflexivity.
  rewrite Hdata, slice_of_slice_from by (unfold sector_size; lia).
  unfold sector_size. split.
  - intros Hloc. unfold clamp.
    destruct (Z.ltb_spec ((location c - 2) * 4096) 0); [lia|].
    destruct (Z.ltb_spec ((location c + size c - 2) * 4096) 0); [lia|].
    rewrite <- (slice_clamped bytes_data (location c * 4096)) by lia.
    f_equal; lia.
  - intros Hloc Hsize Hlong. rewrite Hloc, Hsize. unfold clamp. simpl.
    f_equal; lia.
Qed.

End slices_more.

(** X7: a chunk that [decode] finds at a sector offset of 2 or more holds
    the bytes of the file from byte [offset * 4096] up to byte
    [(offset + count) * 4096], cut off at the end of the file. *)
Theorem decode_payload_offsets (bytes_data : list Z) (h : heap) (m : chunk_map)
    (h' : heap) (pos : nat) (r : ref) :
  (8192 ≤ len bytes_data)%Z → decode bytes_data h = Ok (m, h') →
  dict_get pos m = Some r → (2 ≤ location (deref h' r))%Z →
  chunk_data (deref h' r)
  = slice bytes_data (location (deref h' r) * 4096)
          ((location (deref h' r) + size (deref h' r)) * 4096).
Proof.
  intros Hlen Hdec Hget Hloc.
  destruct (decode_content bytes_data h Hlen) as (m0 & h0 & Hdec0 & _ & Hin & _).
  rewrite Hdec in Hdec0. injection Hdec0 as <- <-.
  destruct (Hin pos r Hget) as (_ & _ & Hc).
  apply list_lookup_total_correct in Hc. unfold deref in *. rewrite Hc in *.
  by apply (table_entry_offsets bytes_data pos Hlen).
Qed.

Lemma decode_payload_offsets_witness :
  chunk_data (deref [mkChunk 100 2 1 (payload 1 7)] 0)
  = slice (region_with_slot0 100 7) (2 * 4096) ((2 + 1) * 4096).
Proof.
  apply (decode_payload_offsets (region_with_slot0 100 7) [] [(0, 0)]
           [mkChunk 100 2 1 (payload 1 7)] 0 0).
  - vm_compute. discriminate.
  - by_evaluation.
  - reflexivity.
  - vm_compute. discriminate.
Defined.

(** X8: a table entry with sector offset 0 and sector count 1 is not
    rejected: in a file of at least four sectors [decode] gives it the
    last sector but one of the file as payload. *)
Theorem decode_offset_zero (bytes_data : list Z) (h : heap) (m : chunk_map)
    (h' : heap) (pos : nat) (r : ref) :
  (16384 ≤ len bytes_data)%Z → decode bytes_data h = Ok (m, h') →
  dict_get pos m = Some r →
  location (deref h' r) = 0%Z → size (deref h' r) = 1%Z →
  chunk_data (deref h' r)
  = slice bytes_data (len bytes_data - 8192) (len bytes_data - 4096).
Proof.
  intros Hlen Hdec Hget Hloc Hsize.
  assert (Hlen' : (8192 ≤ len bytes_data)%Z) by lia.
  destruct (decode_content bytes_data h Hlen') as (m0 & h0 & Hdec0 & _ & Hin & _).
  rewrite Hdec in Hdec0. injection Hdec0 as <- <-.
  destruct (Hin pos r Hget) as (_ & _ & Hc).
  apply list_lookup_total_correct in Hc. unfold deref in *. rewrite Hc in *.
  by apply (table_entry_offsets bytes_data pos Hlen').
Qed.

Lemma decode_offset_zero_witness :
  chunk_data (deref [mkChunk 0 0 1 (payload 1 5)] 0) = payload 1 5
  ∧ chunk_data (deref [mkChunk 0 0 1 (payload 1 5)] 0)
    = slice region_offset0 (len region_offset0 - 8192) (len region_offset0 - 4096).
Proof.
  split; [reflexivity|].
  apply (decode_offset_zero region_offset0 [] [(0, 0)] [mkChunk 0 0 1 (payload 1 5)] 0 0).
  - vm_compute. discriminate.
  - by_evaluation.
  - reflexivity.
  - reflexivity.
  - reflexivity.
Defined.

Section cells_more.

Lemma low_byte (b : Z) : Z.land b 255 = (b mod 256)%Z.
Proof. change 255%Z with (Z.ones 8). by rewrite Z.land_ones. Qed.

Lemma byte_of_mod (x s p : Z) :
  (0 ≤ s)%Z → (s + 8 ≤ p)%Z →
  Z.land (Z.shiftr (x mod 2 ^ p) s) 255 = Z.land (Z.shiftr x s) 255.
Proof.
  intros Hs Hp. apply Z.bits_inj'. intros i Hi.
  rewrite !Z.land_spec, !Z.shiftr_spec, testbit_255 by done.
  destruct (Z.ltb_spec i 8) as [Hlt|Hge].
  - by rewrite Z.mod_pow2_bits_low by lia.
  - by rewrite !Bool.andb_false_r.
Qed.

Lemma be24_mod (x : Z) :
  be24 (Z.land (Z.shiftr x 16) 255) (Z.land (Z.shiftr x 8) 255) (Z.land x 255)
  = (x mod 2 ^ 24)%Z.
Proof.
  rewrite <- (be24_bytes (x mod 2 ^ 24)) by (apply Z.mod_pos_bound; lia).
  rewrite <- (Z.shiftr_0_r x) at 3. rewrite <- (Z.shiftr_0_r (x mod 2 ^ 24)) at 3.
  by rewrite !(byte_of_mod x _ 24) by lia.
Qed.

Lemma be32_mod (x : Z) :
  be32 (Z.land (Z.shiftr x 24) 255) (Z.land (Z.shiftr x 16) 255)
       (Z.land (Z.shiftr x 8) 255) (Z.land x 255)
  = (x mod 2 ^ 32)%Z.
Proof.
  rewrite <- (be32_bytes (x mod 2 ^ 32)) by (apply Z.mod_pos_bound; lia).
  rewrite <- (Z.shiftr_0_r x) at 4. rewrite <- (Z.shiftr_0_r (x mod 2 ^ 32)) at 4.
  by rewrite !(byte_of_mod x _ 32) by lia.
Qed.

Lemma set_location_raise arr pos c :
  length arr ≤ pos + 3 → set_location arr pos c = Raise IndexError.
Proof.
  intros Hlen. unfold set_location, setitem, bind.
  repeat (destruct (decide _) as [?|?]; rewrite ?length_insert in *;
          try reflexivity; try lia).
Qed.

Lemma set_timestamp_raise arr pos c :
  length arr ≤ pos + 3 → set_timestamp arr pos c = Raise IndexError.
Proof.
  intros Hlen. unfold set_timestamp, setitem, bind.
  repeat (destruct (decide _) as [?|?]; rewrite ?length_insert in *;
          try reflexivity; try lia).
Qed.

Lemma max_pos_grows cs : ∀ a, (a ≤ foldl raise_max_pos a cs)%Z.
Proof.
  induction cs as [|e cs IH]; intros a; simpl; [lia|].
  etrans; [|apply IH]. unfold raise_max_pos.
  destruct (Z.gtb_spec ((size e.2 + location e.2 - 2) * sector_size) a); lia.
Qed.

Lemma join_ok locations timestamps data_list max_pos :
  (0 ≤ max_pos)%Z → ∃ res, join locations timestamps data_list max_pos = Ok res.
Proof.
  intros Hmax. unfold join, bytearray.
  pose proof (len_nonneg locations). pose proof (len_nonneg timestamps).
  destruct (Z.ltb_spec (len locations + len timestamps + max_pos) 0); [lia|].
  simpl. by eexists.
Qed.

(** The loop of [write] on tables of 4096 bytes: it runs through when
    every key leaves room for its four bytes, and stops with [IndexError]
    at the first key that does not. *)
Lemma write_loop_cases cs : ∀ st,
  length (ws_locations st) = 4096 → length (ws_timestamps st) = 4096 →
  ((∀ e, e ∈ cs → e.1 + 3 < 4096) →
   ∃ st', for_each (λ st e, write_chunk st e.1 e.2) cs st = Ok st'
          ∧ (ws_max_pos st ≤ ws_max_pos st')%Z)
  ∧ ((∃ e, e ∈ cs ∧ 4096 ≤ e.1 + 3) →
     for_each (λ st e, write_chunk st e.1 e.2) cs st = Raise IndexError).
Proof.
  induction cs as [|e cs IH]; intros st Hl Ht.
  - split.
    + intros _. exists st. split; [reflexivity|lia].
    + intros (e & He & _). by apply elem_of_nil in He.
  - rewrite for_each_cons.
    destruct (Nat.lt_ge_cases (e.1 + 3) 4096) as [Hin|Hout].
    + rewrite write_chunk_eq by lia. unfold bind.
      set (st1 := mkWS _ _ _ _).
      assert (Hl1 : length (ws_locations st1) = 4096).
      { unfold st1, put_location. cbn [ws_locations]. by rewrite length_put4. }
      assert (Ht1 : length (ws_timestamps st1) = 4096).
      { unfold st1, put_timestamp. cbn [ws_timestamps]. by rewrite length_put4. }
      destruct (IH st1 Hl1 Ht1) as [IHok IHraise]. split.
      * intros Hall. destruct IHok as (st' & Hst' & Hmax).
        { intros e' He'. apply Hall, elem_of_cons. by right. }
        exists st'. split; [exact Hst'|]. etrans; [|exact Hmax].
        unfold st1. cbn [ws_max_pos]. apply (max_pos_grows [e]).
      * intros (e' & He' & Hbig). apply IHraise.
        apply elem_of_cons in He' as [->|He']; [lia|]. by exists e'.
    + assert (Hraise : write_chunk st e.1 e.2 = Raise IndexError).
      { unfold write_chunk. rewrite set_location_raise by lia. reflexivity. }
      rewrite Hraise. split; [|reflexivity].
      intros Hall. specialize (Hall e (list_elem_of_here _ _)). lia.
Qed.

Lemma encode_cases m h :
  ((∀ pos, pos ∈ dict_keys m → pos + 3 < 4096) → ∃ w, encode m h = Ok w)
  ∧ ((∃ pos, pos ∈ dict_keys m ∧ 4096 ≤ pos + 3) → encode m h = Raise IndexError).
Proof.
  unfold encode. cbv zeta. rewrite write_loop_view.
  set (cs := view (update_chunk_locations m h) m).
  assert (Hkeys : cs.*1 = dict_keys m) by apply view_keys.
  destruct (write_loop_cases cs write_init) as [Hok Hraise]; [by_evaluation..|].
  split.
  - intros Hall. destruct Hok as (st' & -> & Hmax).
    { intros e He. apply Hall. rewrite <- Hkeys. apply list_elem_of_fmap. by exists e. }
    unfold bind at 1.
    destruct (join_ok (ws_locations st') (ws_timestamps st') (ws_chunk_data_list st')
                (ws_max_pos st')) as (res & ->); [exact Hmax|].
    by eexists.
  - intros (pos & Hpos & Hbig). rewrite Hraise; [reflexivity|].
    rewrite <- Hkeys in Hpos. apply list_elem_of_fmap in Hpos as (e & -> & He).
    by exists e.
Qed.

End cells_more.

(** X9: [set_location] and [set_timestamp] write four bytes at [pos] and
    leave the rest of the table alone.  Read back with [bytes_to_int], the
    cells give the sector offset modulo 2^24, the sector count modulo 256 and
    the timestamp modulo 2^32: larger values are cut to their low bytes. *)
Theorem table_cell_readback (arr : list Z) (pos : nat) (c : Chunk) :
  pos + 3 < length arr →
  ∃ locations timestamps,
    set_location arr pos c = Ok locations
    ∧ set_timestamp arr pos c = Ok timestamps
    ∧ bytes_to_int locations pos (pos + 2) = Ok (location c mod 2 ^ 24)%Z
    ∧ exc_map (λ b, Z.land b 255) (getitem locations (pos + 3)) = Ok (size c mod 256)%Z
    ∧ bytes_to_int timestamps pos (pos + 3) = Ok (timestamp c mod 2 ^ 32)%Z
    ∧ length locations = length arr ∧ length timestamps = length arr
    ∧ ∀ j, j < pos ∨ pos + 3 < j →
        locations !! j = arr !! j ∧ timestamps !! j = arr !! j.
Proof.
  intros Hlen.
  exists (put_location arr (pos, c)), (put_timestamp arr (pos, c)).
  split; [by apply set_location_eq|]. split; [by apply set_timestamp_eq|].
  unfold put_location, put_timestamp. cbn [fst snd].
  pose proof (put4_cell arr pos (Z.land (Z.shiftr (location c) 16) 255)
                (Z.land (Z.shiftr (location c) 8) 255) (Z.land (location c) 255)
                (Z.land (size c) 255) Hlen) as HL. cbv zeta in HL.
  destruct HL as (L0 & L1 & L2 & L3).
  pose proof (put4_cell arr pos (Z.land (Z.shiftr (timestamp c) 24) 255)
                (Z.land (Z.shiftr (timestamp c) 16) 255)
                (Z.land (Z.shiftr (timestamp c) 8) 255)
                (Z.land (timestamp c) 255) Hlen) as HT. cbv zeta in HT.
  destruct HT as (T0 & T1 & T2 & T3).
  split; [|split; [|split]].
  - rewrite bytes_to_int_3 by (rewrite length_put4; lia).
    apply list_lookup_total_correct in L0, L1, L2. rewrite L0, L1, L2.
    by rewrite be24_mod.
  - unfold getitem. rewrite L3. unfold exc_map, bind.
    by rewrite !low_byte, Z.mod_mod by lia.
  - rewrite bytes_to_int_4 by (rewrite length_put4; lia).
    apply list_lookup_total_correct in T0, T1, T2, T3. rewrite T0, T1, T2, T3.
    by rewrite be32_mod.
  - rewrite !length_put4. split; [done|]. split; [done|].
    intros j Hj. by rewrite !put4_other.
Qed.

Lemma table_cell_readback_witness :
  ∃ locations timestamps,
    set_location (replicate 8 0%Z) 4 (mkChunk (2 ^ 32 + 7) (2 ^ 24 + 5) 257 []) = Ok locations
    ∧ set_timestamp (replicate 8 0%Z) 4 (mkChunk (2 ^ 32 + 7) (2 ^ 24 + 5) 257 [])
      = Ok timestamps
    ∧ bytes_to_int locations 4 6 = Ok 5%Z
    ∧ exc_map (λ b, Z.land b 255) (getitem locations 7) = Ok 1%Z
    ∧ bytes_to_int timestamps 4 7 = Ok 7%Z.
Proof.
  assert (Hlen : 4 + 3 < length (replicate 8 0%Z)) by (rewrite length_replicate; lia).
  destruct (table_cell_readback (replicate 8 0%Z) 4
              (mkChunk (2 ^ 32 + 7) (2 ^ 24 + 5) 257 []) Hlen)
    as (l & t & Hl & Ht & H1 & H2 & H3 & _).
  exists l, t. exact (conj Hl (conj Ht (conj H1 (conj H2 H3)))).
Defined.



Section filesystem_more.
Implicit Types (fs : RegionFinder.filesystem) (pair p q : FilePair) (files : list FilePair).









Lemma merge_pair_shape rule fs pair fs' :
  RegionFinder.merge_pair rule fs pair = Ok fs' →
  ∃ tb sb out,
    fs !! to_file pair = Some tb ∧ fs !! from_file pair = Some sb
    ∧ is_ok (decode tb []) = true
    ∧ (∀ h, is_ok (decode sb h) = true)
    ∧ fs' = <[to_file pair := out]> fs.
Proof.
  unfold RegionFinder.merge_pair, RegionFinder.read_file.
  destruct (fs !! to_file pair) as [tb|]; [|discriminate].
  destruct (decode tb []) as [t|] eqn:Hdt; [|discriminate]. unfold bind at 1.
  destruct (fs !! from_file pair) as [sb|]; [|discriminate].
  destruct (decode sb t.2) as [s|] eqn:Hds; [|discriminate]. unfold bind at 1.
  cbv zeta. destruct (encode _ _) as [w|]; [|discriminate]. unfold bind.
  intros [= <-]. exists tb, sb, w.2.
  split; [done|]. split; [done|]. split; [by rewrite Hdt|]. split; [|done].
  intros h. destruct (Z_lt_le_dec (len sb) 8192) as [Hshort|Hlong].
  - destruct sb as [|b sb]; [by rewrite decode_nil|].
    rewrite decode_short in Hds; [discriminate|]. unfold len in *. simpl in *. lia.
  - by destruct (decode_long sb h Hlong) as (m & h' & ->).
Qed.

Lemma merge_one_other rule fs pair path :
  path ≠ to_file pair → RegionFinder.merge_one rule fs pair !! path = fs !! path.
Proof.
  intros Hne. unfold RegionFinder.merge_one.
  destruct (RegionFinder.merge_pair rule fs pair) as [fs'|] eqn:Hm; [|done].
  destruct (merge_pair_shape _ _ _ _ Hm) as (tb & sb & out & _ & _ & _ & _ & ->).
  by rewrite lookup_insert_ne.
Qed.

Lemma merge_one_exists rule fs pair path :
  is_Some (RegionFinder.merge_one rule fs pair !! path) ↔ is_Some (fs !! path).
Proof.
  unfold RegionFinder.merge_one.
  destruct (RegionFinder.merge_pair rule fs pair) as [fs'|] eqn:Hm; [|done].
  destruct (merge_pair_shape _ _ _ _ Hm) as (tb & sb & out & Hto & _ & _ & _ & ->).
  destruct (decide (path = to_file pair)) as [->|Hne].
  - rewrite lookup_insert_eq, Hto. split; by eexists.
  - by rewrite lookup_insert_ne.
Qed.

Lemma merge_files_cons pair files rule fs :
  RegionFinder.merge (pair :: files) rule fs
  = RegionFinder.merge files rule (RegionFinder.merge_one rule fs pair).
Proof. reflexivity. Qed.

Lemma decode_keys bytes_data h m h' :
  decode bytes_data h = Ok (m, h') → ∀ pos, pos ∈ dict_keys m → pos + 3 < 4096.
Proof.
  intros Hdec pos Hpos.
  destruct (Z_lt_le_dec (len bytes_data) 8192) as [Hshort|Hlong].
  - destruct bytes_data as [|b bytes_data].
    + rewrite decode_nil in Hdec. injection Hdec as <- <-. by apply elem_of_nil in Hpos.
    + rewrite decode_short in Hdec; [discriminate|]. unfold len in *. simpl in *. lia.
  - destruct (decode_content bytes_data h Hlong) as (m0 & h0 & Hdec0 & _ & Hin & _).
    rewrite Hdec in Hdec0. injection Hdec0 as <- <-.
    apply elem_of_keys_inv in Hpos as (r & Hr).
    assert (∃ r', dict_get pos m = Some r') as (r' & Hget).
    { destruct (dict_get pos m) as [r'|] eqn:Hget; [by eexists|].
      apply dict_get_None in Hget. exfalso. apply Hget. exact (elem_of_keys _ _ _ Hr). }
    destruct (Hin pos r' Hget) as ((Hlt & k & Hk) & _). lia.
Qed.

Lemma decode_cases bytes_data h :
  (is_ok (decode bytes_data h) = true ↔ bytes_data = [] ∨ (8192 ≤ len bytes_data)%Z).
Proof.
  destruct (Z_lt_le_dec (len bytes_data) 8192) as [Hshort|Hlong].
  - destruct bytes_data as [|b bytes_data].
    + rewrite decode_nil. simpl. split; [by left|done].
    + rewrite decode_short by (unfold len in *; simpl in *; lia). simpl.
      split; [discriminate|]. intros [?|?]; [discriminate|lia].
  - destruct (decode_long bytes_data h Hlong) as (m & h' & ->). simpl.
    split; [by right|done].
Qed.

End filesystem_more.



(** X12: copying a file onto its own path empties it: the target is
    truncated before the source is read. *)
Theorem copy_onto_itself (fs : RegionFinder.filesystem) (path : string) (d : list Z) :
  fs !! path = Some d →
  RegionFinder.copy [mkFilePair path path] fs = <[path := []]> fs.
Proof.
  intros Hfrom. unfold RegionFinder.copy, RegionFinder.copy_one. simpl.
  rewrite Hfrom. rewrite lookup_insert_eq. simpl. apply insert_insert_eq.
Qed.

Lemma copy_onto_itself_witness :
  RegionFinder.copy [mkFilePair "w1/region/r.0.0.mca" "w1/region/r.0.0.mca"] two_worlds_fs
  = <["w1/region/r.0.0.mca" := []]> two_worlds_fs.
Proof.
  apply (copy_onto_itself two_worlds_fs "w1/region/r.0.0.mca" (region_with_slot0 100 7)).
  by_evaluation.
Defined.

(** X13: [RegionFinder.merge] changes no path that is not the target of
    one of its pairs, and it neither creates nor removes a file. *)
Theorem merge_touches_targets (files : list FilePair) (rule : MergeRule)
    (fs : RegionFinder.filesystem) (path : string) :
  (path ∉ to_file <$> files → RegionFinder.merge files rule fs !! path = fs !! path)
  ∧ (is_Some (RegionFinder.merge files rule fs !! path) ↔ is_Some (fs !! path)).
Proof.
  revert fs. induction files as [|p files IH]; intros fs; [done|].
  rewrite merge_files_cons. destruct (IH (RegionFinder.merge_one rule fs p)) as [IH1 IH2].
  split.
  - intros Hpath. rewrite fmap_cons in Hpath.
    apply not_elem_of_cons in Hpath as [Hne Hpath].
    rewrite IH1 by done. by apply merge_one_other.
  - rewrite IH2. apply merge_one_exists.
Qed.

(** X14: one pair of [RegionFinder.merge] goes through exactly when both
    files exist and each is empty or at least 8192 bytes long, whatever the
    tables say; in every other case the exception is caught and the file
    system stays as it was. *)
Theorem merge_pair_succeeds_iff (rule : MergeRule) (fs : RegionFinder.filesystem)
    (pair : FilePair) :
  (is_ok (RegionFinder.merge_pair rule fs pair) = true
   ↔ ∃ tb sb, fs !! to_file pair = Some tb ∧ fs !! from_file pair = Some sb
              ∧ (tb = [] ∨ (8192 ≤ len tb)%Z) ∧ (sb = [] ∨ (8192 ≤ len sb)%Z))
  ∧ (is_ok (RegionFinder.merge_pair rule fs pair) = false →
     RegionFinder.merge [pair] rule fs = fs).
Proof.
  split; [split|].
  - destruct (RegionFinder.merge_pair rule fs pair) as [fs'|] eqn:Hm; [|discriminate].
    intros _.
    destruct (merge_pair_shape _ _ _ _ Hm) as (tb & sb & out & Hto & Hfrom & Ht & Hs & _).
    exists tb, sb. split; [done|]. split; [done|].
    split; [by apply (decode_cases tb [])|by apply (decode_cases sb []), Hs].
  - intros (tb & sb & Hto & Hfrom & Ht & Hs).
    unfold RegionFinder.merge_pair, RegionFinder.read_file. rewrite Hto.
    apply (decode_cases tb []) in Ht.
    destruct (decode tb []) as [[m1 h1]|] eqn:Hd1; [|discriminate]. unfold bind at 1.
    rewrite Hfrom. cbn [snd fst].
    apply (decode_cases sb h1) in Hs.
    destruct (decode sb h1) as [[m2 h2]|] eqn:Hd2; [|discriminate]. unfold bind at 1.
    cbv zeta. cbn [snd fst].
    destruct (proj1 (encode_cases (merge h2 m1 m2 rule) h2)) as (w & ->); [|done].
    intros pos Hpos. apply elem_of_keys_inv in Hpos as (r & Hr).
    apply merge_entries in Hr as [Hr|Hr].
    + exact (decode_keys _ _ _ _ Hd1 pos (elem_of_keys _ _ _ Hr)).
    + exact (decode_keys _ _ _ _ Hd2 pos (elem_of_keys _ _ _ Hr)).
  - intros Hfail. unfold RegionFinder.merge, RegionFinder.merge_one. simpl.
    by destruct (RegionFinder.merge_pair rule fs pair).
Qed.

Lemma merge_touches_targets_witness :
  RegionFinder.merge [mkFilePair "w2/region/r.0.0.mca" "w1/region/r.0.0.mca"]
                     MergeRuleAlways two_worlds_fs !! "w2/region/r.0.0.mca"
  = Some (region_with_slot0 50 9).
Proof.
  refine (eq_trans (proj1 (merge_touches_targets
                             [mkFilePair "w2/region/r.0.0.mca" "w1/region/r.0.0.mca"]
                             MergeRuleAlways two_worlds_fs "w2/region/r.0.0.mca") _) _).
  - intros Hin%list_elem_of_singleton. discriminate.
  - by_evaluation.
Defined.

Lemma merge_pair_succeeds_iff_witness :
  RegionFinder.merge [mkFilePair "w2/region/r.9.9.mca" "w1/region/r.0.0.mca"]
                     MergeRuleAlways two_worlds_fs
  = two_worlds_fs.
Proof.
  apply (proj2 (merge_pair_succeeds_iff MergeRuleAlways two_worlds_fs
                  (mkFilePair "w2/region/r.9.9.mca" "w1/region/r.0.0.mca"))).
  by_evaluation.
Defined.

Section listing_more.
Implicit Types (fs : RegionFinder.filesystem) (e item : RegionFinder.entry)
  (map_files : dict string (list RegionFinder.entry)).

(** A loop whose steps only add to what the state holds. *)
Lemma for_each_collect {S X E} (body : S → X → exc S) (content : S → E → Prop)
    (adds : X → E → Prop) xs :
  (∀ x st st', x ∈ xs → body st x = Ok st' →
     ∀ y, content st' y ↔ content st y ∨ adds x y) →
  ∀ st st', for_each body xs st = Ok st' →
    ∀ y, content st' y ↔ content st y ∨ ∃ x, x ∈ xs ∧ adds x y.
Proof.
  induction xs as [|x xs IH]; intros Hstep st st' Hrun y.
  - injection Hrun as <-. split; [by left|].
    intros [?|(x & Hx & _)]; [done|by apply elem_of_nil in Hx].
  - rewrite for_each_cons in Hrun.
    destruct (body st x) as [st1|] eqn:Hx; [|discriminate]. unfold bind in Hrun.
    rewrite (IH (λ x' s s' Hx', Hstep x' s s' (list_elem_of_further _ _ _ Hx')) st1 st' Hrun y).
    rewrite (Hstep x st st1 (list_elem_of_here _ _) Hx y). split.
    + intros [[?|?]|(x' & Hx' & ?)]; [by left| |].
      * right. exists x. split; [apply list_elem_of_here|done].
      * right. exists x'. split; [by apply list_elem_of_further|done].
    + intros [?|(x' & [->|Hx']%elem_of_cons & ?)]; [by left; left|by left; right|].
      right. by exists x'.
Qed.

(** A loop stops with the exception of the first step that raises. *)
Lemma for_each_first_raise {S X} (body : S → X → exc S) (err : PyError) xs :
  (∀ x st, x ∈ xs → body st x = Raise err ∨ ∃ st', body st x = Ok st') →
  ∀ st, (∃ x, x ∈ xs ∧ ∀ st, body st x = Raise err) →
    for_each body xs st = Raise err.
Proof.
  induction xs as [|x xs IH]; intros Hcases st (x0 & Hx0 & Hraise).
  - by apply elem_of_nil in Hx0.
  - rewrite for_each_cons.
    destruct (Hcases x st (list_elem_of_here _ _)) as [->|(st1 & Hst1)]; [done|].
    rewrite Hst1. unfold bind.
    apply elem_of_cons in Hx0 as [->|Hx0]; [by rewrite Hraise in Hst1|].
    apply IH; [|by exists x0].
    intros x' st' Hx'. apply Hcases. by apply list_elem_of_further.
Qed.

Lemma append_item_content (k : string) item map_files e :
  e ∈ concat (dict_values (dict_set k (default [] (dict_get k map_files) ++ [item]) map_files))
  ↔ e ∈ concat (dict_values map_files) ∨ e = item.
Proof.
  unfold dict_values. induction map_files as [|[k' v'] map_files IH].
  - simpl. rewrite list_elem_of_singleton, elem_of_nil. tauto.
  - simpl. destruct (decide (k = k')) as [->|Hne].
    + simpl. rewrite !elem_of_app, list_elem_of_singleton. tauto.
    + simpl. rewrite !elem_of_app, IH. tauto.
Qed.

Lemma nonempty_size (d : list Z) : (len d >? 0)%Z = true ↔ d ≠ [].
Proof.
  unfold len. destruct d as [|b d]; simpl.
  - split; [discriminate|done].
  - split; [done|]. intros _. apply Z.gtb_lt. lia.
Qed.

Lemma list_file_content world1 dim_path fs root map_files file map_files' :
  RegionFinder.list_file world1 dim_path fs root map_files file = Ok map_files' →
  ∀ e, e ∈ concat (dict_values map_files')
       ↔ e ∈ concat (dict_values map_files)
         ∨ (endswith ".mca" file = true
            ∧ (∃ d, fs !! path_join root [file] = Some d ∧ d ≠ [])
            ∧ e = (file, path_join root [file], path_join world1 [dim_path; file])).
Proof.
  unfold RegionFinder.list_file, RegionFinder.getsize.
  destruct (endswith ".mca" file) eqn:Hext.
  - destruct (fs !! path_join root [file]) as [d|] eqn:Hfile; [|discriminate].
    unfold bind. destruct (len d >? 0)%Z eqn:Hsize.
    + intros [= <-] e. rewrite append_item_content.
      apply nonempty_size in Hsize. split.
      * intros [?| ->]; [by left|]. right. split; [done|]. split; [by exists d|done].
      * intros [?|(_ & _ & ->)]; [by left|by right].
    + intros [= <-] e. split; [by left|].
      intros [?|(_ & (d' & [= <-] & Hd) & _)]; [done|].
      apply nonempty_size in Hd. congruence.
  - intros [= <-] e. split; [by left|]. intros [?|(? & _)]; [done|discriminate].
Qed.

Lemma list_file_cases world1 dim_path fs root map_files file :
  (is_Some (fs !! path_join root [file]) ∨ endswith ".mca" file = false →
   ∃ map_files', RegionFinder.list_file world1 dim_path fs root map_files file
                 = Ok map_files')
  ∧ (fs !! path_join root [file] = None → endswith ".mca" file = true →
     RegionFinder.list_file world1 dim_path fs root map_files file
     = Raise FileNotFoundError).
Proof.
  unfold RegionFinder.list_file, RegionFinder.getsize. split.
  - intros Hok. destruct (endswith ".mca" file); [|by eexists].
    destruct Hok as [[d ->]|?]; [|discriminate]. unfold bind.
    destruct (len d >? 0)%Z; by eexists.
  - by intros -> ->.
Qed.

Lemma list_dir_content world1 dim_path fs map_files (d : string * list string) map_files' :
  RegionFinder.list_dir world1 dim_path fs map_files d = Ok map_files' →
  ∀ e, e ∈ concat (dict_values map_files')
       ↔ e ∈ concat (dict_values map_files)
         ∨ ∃ file, file ∈ d.2
           ∧ endswith ".mca" file = true
           ∧ (∃ data, fs !! path_join d.1 [file] = Some data ∧ data ≠ [])
           ∧ e = (file, path_join d.1 [file], path_join world1 [dim_path; file]).
Proof.
  unfold RegionFinder.list_dir.
  apply (for_each_collect (RegionFinder.list_file world1 dim_path fs d.1)
           (λ m e, e ∈ concat (dict_values m))
           (λ file e, endswith ".mca" file = true
              ∧ (∃ data, fs !! path_join d.1 [file] = Some data ∧ data ≠ [])
              ∧ e = (file, path_join d.1 [file], path_join world1 [dim_path; file]))).
  intros file st st' _ Hstep. by apply list_file_content.
Qed.

Lemma list_dir_cases world1 dim_path fs map_files (d : string * list string) :
  ((∀ file, file ∈ d.2 → endswith ".mca" file = true →
      is_Some (fs !! path_join d.1 [file])) →
   ∃ map_files', RegionFinder.list_dir world1 dim_path fs map_files d = Ok map_files')
  ∧ ((∃ file, file ∈ d.2 ∧ endswith ".mca" file = true
              ∧ fs !! path_join d.1 [file] = None) →
     RegionFinder.list_dir world1 dim_path fs map_files d = Raise FileNotFoundError).
Proof.
  unfold RegionFinder.list_dir. split.
  - intros Hall. apply for_each_ok. intros file st Hfile.
    apply (list_file_cases world1 dim_path fs d.1 st file).
    destruct (endswith ".mca" file) eqn:Hext; [left; by apply Hall|by right].
  - intros (file & Hfile & Hext & Hmissing). apply for_each_first_raise.
    + intros file' st _.
      destruct (endswith ".mca" file') eqn:Hext'; [|right].
      * destruct (fs !! path_join d.1 [file']) as [data|] eqn:Hf.
        -- right. apply (list_file_cases world1 dim_path fs d.1 st file'). left.
           by rewrite Hf.
        -- left. by apply (list_file_cases world1 dim_path fs d.1 st file').
      * apply (list_file_cases world1 dim_path fs d.1 st file'). by right.
    + exists file. split; [done|]. intros st.
      by apply (list_file_cases world1 dim_path fs d.1 st file).
Qed.

Lemma list_mca_files_content world1 walk fs dim_path l :
  RegionFinder.list_mca_files world1 walk fs dim_path = Ok l →
  ∀ e, e ∈ l ↔ listed world1 walk fs dim_path e.
Proof.
  unfold RegionFinder.list_mca_files.
  destruct (for_each _ _ _) as [map_files|] eqn:Hrun; [|discriminate].
  unfold bind. intros [= <-] e.
  rewrite (for_each_collect (RegionFinder.list_dir world1 dim_path fs)
             (λ m e, e ∈ concat (dict_values m))
             (λ (d : string * list string) e, ∃ file, file ∈ d.2
                ∧ endswith ".mca" file = true
                ∧ (∃ data, fs !! path_join d.1 [file] = Some data ∧ data ≠ [])
                ∧ e = (file, path_join d.1 [file], path_join world1 [dim_path; file]))
             (walk dim_path)
             (λ d st st' _ Hstep, list_dir_content world1 dim_path fs st d st' Hstep)
             [] map_files Hrun e).
  unfold listed. split.
  - intros [Hnil|([root files] & Hd & file & Hfile & Hext & Hsize & ->)].
    + by apply elem_of_nil in Hnil.
    + by exists root, files, file.
  - intros (root & files & file & Hd & Hfile & Hext & Hsize & ->).
    right. exists (root, files). split; [done|]. by exists file.
Qed.

Lemma list_mca_files_cases world1 walk fs dim_path :
  ((∀ root files file, (root, files) ∈ walk dim_path → file ∈ files →
      endswith ".mca" file = true → is_Some (fs !! path_join root [file])) →
   ∃ l, RegionFinder.list_mca_files world1 walk fs dim_path = Ok l)
  ∧ ((∃ root files file, (root, files) ∈ walk dim_path ∧ file ∈ files
        ∧ endswith ".mca" file = true ∧ fs !! path_join root [file] = None) →
     RegionFinder.list_mca_files world1 walk fs dim_path = Raise FileNotFoundError).
Proof.
  unfold RegionFinder.list_mca_files. split.
  - intros Hall.
    destruct (for_each_ok (RegionFinder.list_dir world1 dim_path fs) (walk dim_path) [])
      as (map_files & ->); [|by eexists].
    intros [root files] st Hd.
    apply (list_dir_cases world1 dim_path fs st (root, files)).
    intros file Hfile Hext. by apply (Hall root files file).
  - intros (root & files & file & Hd & Hfile & Hext & Hmissing).
    rewrite (for_each_first_raise (RegionFinder.list_dir world1 dim_path fs)
               FileNotFoundError); [done| |].
    + intros d st _.
      destruct (decide (Forall (λ file, endswith ".mca" file = true →
                                        is_Some (fs !! path_join d.1 [file])) d.2))
        as [Hall|Hsome].
      * right. apply (list_dir_cases world1 dim_path fs st d).
        exact (proj1 (Forall_forall _ _) Hall).
      * left. apply (list_dir_cases world1 dim_path fs st d).
        apply not_Forall_Exists in Hsome; [|intros file'; apply _].
        apply Exists_exists in Hsome as (file' & Hfile' & Hbad). unfold compose in Hbad.
        exists file'. split; [done|].
        destruct (endswith ".mca" file') eqn:Hext'.
        -- split; [done|]. destruct (fs !! path_join d.1 [file']) eqn:Hf; [|done].
           exfalso. apply Hbad. intros _. by eexists.
        -- exfalso. apply Hbad. discriminate.
    + exists (root, files). split; [done|]. intros st.
      apply (list_dir_cases world1 dim_path fs st (root, files)). by exists file.
Qed.

End listing_more.

(** X15: when [list_mca_files] returns, its list holds exactly the
    triples of the files found under [dim_path] whose name ends in .mca and
    whose size is not 0.  It returns exactly when every file found whose
    name ends in .mca can be sized; a missing one makes it raise
    [FileNotFoundError]. *)
Theorem list_mca_files_lists (world1 : string) (walk : RegionFinder.walker)
    (fs : RegionFinder.filesystem) (dim_path : string) :
  (∀ l, RegionFinder.list_mca_files world1 walk fs dim_path = Ok l →
     ∀ e, e ∈ l ↔ listed world1 walk fs dim_path e)
  ∧ (is_ok (RegionFinder.list_mca_files world1 walk fs dim_path) = true
     ↔ ∀ root files file, (root, files) ∈ walk dim_path → file ∈ files →
         endswith ".mca" file = true → is_Some (fs !! path_join root [file]))
  ∧ (is_ok (RegionFinder.list_mca_files world1 walk fs dim_path) = false
     ↔ RegionFinder.list_mca_files world1 walk fs dim_path = Raise FileNotFoundError).
Proof.
  split; [intros l; apply list_mca_files_content|].
  destruct (list_mca_files_cases world1 walk fs dim_path) as [Hok Hraise].
  destruct (is_ok (RegionFinder.list_mca_files world1 walk fs dim_path)) eqn:Hres.
  - split; [|split; [discriminate|intros Heq; by rewrite Heq in Hres]].
    split; [|done]. intros _ root files file Hd Hfile Hext.
    destruct (fs !! path_join root [file]) eqn:Hf; [by eexists|]. exfalso.
    rewrite Hraise in Hres; [discriminate|]. by exists root, files, file.
  - assert (Hmissing : ¬ ∀ root files file, (root, files) ∈ walk dim_path → file ∈ files →
              endswith ".mca" file = true → is_Some (fs !! path_join root [file])).
    { intros Hall. destruct (Hok Hall) as (l & Hl). by rewrite Hl in Hres. }
    split; [split; [discriminate|done]|]. split; [|done]. intros _.
    destruct (RegionFinder.list_mca_files world1 walk fs dim_path) as [l|err] eqn:Hl;
      [discriminate|].
    destruct (decide (Forall (λ d : string * list string,
                Forall (λ file, endswith ".mca" file = true →
                                is_Some (fs !! path_join d.1 [file])) d.2)
                (walk dim_path))) as [Hall|Hsome].
    + exfalso. apply Hmissing. intros root files file Hd Hfile Hext.
      rewrite Forall_forall in Hall. specialize (Hall _ Hd).
      rewrite Forall_forall in Hall. by apply Hall.
    + apply not_Forall_Exists in Hsome; [|intros d; apply _].
      apply Exists_exists in Hsome as ([root files] & Hd & Hbad). unfold compose in Hbad.
      apply not_Forall_Exists in Hbad; [|intros file; apply _].
      apply Exists_exists in Hbad as (file & Hfile & Hbad). unfold compose in Hbad.
      apply Hraise. exists root, files, file.
      split; [done|]. split; [done|].
      destruct (endswith ".mca" file) eqn:Hext.
      * split; [done|]. destruct (fs !! path_join (root, files).1 [file]) eqn:Hf; [|done].
        exfalso. apply Hbad. intros _. by eexists.
      * exfalso. apply Hbad. discriminate.
Qed.

Lemma list_mca_files_lists_witness :
  ("r.0.0.mca", "w2/region/r.0.0.mca", "w1/w2/region/r.0.0.mca")
  ∈ [("r.0.0.mca", "w2/region/r.0.0.mca", "w1/w2/region/r.0.0.mca")]
  ↔ listed "w1" two_worlds_walk two_worlds_fs "w2/region"
           ("r.0.0.mca", "w2/region/r.0.0.mca", "w1/w2/region/r.0.0.mca").
Proof.
  apply (proj1 (list_mca_files_lists "w1" two_worlds_walk two_worlds_fs "w2/region")).
  by_evaluation.
Defined.

(** X16: [merge_dimension] never uses the rule.  Whatever the rule and
    whatever the two directories hold, it returns the file system it was
    given when the answer is not y or Y, and otherwise the plain copy of
    every listed file of the source world. *)
Theorem merge_dimension_ignores_rule (world1 world2 : string)
    (walk : RegionFinder.walker) (dimension : string) (rule : MergeRule)
    (user_input : string) (fs : RegionFinder.filesystem) :
  let world1_dim_path := path_join world1 [dimension; RegionFinder.region_path] in
  let world2_dim_path := path_join world2 [dimension; RegionFinder.region_path] in
  RegionFinder.merge_dimension world1 world2 walk dimension rule user_input fs
  = (let* f1 := RegionFinder.list_mca_files world1 walk fs world1_dim_path in
     let* f2 := RegionFinder.list_mca_files world1 walk fs world2_dim_path in
     Ok (if RegionFinder.confirmed user_input
         then RegionFinder.copy (copies_of world1_dim_path f2) fs
         else fs)).
Proof.
  cbv zeta. unfold RegionFinder.merge_dimension.
  destruct (RegionFinder.list_mca_files world1 walk fs _) as [f1|]; [|done].
  unfold bind at 1 3.
  destruct (RegionFinder.list_mca_files world1 walk fs _) as [f2|]; [|done].
  unfold bind at 1 3. rewrite pair_files_all_copies. unfold bind. cbn [fst snd].
  unfold RegionFinder.confirm_and_run. f_equal.
  destruct (copies_of _ f2) as [|p ps] eqn:Hcopies.
  - by destruct (RegionFinder.confirmed user_input).
  - reflexivity.
Qed.

Section bytes_more.
Local Open Scope Z_scope.

Lemma lor_low_byte (R c : Z) : 0 ≤ c < 256 → Z.lor (R * 256) c = R * 256 + c.
Proof.
  intros Hc. rewrite Z.add_nocarry_lxor.
  - apply eq_sym, Z.lxor_lor.
    apply Z.bits_inj'. intros i Hi. rewrite Z.land_spec, Z.bits_0.
    change 256 with (2 ^ 8). rewrite <- Z.shiftl_mul_pow2 by lia.
    destruct (Z.lt_ge_cases i 8).
    + by rewrite Z.shiftl_spec_low.
    + rewrite (testbit_high c 8 i) by lia. apply Bool.andb_false_r.
  - apply Z.bits_inj'. intros i Hi. rewrite Z.land_spec, Z.bits_0.
    change 256 with (2 ^ 8). rewrite <- Z.shiftl_mul_pow2 by lia.
    destruct (Z.lt_ge_cases i 8).
    + by rewrite Z.shiftl_spec_low.
    + rewrite (testbit_high c 8 i) by lia. apply Bool.andb_false_r.
Qed.

Lemma place_byte (R b k : Z) :
  0 ≤ k →
  Z.lor (R * 256 ^ (k + 1)) (Z.shiftl (Z.land b 255) (k * 8))
  = (R * 256 + b mod 256) * 256 ^ k.
Proof.
  intros Hk. rewrite low_byte.
  assert (H256 : 256 ^ k = 2 ^ (k * 8)).
  { change 256 with (2 ^ 8). rewrite <- Z.pow_mul_r by lia. f_equal. lia. }
  rewrite Z.pow_add_r, Z.pow_1_r by lia. rewrite H256.
  replace (R * (2 ^ (k * 8) * 256)) with (R * 256 * 2 ^ (k * 8)) by lia.
  rewrite <- !Z.shiftl_mul_pow2 by lia. rewrite <- Z.shiftl_lor.
  rewrite lor_low_byte; [done|]. apply Z.mod_pos_bound. lia.
Qed.

Lemma bytes_to_int_loop_value (n : nat) : ∀ (arr : list Z) (start end_ : nat) (R : Z),
  (start + n = S end_)%nat → (start + n ≤ length arr)%nat →
  bytes_to_int_loop n arr start end_ (R * 256 ^ Z.of_nat n)
  = Ok (foldl (λ acc b, acc * 256 + b mod 256) R (take n (drop start arr))).
Proof.
  induction n as [|n IH]; intros arr start end_ R Hend Hlen.
  - simpl. f_equal. lia.
  - destruct (lookup_lt_is_Some_2 arr start) as [b Hb]; [lia|].
    cbn [bytes_to_int_loop]. unfold getitem. rewrite Hb. unfold bind.
    replace (Z.of_nat (S n)) with (Z.of_nat n + 1) by lia.
    replace (Z.of_nat (end_ - start)) with (Z.of_nat n) by lia.
    rewrite place_byte by lia.
    rewrite IH by lia.
    rewrite (drop_S arr b start Hb). reflexivity.
Qed.

End bytes_more.

Section layout_more.

Lemma packed_unique cs : ∀ cs' a,
  packed a cs → packed a cs' →
  Forall2 (λ e e' : nat * Chunk, e.1 = e'.1 ∧ same_content e.2 e'.2) cs cs' →
  cs = cs'.
Proof.
  induction cs as [|e cs IH]; intros cs' a Hp Hp' Hall.
  - by apply Forall2_nil_inv_l in Hall as ->.
  - apply Forall2_cons_inv_l in Hall as (e' & cs'' & (Hk & Ht & Hs & Hd) & Hall & ->).
    simpl in Hp, Hp'. destruct Hp as [Hloc Hp]. destruct Hp' as [Hloc' Hp'].
    assert (e = e') as <-.
    { destruct e as [k [t l s d]], e' as [k' [t' l' s' d']]. simpl in *. congruence. }
    f_equal. by apply (IH cs'' (a + size e.2)%Z).
Qed.

Lemma view_same_content h1 h2 (m : chunk_map) :
  (∀ r, r ∈ dict_values m → same_content (deref h1 r) (deref h2 r)) →
  Forall2 (λ e e' : nat * Chunk, e.1 = e'.1 ∧ same_content e.2 e'.2)
          (view h1 m) (view h2 m).
Proof.
  unfold view, dict_values. induction m as [|[k r] m IH]; intros Hsame; [constructor|].
  rewrite !fmap_cons. constructor.
  - split; [done|]. apply Hsame. rewrite fmap_cons. apply list_elem_of_here.
  - apply IH. intros r' Hr'. apply Hsame. rewrite fmap_cons. by apply list_elem_of_further.
Qed.

Lemma same_content_sym c c' : same_content c c' → same_content c' c.
Proof. intros (? & ? & ?). by repeat split. Qed.

Lemma valid_same_content (m : chunk_map) h h2 :
  valid_container m h → length h2 = length h →
  (∀ r, r ∈ dict_values m → same_content (deref h2 r) (deref h r)) →
  valid_container m h2.
Proof.
  intros [Hk Hs Hr Hl Hc Hp Ht] Hlen Hsame. split; try done.
  - intros r Hin. rewrite Hlen. by apply Hl.
  - intros r Hin. destruct (Hsame r Hin) as (_ & -> & _). by apply Hc.
  - intros r Hin. unfold whole_payload. destruct (Hsame r Hin) as (_ & -> & ->).
    by apply Hp.
  - intros r Hin. destruct (Hsame r Hin) as (-> & _ & _). by apply Ht.
Qed.

(** The bytes [encode] writes depend on the timestamps, counts and
    payloads of the chunks, not on the offsets they carry. *)
Lemma encode_same_content (m : chunk_map) h h2 :
  valid_container m h → valid_container m h2 →
  (∀ r, r ∈ dict_values m → same_content (deref h2 r) (deref h r)) →
  ∃ h' h2' out, encode m h = Ok (h', out) ∧ encode m h2 = Ok (h2', out).
Proof.
  intros V V2 Hsame.
  pose proof (encode_bytes m h V) as E. pose proof (encode_bytes m h2 V2) as E2.
  cbv zeta in E, E2.
  pose proof (valid_laid_out m h V) as L. pose proof (valid_laid_out m h2 V2) as L2.
  assert (Hviews : view (update_chunk_locations m h) m
                   = view (update_chunk_locations m h2) m).
  { apply (packed_unique _ _ 2%Z (lo_packed _ L) (lo_packed _ L2)).
    apply view_same_content. intros r Hr.
    apply (same_content_trans _ (deref h r)); [apply (walk_content (dict_values m) 2 h r)|].
    apply (same_content_trans _ (deref h2 r)); [by apply same_content_sym, Hsame|].
    apply same_content_sym, (walk_content (dict_values m) 2 h2 r). }
  eexists _, _, _. split; [exact E|]. rewrite E2, Hviews. reflexivity.
Qed.

End layout_more.

(** X17: the bytes [encode] writes do not depend on the sector offsets the
    chunks carry: two heaps that give the chunks of a valid container the
    same timestamps, sector counts and payloads give the same file. *)
Theorem encode_ignores_offsets (m : chunk_map) (h h2 : heap) :
  valid_container m h → length h2 = length h →
  (∀ r, r ∈ dict_values m → same_content (deref h2 r) (deref h r)) →
  ∃ h' h2' out, encode m h = Ok (h', out) ∧ encode m h2 = Ok (h2', out).
Proof.
  intros V Hlen Hsame. apply encode_same_content; [done| |done].
  by apply (valid_same_content m h h2).
Qed.

Lemma encode_ignores_offsets_witness :
  ∃ h' h2' out,
    encode disjoint_base disjoint_heap = Ok (h', out)
    ∧ encode disjoint_base
             [mkChunk 100 77 1 (payload 1 1); mkChunk 50 2 1 (payload 1 3)]
      = Ok (h2', out).
Proof.
  apply (encode_ignores_offsets disjoint_base disjoint_heap
           [mkChunk 100 77 1 (payload 1 1); mkChunk 50 2 1 (payload 1 3)]).
  - exact (proj1 disjoint_valid).
  - reflexivity.
  - intros r Hr%list_elem_of_singleton. simpl in Hr. subst r. by repeat split.
Defined.

(** X18: [bytes_to_int arr start end] returns the unsigned big-endian value
    of the bytes [arr[start..end]], each taken modulo 256, when [end] is
    inside the array; an empty range gives 0; and a range that runs past
    the end of the array raises [IndexError]. *)
Theorem bytes_to_int_big_endian (arr : list Z) (start end_ : nat) :
  (end_ < length arr ∨ end_ < start →
   bytes_to_int arr start end_
   = Ok (big_endian (take (S end_ - start) (drop start arr))))
  ∧ (start ≤ end_ → length arr ≤ end_ → bytes_to_int arr start end_ = Raise IndexError).
Proof.
  split.
  - intros Hin. unfold bytes_to_int, big_endian.
    destruct (Nat.lt_ge_cases end_ start) as [Hempty|Hrange].
    + by replace (S end_ - start) with 0 by lia.
    + destruct Hin as [Hin|?]; [|lia].
      rewrite <- (bytes_to_int_loop_value (S end_ - start) arr start end_ 0) by lia.
      reflexivity.
  - intros Hrange Hlen.
    replace end_ with (start + (end_ - start)) by lia.
    apply bytes_to_int_raise. lia.
Qed.

Lemma bytes_to_int_big_endian_witness :
  bytes_to_int [7; 1; 2; 259]%Z 1 3 = Ok (1 * 65536 + 2 * 256 + 3)%Z
  ∧ bytes_to_int [7; 1; 2; 259]%Z 2 4 = Raise IndexError.
Proof.
  split.
  - refine (eq_trans (proj1 (bytes_to_int_big_endian [7; 1; 2; 259]%Z 1 3) _) _).
    + left. simpl. lia.
    + reflexivity.
  - apply (proj2 (bytes_to_int_big_endian [7; 1; 2; 259]%Z 2 4)); simpl; lia.
Defined.

Section rewrite_more.

Lemma filter_ext_in {A} (P Q : A → Prop) `{∀ x, Decision (P x)} `{∀ x, Decision (Q x)}
    (l : list A) :
  (∀ x, x ∈ l → P x ↔ Q x) → filter P l = filter Q l.
Proof.
  induction l as [|x l IH]; intros Hext; [done|].
  assert (Hl : filter P l = filter Q l).
  { apply IH. intros y Hy. apply Hext. by apply list_elem_of_further. }
  pose proof (Hext x (list_elem_of_here _ _)) as Hx.
  destruct (decide (P x)) as [HP|HP].
  - rewrite !filter_cons_True by tauto. by rewrite Hl.
  - rewrite !filter_cons_False by tauto. done.
Qed.

(** The keys the loop of [read_file] adds, in the order it adds them. *)
Lemma read_loop_keys locations timestamps chunk_data_array xs : ∀ m h m' h',
  NoDup xs →
  (∀ i, i ∈ xs → i + 3 < length locations ∧ i + 3 < length timestamps) →
  (∀ i, i ∈ xs → i ∉ dict_keys m) →
  for_each (read_step locations timestamps chunk_data_array) xs (m, h) = Ok (m', h') →
  dict_keys m'
  = dict_keys m
    ++ filter (λ i, size (entry_chunk locations timestamps chunk_data_array i) ≠ 0%Z) xs.
Proof.
  induction xs as [|i xs IH]; intros m h m' h' Hxs Hfit Hnew Hrun.
  - injection Hrun as <- <-. by rewrite app_nil_r.
  - apply NoDup_cons in Hxs as [Hi Hxs].
    destruct (Hfit i) as [Hl Ht]; [apply elem_of_cons; by left|].
    assert (Hfit' : ∀ j, j ∈ xs → j + 3 < length locations ∧ j + 3 < length timestamps).
    { intros j Hj. apply Hfit, elem_of_cons. by right. }
    rewrite for_each_cons, read_step_eq in Hrun by done. unfold bind in Hrun.
    destruct (Z.eqb_spec (size (entry_chunk locations timestamps chunk_data_array i)) 0)
      as [Hz|Hnz].
    + rewrite filter_cons_False by (intros Hne; by apply Hne).
      apply (IH m h m' h'); try done.
      intros j Hj. apply Hnew, elem_of_cons. by right.
    + rewrite filter_cons_True by done.
      assert (Hfresh : i ∉ dict_keys m) by (apply Hnew, elem_of_cons; by left).
      rewrite dict_set_absent in Hrun by done.
      assert (Hnew' : ∀ j, j ∈ xs → j ∉ dict_keys (m ++ [(i, length h)])).
      { intros j Hj. unfold dict_keys. rewrite fmap_app. simpl.
        intros [Hin|Hin]%elem_of_app.
        - revert Hin. apply Hnew, elem_of_cons. by right.
        - apply list_elem_of_singleton in Hin. by subst. }
      rewrite (IH _ _ m' h' Hxs Hfit' Hnew' Hrun).
      unfold dict_keys. rewrite fmap_app. simpl. by rewrite <- app_assoc.
Qed.

(** [read_file] gives the occupied slots in the order of the table. *)
Lemma decode_key_list bytes_data h m h' :
  (8192 ≤ len bytes_data)%Z → decode bytes_data h = Ok (m, h') →
  dict_keys m
  = filter (λ i, size (table_entry bytes_data i) ≠ 0%Z) (range_step 4096 4).
Proof.
  intros Hlen Hdec.
  pose proof (len_slice bytes_data 0 sector_size ltac:(lia)
                ltac:(unfold sector_size; lia)) as HL.
  pose proof (len_slice bytes_data sector_size (sector_size * 2)
                ltac:(unfold sector_size; lia) ltac:(unfold sector_size; lia)) as HT.
  unfold sector_size in HL, HT. unfold len in HL, HT, Hlen.
  unfold decode in Hdec.
  assert (HL' : length (slice bytes_data 0 sector_size) = 4096)
    by (unfold sector_size; lia).
  rewrite HL' in Hdec.
  assert (Hfit : ∀ i, i ∈ range_step 4096 4 →
            i + 3 < length (slice bytes_data 0 sector_size)
            ∧ i + 3 < length (slice bytes_data sector_size (sector_size * 2))).
  { intros i (Hi & k & ->)%elem_of_range_step4. unfold sector_size in *. lia. }
  assert (Hnew : ∀ i, i ∈ range_step 4096 4 → i ∉ dict_keys (@nil (nat * ref))).
  { intros i _ Hi. by apply elem_of_nil in Hi. }
  pose proof (read_loop_keys _ _ _ _ [] h m h' (range_step4_NoDup 4096) Hfit Hnew Hdec)
    as Hkeys.
  rewrite Hkeys. unfold dict_keys at 1. rewrite fmap_nil, app_nil_l.
  unfold table_entry. reflexivity.
Qed.

Lemma view_by_key h1 h2 (m : chunk_map) : ∀ (m' : chunk_map),
  dict_keys m = dict_keys m' → NoDup (dict_keys m) →
  (∀ pos r r', dict_get pos m = Some r → dict_get pos m' = Some r' →
     same_content (deref h1 r) (deref h2 r')) →
  Forall2 (λ e e' : nat * Chunk, e.1 = e'.1 ∧ same_content e.2 e'.2)
          (view h1 m) (view h2 m').
Proof.
  unfold view, dict_keys.
  induction m as [|[k r] m IH]; intros m' Hkeys Hnd Hsame.
  - destruct m'; [constructor|discriminate].
  - destruct m' as [|[k' r'] m']; [discriminate|].
    rewrite !fmap_cons in Hkeys. simpl in Hkeys. injection Hkeys as <- Hkeys.
    rewrite fmap_cons in Hnd. apply NoDup_cons in Hnd as [Hk Hnd]. simpl in Hk.
    rewrite !fmap_cons. constructor.
    + split; [done|]. simpl. apply (Hsame k); simpl; by rewrite decide_True.
    + apply IH; [done|done|]. intros pos r1 r1' Hg Hg'.
      assert (Hne : pos ≠ k).
      { intros ->. apply Hk. apply (elem_of_keys m k r1), dict_get_Some_elem, Hg. }
      apply (Hsame pos); simpl; by rewrite decide_False.
Qed.

Lemma file_slot_size bytes_data pos :
  size (table_entry bytes_data pos) ≠ 0%Z ↔ is_Some (file_slot bytes_data pos).
Proof.
  unfold file_slot. cbv zeta.
  destruct (Z.eqb_spec (size (table_entry bytes_data pos)) 0) as [Hz|Hnz].
  - split; [done|]. intros [? ?]. discriminate.
  - split; [by eexists|done].
Qed.

Lemma rewrite_fixpoint (bytes_data : list Z) (h0 h0' : heap) :
  well_formed_region bytes_data →
  ∃ m h h1 out m' h' h2,
    decode bytes_data h0 = Ok (m, h) ∧ encode m h = Ok (h1, out)
    ∧ decode out h0' = Ok (m', h') ∧ encode m' h' = Ok (h2, out).
Proof.
  intros W. pose proof W as [Hlen _].
  destruct (decode_valid bytes_data h0 W) as (m & h & Hdec & V & _ & _).
  destruct (encoded_file m h V) as (h1 & out & Henc & Wout & Hslots).
  pose proof Wout as [Hlen' _].
  destruct (decode_valid out h0' Wout) as (m' & h' & Hdec' & V' & _ & _).
  exists m, h, h1, out, m', h', (update_chunk_locations m' h').
  split; [done|]. split; [done|]. split; [done|].
  pose proof (encode_bytes m h V) as E. pose proof (encode_bytes m' h' V') as E'.
  cbv zeta in E, E'. rewrite Henc in E. injection E as _ Hout.
  rewrite E'. f_equal. f_equal. rewrite Hout.
  assert (Hsame : ∀ pos, pos < 4096 → (∃ k, pos = k * 4) →
            slot_content h' m' pos = slot_content h m pos).
  { intros pos Hpos Hk.
    by rewrite (file_slot_decoded out h0' m' h' pos Hlen' Hdec' Hpos Hk), Hslots. }
  assert (Hkeys : dict_keys m' = dict_keys m).
  { rewrite (decode_key_list _ _ _ _ Hlen Hdec), (decode_key_list _ _ _ _ Hlen' Hdec').
    apply filter_ext_in. intros pos (Hpos & Hk)%elem_of_range_step4.
    rewrite !file_slot_size.
    rewrite <- (file_slot_decoded out h0' m' h' pos Hlen' Hdec' Hpos Hk).
    rewrite <- (file_slot_decoded bytes_data h0 m h pos Hlen Hdec Hpos Hk).
    by rewrite Hsame. }
  assert (Hviews : view (update_chunk_locations m' h') m'
                   = view (update_chunk_locations m h) m).
  { apply (packed_unique _ _ 2%Z (lo_packed _ (valid_laid_out m' h' V'))
             (lo_packed _ (valid_laid_out m h V))).
    apply view_by_key; [done|apply (vc_keys _ _ V')|].
    intros pos r' r Hg' Hg.
    assert (Hr' : r' ∈ dict_values m').
    { exact (elem_of_values _ _ _ (dict_get_Some_elem _ _ _ Hg')). }
    assert (Hr : r ∈ dict_values m).
    { exact (elem_of_values _ _ _ (dict_get_Some_elem _ _ _ Hg)). }
    destruct (vc_slots _ _ V pos (elem_of_keys _ _ _ (dict_get_Some_elem _ _ _ Hg)))
      as (k & Hk & Hpos).
    pose proof (Hsame pos ltac:(lia) (ex_intro _ k Hpos)) as Hslot.
    unfold slot_content in Hslot. rewrite Hg, Hg' in Hslot. simpl in Hslot.
    injection Hslot as Hts Hdata.
    pose proof (vc_payload _ _ V r Hr) as Hp. pose proof (vc_payload _ _ V' r' Hr') as Hp'.
    unfold whole_payload in Hp, Hp'. rewrite Hdata in Hp'.
    apply (same_content_trans _ (deref h' r'));
      [apply (walk_content (dict_values m') 2 h' r')|].
    apply (same_content_trans _ (deref h r));
      [|apply same_content_sym, (walk_content (dict_values m) 2 h r)].
    split; [done|]. split; [|done]. unfold sector_size in *. lia. }
  by rewrite Hviews.
Qed.

End rewrite_more.

(** X19: rewriting is idempotent.  A file that [decode] accepts, once
    decoded and encoded, gives a file that decodes and encodes to itself:
    the same bytes, whatever heap the chunks are read into. *)
Theorem rewrite_is_idempotent (bytes_data : list Z) (h0 h0' : heap) :
  well_formed_region bytes_data →
  ∃ m h h1 out m' h' h2,
    decode bytes_data h0 = Ok (m, h) ∧ encode m h = Ok (h1, out)
    ∧ decode out h0' = Ok (m', h') ∧ encode m' h' = Ok (h2, out).
Proof. apply rewrite_fixpoint. Qed.

Lemma rewrite_is_idempotent_witness :
  ∃ m h h1 out m' h' h2,
    decode (region_with_slot0 100 7) [] = Ok (m, h) ∧ encode m h = Ok (h1, out)
    ∧ decode out [] = Ok (m', h') ∧ encode m' h' = Ok (h2, out).
Proof.
  exact (rewrite_is_idempotent (region_with_slot0 100 7) [] []
           (proj1 region_with_slot0_well_formed)).
Defined.
